(** * Agro: the image-analysis pipeline of [src/backend/routes/images.js]

    A shallow embedding of the background worker [analyzeImage]: the
    extraction of a JSON object from the model's text, [JSON.parse], the
    coverage derivation ([areaOf], the label filters, the backfilling of
    [weedCoverage], [healthyCropCoverage] and [totalArea]), the single
    [UPDATE] that ends the worker, and the image routes that read and
    delete rows of the [images] table.

    Modelling choices.
    - Text is a Rocq [string]: one [ascii] per UTF-16 code unit below 256.
      A [\u] escape above 0xFF, which [JSON.parse] accepts, lies outside
      this character model and makes the modelled [JSON.parse] fail.
    - A JavaScript number is an IEEE double.  [NumFin m e] is the finite
      double whose exact value is the decimal m * 10^e, written in the
      canonical form: e = 0, or e < 0 with m not a multiple of 10.  Numeric
      literals and the arithmetic of [areaOf] round to the nearest double,
      ties to even, with subnormals and overflow to the infinities.  The
      sign of a zero is not kept: every zero the code handles is passed
      through [|| 0], [Math.max(0, _)] or [JSON.stringify], which do not
      distinguish it.
    - [Number(o)] and the string conversion of an object look up its
      [toString]: an own [toString] key that holds data (the only kind
      [JSON.parse] makes) is not callable, and the conversion throws a
      [TypeError]; the model answers [None] there.
    - Objects are association lists in insertion order with distinct keys. *)

From Stdlib Require Import Bool ZArith QArith Qround Ascii String List Lia Lqa.
From Stdlib Require Import Decimal DecimalFacts DecimalN DecimalString.
From Stdlib Require Import Sorting.Permutation.
Import ListNotations.
Open Scope string_scope.
Open Scope Z_scope.
#[local] Set Warnings "-register-all".

(** ** JavaScript values reachable from [JSON.parse] *)

Inductive jnum : Type :=
| NumFin (m e : Z)
| NumInf (neg : bool)
| NumNaN.

Inductive jvalue : Type :=
| JNull
| JBool (b : bool)
| JNum (n : jnum)
| JStr (s : string)
| JArr (l : list jvalue)
| JObj (fs : list (string * jvalue)).

(** Induction over values, with the hypotheses on the elements of arrays
    and on the fields of objects. *)
Section jvalue_ind_nested.
Variable P : jvalue -> Prop.
Hypothesis HNull : P JNull.
Hypothesis HBool : forall b, P (JBool b).
Hypothesis HNum : forall n, P (JNum n).
Hypothesis HStr : forall s, P (JStr s).
Hypothesis HArr : forall l, Forall P l -> P (JArr l).
Hypothesis HObj : forall fs, Forall (fun kv => P (snd kv)) fs -> P (JObj fs).

Fixpoint jvalue_ind' (v : jvalue) : P v :=
  match v with
  | JNull => HNull
  | JBool b => HBool b
  | JNum n => HNum n
  | JStr s => HStr s
  | JArr l =>
      HArr l ((fix go (l : list jvalue) : Forall P l :=
                 match l with
                 | [] => Forall_nil _
                 | x :: l' => Forall_cons _ (jvalue_ind' x) (go l')
                 end) l)
  | JObj fs =>
      HObj fs ((fix go (fs : list (string * jvalue))
                  : Forall (fun kv => P (snd kv)) fs :=
                 match fs with
                 | [] => Forall_nil _
                 | kv :: fs' => Forall_cons _ (jvalue_ind' (snd kv)) (go fs')
                 end) fs)
  end.
End jvalue_ind_nested.

(** ** Characters *)

Definition dquote : ascii := "034".

Definition is_digit (c : ascii) : bool :=
  let n := nat_of_ascii c in (48 <=? n)%nat && (n <=? 57)%nat.

(** JSON whitespace: space, tab, line feed, carriage return. *)
Definition is_ws (c : ascii) : bool :=
  (c =? " ")%char || (c =? "009")%char || (c =? "010")%char || (c =? "013")%char.

Fixpoint skip_ws (s : string) : string :=
  match s with
  | String c s' => if is_ws c then skip_ws s' else s
  | EmptyString => EmptyString
  end.

(** ** Decimal numbers *)

(** The exact rational value of the decimal m * 10^e. *)
Definition dec_to_Q (m e : Z) : Q :=
  if 0 <=? e then inject_Z (m * 10 ^ e) else Qmake m (Z.to_pos (10 ^ (- e))).

(** n / d rounded to the nearest integer, ties to even. *)
Definition div_round_even (n d : Z) : Z :=
  let q := n / d in
  match Z.compare (2 * (n mod d)) d with
  | Lt => q
  | Eq => if Z.even q then q else q + 1
  | Gt => q + 1
  end.

(** Rounding of the positive rational n / d to a double.  Every double is
    an integer multiple of 2^-1074, so the value is scaled by 2^1074; the
    scaled value is rounded to 53 significant bits (fewer below 2^-1022,
    where s stays 0: the subnormals), giving m * 2^(s - 1074).  A result
    of 2^1024 or more is an overflow ([None]). *)
Definition round_pos (n d : Z) : option (Z * Z) :=
  let t := n * 2 ^ 1074 in
  let s := Z.max (Z.log2 (t / d) - 52) 0 in
  let m := div_round_even t (d * 2 ^ s) in
  if 2 ^ 2098 <=? m * 2 ^ s then None else Some (m, s - 1074).

(** Removes trailing decimal zeros from m * 10^e while e < 0. *)
Fixpoint strip_zeros (fuel : nat) (m e : Z) : Z * Z :=
  match fuel with
  | O => (m, e)
  | S f => if (e <? 0) && (m mod 10 =? 0) then strip_zeros f (m / 10) (e + 1) else (m, e)
  end.

(** The exact decimal of the binary m * 2^e, in canonical form
    (2^-k = 5^k * 10^-k). *)
Definition bin_to_dec (m e : Z) : Z * Z :=
  if 0 <=? e then (m * 2 ^ e, 0) else strip_zeros (Z.to_nat (- e)) (m * 5 ^ (- e)) e.

Definition round_frac (neg : bool) (n d : Z) : jnum :=
  match round_pos n d with
  | None => NumInf neg
  | Some (m, e) => let '(dm, de) := bin_to_dec m e in NumFin (if neg then - dm else dm) de
  end.

(** The double nearest to a rational: the rounding of every operation on
    doubles and of every numeric literal. *)
Definition round_Q (q : Q) : jnum :=
  match Qnum q with
  | Z0 => NumFin 0 0
  | Zpos p => round_frac false (Zpos p) (Zpos (Qden q))
  | Zneg p => round_frac true (Zpos p) (Zpos (Qden q))
  end.

(** The canonical form of a decimal m * 10^e: no exponent, or a negative
    exponent and a last digit that is not 0. *)
Definition canonical (m e : Z) : Prop := e = 0 \/ (e < 0 /\ m mod 10 <> 0).

(** The double that a numeric literal with digits m and exponent e
    denotes. *)
Definition dec_to_num (m e : Z) : jnum := round_Q (dec_to_Q m e).

Definition digit_cons (c : ascii) : option (uint -> uint) :=
  match c with
  | "0"%char => Some D0 | "1"%char => Some D1 | "2"%char => Some D2
  | "3"%char => Some D3 | "4"%char => Some D4 | "5"%char => Some D5
  | "6"%char => Some D6 | "7"%char => Some D7 | "8"%char => Some D8
  | "9"%char => Some D9
  | _ => None
  end.

(** The longest run of decimal digits at the head of [s]. *)
Fixpoint read_digits (s : string) : uint * string :=
  match s with
  | String c s' =>
      match digit_cons c with
      | Some d => let '(u, r) := read_digits s' in (d u, r)
      | None => (Nil, s)
      end
  | EmptyString => (Nil, EmptyString)
  end.

Definition uint_of_digits (u : uint) : Z := Z.of_N (N.of_uint u).

(** ** [JSON.stringify] *)

Definition digits_of_N (n : N) : string := NilEmpty.string_of_uint (N.to_uint n).

Definition print_Z (z : Z) : string :=
  if z <? 0 then "-" ++ digits_of_N (Z.abs_N z) else digits_of_N (Z.abs_N z).

(** Non-finite numbers are written [null]; a finite one as its mantissa
    and, when it is not zero, its decimal exponent ([JSON.stringify]
    writes the shortest decimal instead, which reads back to the same
    number). *)
Definition print_num (n : jnum) : string :=
  match n with
  | NumFin m e => if e =? 0 then print_Z m else print_Z m ++ "e" ++ print_Z e
  | NumInf _ | NumNaN => "null"
  end.

Definition hexdig (n : nat) : ascii :=
  ascii_of_nat (if (n <? 10)%nat then (48 + n)%nat else (87 + n)%nat).

Definition escape_char (c : ascii) : string :=
  let n := nat_of_ascii c in
  if (c =? dquote)%char then String "\" (String dquote EmptyString)
  else if (c =? "\")%char then "\\"
  else if (c =? "008")%char then "\b"
  else if (c =? "009")%char then "\t"
  else if (c =? "010")%char then "\n"
  else if (c =? "012")%char then "\f"
  else if (c =? "013")%char then "\r"
  else if (n <? 32)%nat then
    "\u00" ++ String (hexdig (n / 16)%nat) (String (hexdig (n mod 16)%nat) EmptyString)
  else String c EmptyString.

Fixpoint escape (s : string) : string :=
  match s with
  | EmptyString => EmptyString
  | String c s' => escape_char c ++ escape s'
  end.

Definition quote (s : string) : string := String dquote (escape s ++ String dquote EmptyString).

Fixpoint stringify (v : jvalue) : string :=
  match v with
  | JNull => "null"
  | JBool true => "true"
  | JBool false => "false"
  | JNum n => print_num n
  | JStr s => quote s
  | JArr l =>
      "[" ++ (fix elems (first : bool) (l : list jvalue) : string :=
                match l with
                | [] => EmptyString
                | x :: l' => (if first then EmptyString else ",") ++ stringify x ++ elems false l'
                end) true l ++ "]"
  | JObj fs =>
      "{" ++ (fix mems (first : bool) (fs : list (string * jvalue)) : string :=
                match fs with
                | [] => EmptyString
                | (k, x) :: fs' =>
                    (if first then EmptyString else ",") ++ quote k ++ ":" ++ stringify x
                    ++ mems false fs'
                end) true fs ++ "}"
  end.

(** ** [JSON.parse] *)

Definition cons_res (c : ascii) (o : option (string * string)) : option (string * string) :=
  match o with
  | Some (str, r) => Some (String c str, r)
  | None => None
  end.

(** The character denoted by a one-letter escape. *)
Definition unescape (e : ascii) : option ascii :=
  if (e =? dquote)%char then Some dquote
  else if (e =? "\")%char then Some "\"%char
  else if (e =? "/")%char then Some "/"%char
  else if (e =? "b")%char then Some "008"%char
  else if (e =? "f")%char then Some "012"%char
  else if (e =? "n")%char then Some "010"%char
  else if (e =? "r")%char then Some "013"%char
  else if (e =? "t")%char then Some "009"%char
  else None.

Definition hex_val (c : ascii) : option nat :=
  let n := nat_of_ascii c in
  if (48 <=? n)%nat && (n <=? 57)%nat then Some (n - 48)%nat
  else if (97 <=? n)%nat && (n <=? 102)%nat then Some (n - 87)%nat
  else if (65 <=? n)%nat && (n <=? 70)%nat then Some (n - 55)%nat
  else None.

Definition hex4 (a b c d : ascii) : option nat :=
  match hex_val a, hex_val b, hex_val c, hex_val d with
  | Some x, Some y, Some z, Some w => Some (((x * 16 + y) * 16 + z) * 16 + w)%nat
  | _, _, _, _ => None
  end.

(** The characters of a string literal after its opening quote, and the
    text after its closing quote.  A [\u] escape above 0xFF lies outside
    the 8-bit character model and is refused. *)
Fixpoint parse_string_body (s : string) : option (string * string) :=
  match s with
  | EmptyString => None
  | String c s' =>
      if (c =? dquote)%char then Some (EmptyString, s')
      else if (c =? "\")%char then
        match s' with
        | String "u" (String h1 (String h2 (String h3 (String h4 s4)))) =>
            match hex4 h1 h2 h3 h4 with
            | Some code =>
                if (code <? 256)%nat then cons_res (ascii_of_nat code) (parse_string_body s4)
                else None
            | None => None
            end
        | String e s'' =>
            match unescape e with
            | Some d => cons_res d (parse_string_body s'')
            | None => None
            end
        | EmptyString => None
        end
      else if (nat_of_ascii c <? 32)%nat then None
      else cons_res c (parse_string_body s')
  end.

Definition parse_fraction (s : string) : option (uint * string) :=
  match s with
  | String "." s' =>
      match read_digits s' with
      | (Nil, _) => None
      | (u, r) => Some (u, r)
      end
  | _ => Some (Nil, s)
  end.

(** The optional sign of an exponent. *)
Definition exp_sign (s : string) : bool * string :=
  match s with
  | String "-" s2 => (true, s2)
  | String "+" s2 => (false, s2)
  | _ => (false, s)
  end.

Definition parse_exponent (s : string) : option (Z * string) :=
  match s with
  | String c s' =>
      if (c =? "e")%char || (c =? "E")%char then
        let '(neg, s2) := exp_sign s' in
        match read_digits s2 with
        | (Nil, _) => None
        | (u, r) => Some (if neg then - uint_of_digits u else uint_of_digits u, r)
        end
      else Some (0, s)
  | EmptyString => Some (0, EmptyString)
  end.

(** The optional minus sign of a number. *)
Definition minus_sign (s : string) : bool * string :=
  match s with
  | String "-" s' => (true, s')
  | _ => (false, s)
  end.

(** The integer part of a number: [0], or a digit 1-9 and more digits. *)
Definition int_part (s1 : string) : option (uint * string) :=
  match s1 with
  | String "0" s2 => Some (D0 Nil, s2)
  | String c _ => if is_digit c then Some (read_digits s1) else None
  | EmptyString => None
  end.

(** A JSON number: [-]? (0 | [1-9][0-9]* ) (. [0-9]+)? ([eE] [+-]? [0-9]+)? *)
Definition parse_number (s : string) : option (jnum * string) :=
  let '(neg, s1) := minus_sign s in
  match int_part s1 with
  | None => None
  | Some (iu, s2) =>
      match parse_fraction s2 with
      | None => None
      | Some (fu, s3) =>
          match parse_exponent s3 with
          | None => None
          | Some (ex, s4) =>
              let mant := uint_of_digits (Decimal.app iu fu) in
              Some (dec_to_num (if neg then - mant else mant)
                      (ex - Z.of_nat (Decimal.nb_digits fu)), s4)
          end
      end
  end.

(** Assignment of a property: an existing key keeps its place, a new key
    goes last ([JSON.parse] keeps the last of duplicated keys). *)
Definition obj_set (fs : list (string * jvalue)) (k : string) (v : jvalue)
  : list (string * jvalue) :=
  if existsb (fun kv => String.eqb (fst kv) k) fs
  then map (fun kv => if String.eqb (fst kv) k then (k, v) else kv) fs
  else List.app fs [(k, v)].

(** Recursive descent with fuel: [parse_value] reads one value after
    optional whitespace; [parse_elems] the elements of an array after its
    [\[]; [parse_members] the members of an object after its [{]. *)
Fixpoint parse_value (n : nat) (s : string) {struct n} : option (jvalue * string) :=
  match n with
  | O => None
  | S n' =>
      match skip_ws s with
      | String "n" (String "u" (String "l" (String "l" r))) => Some (JNull, r)
      | String "t" (String "r" (String "u" (String "e" r))) => Some (JBool true, r)
      | String "f" (String "a" (String "l" (String "s" (String "e" r)))) => Some (JBool false, r)
      | String "[" r =>
          match skip_ws r with
          | String "]" r' => Some (JArr [], r')
          | r' => parse_elems n' r' []
          end
      | String "{" r =>
          match skip_ws r with
          | String "}" r' => Some (JObj [], r')
          | r' => parse_members n' r' []
          end
      | String c r as s' =>
          if (c =? dquote)%char then
            match parse_string_body r with
            | Some (str, r') => Some (JStr str, r')
            | None => None
            end
          else if (c =? "-")%char || is_digit c then
            match parse_number s' with
            | Some (x, r') => Some (JNum x, r')
            | None => None
            end
          else None
      | EmptyString => None
      end
  end
with parse_elems (n : nat) (s : string) (acc : list jvalue) {struct n}
  : option (jvalue * string) :=
  match n with
  | O => None
  | S n' =>
      match parse_value n' s with
      | None => None
      | Some (v, r) =>
          match skip_ws r with
          | String "," r' => parse_elems n' r' (List.app acc [v])
          | String "]" r' => Some (JArr (List.app acc [v]), r')
          | _ => None
          end
      end
  end
with parse_members (n : nat) (s : string) (acc : list (string * jvalue)) {struct n}
  : option (jvalue * string) :=
  match n with
  | O => None
  | S n' =>
      match skip_ws s with
      | String c r =>
          if (c =? dquote)%char then
            match parse_string_body r with
            | None => None
            | Some (k, r1) =>
                match skip_ws r1 with
                | String ":" r2 =>
                    match parse_value n' r2 with
                    | None => None
                    | Some (v, r3) =>
                        match skip_ws r3 with
                        | String "," r4 => parse_members n' r4 (obj_set acc k v)
                        | String "}" r4 => Some (JObj (obj_set acc k v), r4)
                        | _ => None
                        end
                    end
                | _ => None
                end
            end
          else None
      | EmptyString => None
      end
  end.

(** [JSON.parse]: one value, then only whitespace.  The fuel exceeds the
    nesting the text can hold. *)
Definition json_parse (s : string) : option jvalue :=
  match parse_value (2 * String.length s + 2) s with
  | Some (v, r) =>
      match skip_ws r with
      | EmptyString => Some v
      | _ => None
      end
  | None => None
  end.

(** ** [analysisText.match(/\{[\s\S]*\}/)] *)

(** The suffix of [s] from its first [{]. *)
Fixpoint from_first_open (s : string) : option string :=
  match s with
  | EmptyString => None
  | String c s' => if (c =? "{")%char then Some s else from_first_open s'
  end.

(** The longest prefix of [s] that ends with [}]. *)
Fixpoint upto_last_close (s : string) : option string :=
  match s with
  | EmptyString => None
  | String c s' =>
      match upto_last_close s' with
      | Some p => Some (String c p)
      | None => if (c =? "}")%char then Some (String c EmptyString) else None
      end
  end.

(** The leftmost match of the greedy pattern: from the first [{] to the
    last [}] after it. *)
Definition json_match (s : string) : option string :=
  match from_first_open s with
  | Some t => upto_last_close t
  | None => None
  end.

(** ** Numbers as the coverage code computes with them *)

Inductive xnum : Type :=
| XFin (q : Q)
| XInf (neg : bool)
| XNaN.

Definition num_to_x (n : jnum) : xnum :=
  match n with
  | NumFin m e => XFin (dec_to_Q m e)
  | NumInf b => XInf b
  | NumNaN => XNaN
  end.

(** The double nearest to the exact result of an operation on finite
    doubles. *)
Definition x_round (q : Q) : xnum := num_to_x (round_Q q).

Definition x_neg (a : xnum) : xnum :=
  match a with
  | XFin q => XFin (- q)
  | XInf b => XInf (negb b)
  | XNaN => XNaN
  end.

Definition x_add (a b : xnum) : xnum :=
  match a, b with
  | XNaN, _ | _, XNaN => XNaN
  | XInf s, XInf t => if Bool.eqb s t then XInf s else XNaN
  | XInf s, XFin _ | XFin _, XInf s => XInf s
  | XFin p, XFin q => x_round (p + q)
  end.

Definition x_sub (a b : xnum) : xnum := x_add a (x_neg b).

Definition x_mul (a b : xnum) : xnum :=
  match a, b with
  | XNaN, _ | _, XNaN => XNaN
  | XInf s, XInf t => XInf (xorb s t)
  | XInf s, XFin q | XFin q, XInf s =>
      if Qeq_bool q 0 then XNaN else XInf (xorb s ((Qnum q <? 0)))
  | XFin p, XFin q => x_round (p * q)
  end.

Definition x_div (a b : xnum) : xnum :=
  match a, b with
  | XNaN, _ | _, XNaN => XNaN
  | XInf _, XInf _ => XNaN
  | XInf s, XFin q => XInf (xorb s ((Qnum q <? 0)))
  | XFin _, XInf _ => XFin 0
  | XFin p, XFin q =>
      if Qeq_bool q 0 then (if Qeq_bool p 0 then XNaN else XInf ((Qnum p <? 0)))
      else x_round (p / q)
  end.

(** [a <= b] on numbers other than NaN. *)
Definition x_le (a b : xnum) : bool :=
  match a, b with
  | XInf true, _ => true
  | _, XInf false => true
  | XFin p, XFin q => Qle_bool p q
  | _, _ => false
  end.

(** [Math.min] and [Math.max] of two numbers. *)
Definition js_min (a b : xnum) : xnum :=
  match a, b with
  | XNaN, _ | _, XNaN => XNaN
  | _, _ => if x_le a b then a else b
  end.

Definition js_max (a b : xnum) : xnum :=
  match a, b with
  | XNaN, _ | _, XNaN => XNaN
  | _, _ => if x_le a b then b else a
  end.

(** [Math.round]: the nearest integer, halves upwards. *)
Definition js_round (a : xnum) : jnum :=
  match a with
  | XFin q => NumFin (Qfloor (q + (1 # 2))) 0
  | XInf b => NumInf b
  | XNaN => NumNaN
  end.

(** [x || 0] on a number. *)
Definition or_zero (a : xnum) : xnum :=
  match a with
  | XNaN => XFin 0
  | XFin q => if Qeq_bool q 0 then XFin 0 else a
  | XInf _ => a
  end.

(** ** [Number(v)] *)

(** JavaScript white space and line terminators below 0x100. *)
Definition js_space (c : ascii) : bool :=
  let n := nat_of_ascii c in
  ((9 <=? n)%nat && (n <=? 13)%nat) || (n =? 32)%nat || (n =? 160)%nat.

Fixpoint trim_start (s : string) : string :=
  match s with
  | String c s' => if js_space c then trim_start s' else s
  | EmptyString => EmptyString
  end.

Fixpoint trim_end (s : string) : string :=
  match s with
  | EmptyString => EmptyString
  | String c s' =>
      match trim_end s' with
      | EmptyString => if js_space c then EmptyString else String c EmptyString
      | t => String c t
      end
  end.

Definition digit_value (c : ascii) : option Z :=
  let n := nat_of_ascii c in
  if (48 <=? n)%nat && (n <=? 57)%nat then Some (Z.of_nat n - 48)
  else if (97 <=? n)%nat && (n <=? 122)%nat then Some (Z.of_nat n - 87)
  else if (65 <=? n)%nat && (n <=? 90)%nat then Some (Z.of_nat n - 55)
  else None.

Fixpoint radix_digits (b : Z) (s : string) (acc : Z) : option Z :=
  match s with
  | EmptyString => Some acc
  | String c s' =>
      match digit_value c with
      | Some d => if d <? b then radix_digits b s' (acc * b + d) else None
      | None => None
      end
  end.

Definition radix_of (c : ascii) : option Z :=
  if (c =? "x")%char || (c =? "X")%char then Some 16
  else if (c =? "o")%char || (c =? "O")%char then Some 8
  else if (c =? "b")%char || (c =? "B")%char then Some 2
  else None.

(** StrUnsignedDecimalLiteral after an optional sign: [Infinity], or
    digits with an optional fraction and exponent, at least one digit. *)
Definition str_decimal (neg : bool) (t : string) : xnum :=
  if String.eqb t "Infinity" then XInf neg
  else
    let '(iu, t2) := read_digits t in
    let '(fu, t3) :=
      match t2 with
      | String "." t' => read_digits t'
      | _ => (Nil, t2)
      end in
    match iu, fu with
    | Nil, Nil => XNaN
    | _, _ =>
        match parse_exponent t3 with
        | Some (ex, EmptyString) =>
            let mant := uint_of_digits (Decimal.app iu fu) in
            num_to_x (dec_to_num (if neg then - mant else mant)
                        (ex - Z.of_nat (Decimal.nb_digits fu)))
        | _ => XNaN
        end
    end.

(** StringToNumber. *)
Definition str_to_number (s : string) : xnum :=
  let t := trim_end (trim_start s) in
  match t with
  | EmptyString => XFin 0
  | String "0" (String x rest) =>
      match radix_of x with
      | Some b =>
          match rest with
          | EmptyString => XNaN
          | _ =>
              match radix_digits b rest 0 with
              | Some v => num_to_x (dec_to_num v 0)
              | None => XNaN
              end
          end
      | None => str_decimal false t
      end
  | String "-" t' => str_decimal true t'
  | String "+" t' => str_decimal false t'
  | _ => str_decimal false t
  end.

(** [String(n)] for a number (the exponent form reads back to the same
    number, which is all [Number] needs of it). *)
Definition number_to_string (n : jnum) : string :=
  match n with
  | NumFin _ _ => print_num n
  | NumInf false => "Infinity"
  | NumInf true => "-Infinity"
  | NumNaN => "NaN"
  end.

(** Whether an object has an own key [k]. *)
Definition has_key (k : string) (fs : list (string * jvalue)) : bool :=
  existsb (fun kv => String.eqb (fst kv) k) fs.

(** The text of an array element in [Array.prototype.join]: [null] gives
    the empty string.  An object converts through its [toString]: an own
    [toString] key holds a value from [JSON.parse], which is not callable,
    and the conversion throws a [TypeError] ([None]); otherwise
    [Object.prototype.toString] gives ["[object Object]"]. *)
Fixpoint join_text (v : jvalue) : option string :=
  match v with
  | JNull => Some EmptyString
  | JBool true => Some "true"
  | JBool false => Some "false"
  | JNum n => Some (number_to_string n)
  | JStr s => Some s
  | JArr l =>
      (fix join (first : bool) (l : list jvalue) : option string :=
         match l with
         | [] => Some EmptyString
         | x :: l' =>
             match join_text x, join false l' with
             | Some t, Some r => Some ((if first then EmptyString else ",") ++ t ++ r)
             | _, _ => None
             end
         end) true l
  | JObj fs => if has_key "toString" fs then None else Some "[object Object]"
  end.

(** [Number(v)]; [None] when it throws.  An array goes through its [join]
    text.  For an object, [valueOf] returns the object itself, so the
    conversion falls to [toString]: a [TypeError] when the object has an
    own [toString] key, and otherwise the text ["[object Object]"], which
    is NaN. *)
Definition to_number (v : jvalue) : option xnum :=
  match v with
  | JNull => Some (XFin 0)
  | JBool b => Some (XFin (if b then 1 else 0))
  | JNum n => Some (num_to_x n)
  | JStr s => Some (str_to_number s)
  | JArr _ => option_map str_to_number (join_text v)
  | JObj fs => if has_key "toString" fs then None else Some XNaN
  end.

(** ** The coverage derivation of [analyzeImage] *)

(** Own property of an object; the keys the code reads ([items], [label],
    [box_2d], the coverage fields) are no members of [Object.prototype]. *)
Definition lookup (k : string) (fs : list (string * jvalue)) : option jvalue :=
  match find (fun kv => String.eqb (fst kv) k) fs with
  | Some kv => Some (snd kv)
  | None => None
  end.

(** [v.k]: [None] is the TypeError of reading a property of [null],
    [Some None] is [undefined]. *)
Definition get_prop (v : jvalue) (k : string) : option (option jvalue) :=
  match v with
  | JNull => None
  | JObj fs => Some (lookup k fs)
  | _ => Some None
  end.

(** [areaOf] (lines 147-156); [None] is a [TypeError] thrown by one of
    the [Number] calls. *)
Definition areaOf (box : option jvalue) : option xnum :=
  match box with
  | Some (JArr [b0; b1; b2; b3]) =>
      match to_number b0, to_number b1, to_number b2, to_number b3 with
      | Some n0, Some n1, Some n2, Some n3 =>
          let coord n := js_max (XFin 0) (js_min (XFin 1000) (or_zero n)) in
          let ymin := coord n0 in
          let xmin := coord n1 in
          let ymax := coord n2 in
          let xmax := coord n3 in
          let w := js_max (XFin 0) (x_sub xmax xmin) in
          let h := js_max (XFin 0) (x_sub ymax ymin) in
          Some (x_div (x_mul w h) (x_mul (XFin 1000) (XFin 1000)))
      | _, _, _, _ => None
      end
  | _ => Some (XFin 0)
  end.

(** JavaScript truthiness of a property value ([None] is [undefined]). *)
Definition js_truthy (v : option jvalue) : bool :=
  match v with
  | None | Some JNull => false
  | Some (JBool b) => b
  | Some (JNum (NumFin m _)) => negb (m =? 0)
  | Some (JNum (NumInf _)) => true
  | Some (JNum NumNaN) => false
  | Some (JStr s) => negb (String.eqb s EmptyString)
  | Some (JArr _) | Some (JObj _) => true
  end.

(** [toLowerCase] on code units below 0x100. *)
Definition lower_char (c : ascii) : ascii :=
  let n := nat_of_ascii c in
  if ((65 <=? n)%nat && (n <=? 90)%nat)
     || ((192 <=? n)%nat && (n <=? 222)%nat && negb (n =? 215)%nat)
  then ascii_of_nat (n + 32) else c.

Fixpoint to_lower (s : string) : string :=
  match s with
  | EmptyString => EmptyString
  | String c s' => String (lower_char c) (to_lower s')
  end.

(** [s.includes(needle)]. *)
Fixpoint includes (s needle : string) : bool :=
  String.prefix needle s
  || match s with
     | EmptyString => false
     | String _ s' => includes s' needle
     end.

(** [(it.label || '').toLowerCase().includes(needle)]; [None] is a
    TypeError (no [label] of [null], or a truthy label that is not a
    string and has no [toLowerCase]). *)
Definition label_includes (needle : string) (it : jvalue) : option bool :=
  match get_prop it "label" with
  | None => None
  | Some lbl =>
      match (if js_truthy lbl then lbl else Some (JStr EmptyString)) with
      | Some (JStr s) => Some (includes (to_lower s) needle)
      | _ => None
      end
  end.

(** [items.filter(...)]. *)
Fixpoint filter_items (needle : string) (items : list jvalue) : option (list jvalue) :=
  match items with
  | [] => Some []
  | it :: rest =>
      match label_includes needle it, filter_items needle rest with
      | Some b, Some r => Some (if b then it :: r else r)
      | _, _ => None
      end
  end.

(** [.reduce((sum, it) => sum + areaOf(it.box_2d), 0)]. *)
Fixpoint sum_areas (acc : xnum) (items : list jvalue) : option xnum :=
  match items with
  | [] => Some acc
  | it :: rest =>
      match get_prop it "box_2d" with
      | Some box =>
          match areaOf box with
          | Some a => sum_areas (x_add acc a) rest
          | None => None
          end
      | None => None
      end
  end.

Definition matched_area (needle : string) (items : list jvalue) : option xnum :=
  match filter_items needle items with
  | Some m => sum_areas (XFin 0) m
  | None => None
  end.

(** [Math.round(Math.max(0, Math.min(100, area * 100)))]. *)
Definition coverage (area : xnum) : jnum :=
  js_round (js_max (XFin 0) (js_min (XFin 100) (x_mul area (XFin 100)))).

(** [v == null || Number.isNaN(v)]. *)
Definition missing_or_nan (v : option jvalue) : bool :=
  match v with
  | None | Some JNull | Some (JNum NumNaN) => true
  | _ => false
  end.

(** [v == null]. *)
Definition nullish (v : option jvalue) : bool :=
  match v with
  | None | Some JNull => true
  | _ => false
  end.

(** Lines 144-174; [None] is an exception thrown by the filters or by
    [areaOf]. *)
Definition derive (sd : jvalue) : option jvalue :=
  match sd with
  | JNull => None
  | JObj fs =>
      match lookup "items" fs with
      | Some (JArr items) =>
          match matched_area "weed" items, matched_area "crop" items with
          | Some weedArea, Some cropArea =>
              let fs1 := if missing_or_nan (lookup "weedCoverage" fs)
                         then obj_set fs "weedCoverage" (JNum (coverage weedArea)) else fs in
              let fs2 := if missing_or_nan (lookup "healthyCropCoverage" fs1)
                         then obj_set fs1 "healthyCropCoverage" (JNum (coverage cropArea))
                         else fs1 in
              let fs3 := if nullish (lookup "totalArea" fs2)
                         then obj_set fs2 "totalArea" (JNum (NumFin 100 0)) else fs2 in
              Some (JObj fs3)
          | _, _ => None
          end
      | _ => Some sd
      end
  | _ => Some sd
  end.

(** The object of lines 136-141. *)
Definition fallback : jvalue :=
  JObj [("items", JArr []);
        ("weedCoverage", JNum (NumFin 0 0));
        ("healthyCropCoverage", JNum (NumFin 100 0));
        ("recommendations", JArr [JStr "Unable to analyze image details"])].

(** Lines 130-142: [segmentationData] before the derivation; [None] is the
    exception of [JSON.parse]. *)
Definition segmentation_of (text : string) : option jvalue :=
  match json_match text with
  | Some span => json_parse span
  | None => Some fallback
  end.

(** Lines 130-174: the [segmentationData] that the worker stores. *)
Definition normalize (text : string) : option jvalue :=
  match segmentation_of text with
  | Some sd => derive sd
  | None => None
  end.

(** ** The [images] table and the worker *)

Inductive status : Type := Pending | Processing | Completed | Failed.

(** A row of [images]; [created_at] is the position in the table. *)
Record image_row : Type := mk_row {
  row_id : Z;
  row_user : Z;
  row_filename : string;
  row_path : string;
  row_analysis_result : option string;
  row_segmentation_data : option string;
  row_status : status
}.

(** The two [UPDATE] statements of [analyzeImage]. *)
Inductive db_write : Type :=
| WComplete (raw seg : string)   (* lines 176-179 *)
| WFailed.                       (* lines 183-186 *)

Definition write_row (w : db_write) (r : image_row) : image_row :=
  match w with
  | WComplete raw seg =>
      mk_row (row_id r) (row_user r) (row_filename r) (row_path r)
             (Some raw) (Some seg) Completed
  | WFailed =>
      mk_row (row_id r) (row_user r) (row_filename r) (row_path r)
             (row_analysis_result r) (row_segmentation_data r) Failed
  end.

(** [UPDATE images SET ... WHERE id = ?]. *)
Definition apply_write (id : Z) (w : db_write) (rows : list image_row) : list image_row :=
  map (fun r => if row_id r =? id then write_row w r else r) rows.

(** The outcomes of the effects of one run of [analyzeImage]:
    [fs.readFile], [ai.models.generateContent] ([None] when it throws,
    [Some None] when [response.text] is undefined), and the two updates. *)
Record worker_env : Type := mk_env {
  env_read_ok : bool;
  env_response : option (option string);
  env_complete_ok : bool;
  env_failed_ok : bool
}.

(** The writes that reach the table in one run of [analyzeImage]: the
    [catch] block issues the [failed] update, which may itself fail.  Such
    a rejection escapes [analyzeImage], whose promise nobody awaits: Node
    reports an unhandled rejection and, by default, ends the process.  The
    model lets the server run on; the runs it describes include every run
    of the real server up to such a crash. *)
Definition analyze_image (env : worker_env) : list db_write :=
  let fail := if env_failed_ok env then [WFailed] else [] in
  if negb (env_read_ok env) then fail
  else
    match env_response env with
    | None => fail
    | Some t =>
        let analysisText := match t with Some s => s | None => EmptyString end in
        match normalize analysisText with
        | None => fail
        | Some sd =>
            if env_complete_ok env then [WComplete analysisText (stringify sd)] else fail
        end
    end.

(** The server: the table, the AUTOINCREMENT counter, the uploaded files,
    the writes still to come from running workers, and the log of the
    worker writes applied so far (a ghost record of the history). *)
Record system : Type := mk_sys {
  sys_rows : list image_row;
  sys_next_id : Z;
  sys_files : list string;
  sys_workers : list (Z * list db_write);
  sys_log : list (Z * db_write)
}.

Definition init_system : system := mk_sys [] 1 [] [] [].

(** One file of [POST /upload] (lines 53-68): the row is inserted as
    [processing] and its worker is dispatched. *)
Definition upload (uid : Z) (fname path : string) (env : worker_env) (st : system) : system :=
  let id := sys_next_id st in
  mk_sys (List.app (sys_rows st) [mk_row id uid fname path None None Processing])
         (id + 1)
         (path :: sys_files st)
         ((id, analyze_image env) :: sys_workers st)
         (sys_log st).

(** [SELECT * FROM images WHERE id = ? AND user_id = ?]. *)
Definition db_get (id uid : Z) (rows : list image_row) : option image_row :=
  find (fun r => (row_id r =? id) && (row_user r =? uid)) rows.

(** The rows that [SELECT * FROM images WHERE user_id = ? ORDER BY
    created_at DESC] selects, in table order.  The order of the answer is
    not modelled: [created_at] has a resolution of one second, and rows
    inserted within the same second come in an order SQLite chooses. *)
Definition list_by_owner (uid : Z) (rows : list image_row) : list image_row :=
  filter (fun r => row_user r =? uid) rows.

Inductive response : Type := Ok200 | NotFound404 | Error500.

(** [DELETE /:id] (lines 233-255) when its database calls resolve;
    [unlinked] is the outcome of [fs.unlink], [None] when it rejects, which
    the [.catch] swallows. *)
Definition delete_route (uid id : Z) (unlinked : option (list string)) (st : system)
  : response * system :=
  match db_get id uid (sys_rows st) with
  | None => (NotFound404, st)
  | Some _ =>
      let files := match unlinked with Some f => f | None => sys_files st end in
      (Ok200, mk_sys (filter (fun r => negb (row_id r =? id)) (sys_rows st))
                     (sys_next_id st) files (sys_workers st) (sys_log st))
  end.

(** [DELETE /:id] with the outcomes of its two database calls: [get_ok]
    is [false] when [db.get] rejects, [run_ok] when the [DELETE] rejects.
    Either rejection lands in the [catch] and answers 500; the second one
    comes after the file has been unlinked. *)
Definition delete_route_db (get_ok run_ok : bool) (uid id : Z)
  (unlinked : option (list string)) (st : system) : response * system :=
  if negb get_ok then (Error500, st)
  else
    match db_get id uid (sys_rows st) with
    | None => (NotFound404, st)
    | Some _ =>
        if run_ok then delete_route uid id unlinked st
        else
          let files := match unlinked with Some f => f | None => sys_files st end in
          (Error500, mk_sys (sys_rows st) (sys_next_id st) files (sys_workers st) (sys_log st))
    end.

Inductive step : system -> system -> Prop :=
| step_upload uid fname path env st :
    step st (upload uid fname path env st)
| step_write st pre i w ws post :
    sys_workers st = List.app pre ((i, w :: ws) :: post) ->
    step st (mk_sys (apply_write i w (sys_rows st)) (sys_next_id st) (sys_files st)
                    (List.app pre ((i, ws) :: post)) ((i, w) :: sys_log st))
| step_delete get_ok run_ok uid id unlinked st :
    step st (snd (delete_route_db get_ok run_ok uid id unlinked st)).

Inductive steps : system -> system -> Prop :=
| steps_refl st : steps st st
| steps_cons st1 st2 st3 : step st1 st2 -> steps st2 st3 -> steps st1 st3.

Definition reachable (st : system) : Prop := steps init_system st.

(** ** Reference definitions for the properties below *)

(** A field of the stored analysis object. *)
Definition field (k : string) (v : jvalue) : option jvalue :=
  match v with
  | JObj fs => lookup k fs
  | _ => None
  end.

Definition qmax (a b : Q) : Q := if Qle_bool a b then b else a.
Definition qmin (a b : Q) : Q := if Qle_bool a b then a else b.

(** The bounding-box area in the words of the design: each coordinate
    clamped into [0,1000], width and height cut at 0, area over 10^6. *)
Definition clamp_coord (x : xnum) : Q :=
  match or_zero x with
  | XFin q => qmax 0 (qmin 1000 q)
  | XInf false => 1000
  | XInf true | XNaN => 0
  end.

Definition box_area (ymin xmin ymax xmax : Q) : Q :=
  qmax 0 (xmax - xmin) * qmax 0 (ymax - ymin) / 1000000.

(** The label of an item as the coverage aggregation reads it. *)
Definition item_label (it : jvalue) : string :=
  match it with
  | JObj fs => match lookup "label" fs with Some (JStr s) => s | _ => EmptyString end
  | _ => EmptyString
  end.

(** The exact area of the box of an item (0 when it has none, or when a
    coordinate cannot be converted). *)
Definition item_exact_area (it : jvalue) : Q :=
  match it with
  | JObj fs =>
      match lookup "box_2d" fs with
      | Some (JArr [b0; b1; b2; b3]) =>
          match to_number b0, to_number b1, to_number b2, to_number b3 with
          | Some n0, Some n1, Some n2, Some n3 =>
              box_area (clamp_coord n0) (clamp_coord n1) (clamp_coord n2) (clamp_coord n3)
          | _, _, _, _ => 0
          end
      | _ => 0
      end
  | _ => 0
  end.

(** The aggregate coverage of the design: the areas of the items whose
    label contains [needle] case-insensitively, summed, times 100, clamped
    into [0,100], rounded to the nearest integer, in exact arithmetic. *)
Fixpoint label_area_sum (needle : string) (items : list jvalue) : Q :=
  match items with
  | [] => 0
  | it :: rest =>
      (if includes (to_lower (item_label it)) needle then item_exact_area it else 0)
      + label_area_sum needle rest
  end.

Definition aggregate_coverage (needle : string) (items : list jvalue) : Z :=
  Qfloor (qmax 0 (qmin 100 (100 * label_area_sum needle items)) + (1 # 2)).

(** The area of an item as [areaOf] computes it in doubles (NaN stands
    for a box whose conversion throws). *)
Definition item_area (it : jvalue) : xnum :=
  match it with
  | JObj fs => match areaOf (lookup "box_2d" fs) with Some a => a | None => XNaN end
  | _ => XFin 0
  end.

(** The same aggregation in double arithmetic: the matching areas added
    from left to right, each sum rounded. *)
Fixpoint label_area_dsum (needle : string) (acc : xnum) (items : list jvalue) : xnum :=
  match items with
  | [] => acc
  | it :: rest =>
      label_area_dsum needle
        (if includes (to_lower (item_label it)) needle then x_add acc (item_area it) else acc)
        rest
  end.

(** The aggregate coverage of the double sum: times 100 (rounded), clamped
    into [0,100], rounded to the nearest integer. *)
Definition aggregate_coverage_dbl (needle : string) (items : list jvalue) : jnum :=
  match x_mul (label_area_dsum needle (XFin 0) items) (XFin 100) with
  | XFin q => NumFin (Qfloor (qmax 0 (qmin 100 q) + (1 # 2))) 0
  | XInf false => NumFin 100 0
  | XInf true => NumFin 0 0
  | XNaN => NumNaN
  end.

(** Every number of a value is finite (no Infinity and no NaN). *)
Fixpoint finite_nums (v : jvalue) : bool :=
  match v with
  | JNum (NumFin _ _) => true
  | JNum _ => false
  | JArr l =>
      (fix all (l : list jvalue) : bool :=
         match l with [] => true | x :: l' => finite_nums x && all l' end) l
  | JObj fs =>
      (fix all (fs : list (string * jvalue)) : bool :=
         match fs with [] => true | (_, x) :: fs' => finite_nums x && all fs' end) fs
  | _ => true
  end.

(** Every finite number of a value is a double: the literal of its exact
    decimal reads back to itself. *)
Fixpoint dbl_nums (v : jvalue) : bool :=
  match v with
  | JNum (NumFin m e) =>
      match dec_to_num m e with
      | NumFin m' e' => (m' =? m) && (e' =? e)
      | _ => false
      end
  | JArr l =>
      (fix all (l : list jvalue) : bool :=
         match l with [] => true | x :: l' => dbl_nums x && all l' end) l
  | JObj fs =>
      (fix all (fs : list (string * jvalue)) : bool :=
         match fs with [] => true | (_, x) :: fs' => dbl_nums x && all fs' end) fs
  | _ => true
  end.

(** The terminal statuses. *)
Definition terminal (s : status) : bool :=
  match s with Completed | Failed => true | Pending | Processing => false end.

(** Worker writes applied to row [id] so far. *)
Definition log_count (id : Z) (log : list (Z * db_write)) : nat :=
  length (filter (fun p => fst p =? id) log).

(** Worker writes still to come for row [id]. *)
Fixpoint pending (id : Z) (ws : list (Z * list db_write)) : nat :=
  match ws with
  | [] => O
  | (i, l) :: ws' => Nat.add (if i =? id then length l else O) (pending id ws')
  end.

(** A short way to write a JSON string literal in the examples. *)
Definition jq (s : string) : string := String dquote (s ++ String dquote EmptyString).

(** What holds of every row: the analysis columns are set exactly when the
    row is [completed], the row is [processing] or terminal, and a
    terminal row received exactly one worker write and expects none. *)
Definition row_ok (log : list (Z * db_write)) (workers : list (Z * list db_write))
  (r : image_row) : Prop :=
  (row_segmentation_data r <> None <-> row_status r = Completed) /\
  (row_analysis_result r <> None <-> row_status r = Completed) /\
  (row_status r = Processing \/ terminal (row_status r) = true) /\
  (row_status r = Processing -> log_count (row_id r) log = O) /\
  (terminal (row_status r) = true ->
     log_count (row_id r) log = 1%nat /\ pending (row_id r) workers = O).

Definition sys_inv (st : system) : Prop :=
  Forall (row_ok (sys_log st) (sys_workers st)) (sys_rows st) /\
  Forall (fun r => row_id r < sys_next_id st) (sys_rows st) /\
  Forall (fun p => fst p < sys_next_id st) (sys_workers st) /\
  Forall (fun p => fst p < sys_next_id st) (sys_log st) /\
  (forall id, (pending id (sys_workers st) <= 1)%nat).

(** The first pending write of the first worker, applied. *)
Definition run_first_write (st : system) : system :=
  match sys_workers st with
  | (i, w :: ws) :: post =>
      mk_sys (apply_write i w (sys_rows st)) (sys_next_id st) (sys_files st)
             ((i, ws) :: post) ((i, w) :: sys_log st)
  | _ => st
  end.

(** A run used by the examples: user 7 uploads one file, the model
    answers with text holding no JSON, every effect succeeds. *)
Definition demo_env : worker_env := mk_env true (Some (Some "not json at all")) true true.

Definition demo_uploaded : system :=
  upload 7 "field.jpg" "uploads/image-1.jpg" demo_env init_system.

Definition demo_analysed : system := run_first_write demo_uploaded.

(** The elements of an array and the members of an object as [stringify]
    writes them. *)
Fixpoint elems_text (first : bool) (l : list jvalue) : string :=
  match l with
  | [] => EmptyString
  | x :: l' => (if first then EmptyString else ",") ++ stringify x ++ elems_text false l'
  end.

Fixpoint mems_text (first : bool) (fs : list (string * jvalue)) : string :=
  match fs with
  | [] => EmptyString
  | (k, x) :: fs' =>
      (if first then EmptyString else ",") ++ quote k ++ ":" ++ stringify x
      ++ mems_text false fs'
  end.

(** The nesting measure that bounds the fuel the parser needs. *)
Fixpoint jsize (v : jvalue) : nat :=
  match v with
  | JArr l =>
      S ((fix go (l : list jvalue) : nat :=
            match l with [] => O | x :: l' => S (jsize x) + go l' end)%nat l)
  | JObj fs =>
      S ((fix go (fs : list (string * jvalue)) : nat :=
            match fs with [] => O | (_, x) :: fs' => S (jsize x) + go fs' end)%nat fs)
  | _ => 1%nat
  end.

(** The measure of the elements of an array and of the members of an
    object. *)
Fixpoint elems_size (l : list jvalue) : nat :=
  match l with [] => O | x :: l' => (S (jsize x) + elems_size l')%nat end.

Fixpoint mems_size (fs : list (string * jvalue)) : nat :=
  match fs with [] => O | (_, x) :: fs' => (S (jsize x) + mems_size fs')%nat end.

(** No key occurs twice. *)
Fixpoint distinct_keys (ks : list string) : bool :=
  match ks with
  | [] => true
  | k :: ks' => negb (existsb (String.eqb k) ks') && distinct_keys ks'
  end.

(** Every object of a value has distinct keys, as every JavaScript object. *)
Fixpoint wf_json (v : jvalue) : bool :=
  match v with
  | JArr l =>
      (fix all (l : list jvalue) : bool :=
         match l with [] => true | x :: l' => wf_json x && all l' end) l
  | JObj fs =>
      distinct_keys (map fst fs) &&
      (fix all (fs : list (string * jvalue)) : bool :=
         match fs with [] => true | (_, x) :: fs' => wf_json x && all fs' end) fs
  | _ => true
  end.

(** What may follow a value inside a JSON text: nothing, or the comma or
    closing bracket of its array or object. *)
Definition ends_value (s : string) : Prop :=
  match s with
  | EmptyString => True
  | String c _ => c = ","%char \/ c = "]"%char \/ c = "}"%char
  end.

(** A text that does not continue a run of digits. *)
Definition no_digit_head (s : string) : Prop :=
  match s with
  | EmptyString => True
  | String c _ => digit_cons c = None
  end.

(** An item labelled "Weed patch" with the box [100,100,300,300], and a
    model answer holding it. *)
Definition weed_patch_item : jvalue :=
  JObj [("label", JStr "Weed patch");
        ("box_2d", JArr [JNum (NumFin 100 0); JNum (NumFin 100 0);
                         JNum (NumFin 300 0); JNum (NumFin 300 0)])].

Definition weed_patch_text : string :=
  "Here it is: {" ++ jq "items" ++ ":[{" ++ jq "label" ++ ":" ++ jq "Weed patch" ++ ","
  ++ jq "box_2d" ++ ":[100,100,300,300]}]}".

Definition weed_patch_result : jvalue :=
  match normalize weed_patch_text with Some r => r | None => JNull end.

(** A weed box of 1000 by 145: 14.5% of the image. *)
Definition strip_item : jvalue :=
  JObj [("label", JStr "weed");
        ("box_2d", JArr [JNum (NumFin 0 0); JNum (NumFin 0 0);
                         JNum (NumFin 1000 0); JNum (NumFin 145 0)])].

Definition strip_text : string :=
  "{" ++ jq "items" ++ ":[{" ++ jq "label" ++ ":" ++ jq "weed" ++ ","
  ++ jq "box_2d" ++ ":[0,0,1000,145]}]}".

(** Model answers used by the examples below. *)
Definition braces_text : string := "Result: {oops}".

Definition big_weed_text : string := "{" ++ jq "items" ++ ":[]," ++ jq "weedCoverage" ++ ":250}".

Definition crop_only_text : string := "{" ++ jq "healthyCropCoverage" ++ ":60}".

Definition huge_weed_text : string := "{" ++ jq "items" ++ ":[]," ++ jq "weedCoverage" ++ ":1e400}".

Definition huge_weed_result : jvalue :=
  match normalize huge_weed_text with Some r => r | None => JNull end.

(** ** The read routes, the upload route and [verifyToken] *)

(** Node's [path.basename] (POSIX, no suffix): the loop of its source from
    the last index down, with [end_] [None] while the source's [end] is -1. *)
Fixpoint basename_loop (p : string) (i : nat) (end_ : option nat) (matchedSlash : bool)
  : nat * option nat :=
  match i with
  | O => (O, end_)
  | S j =>
      match String.get j p with
      | Some "/"%char =>
          if negb matchedSlash then (S j, end_) else basename_loop p j end_ matchedSlash
      | _ =>
          match end_ with
          | None => basename_loop p j (Some (S j)) false
          | Some _ => basename_loop p j end_ matchedSlash
          end
      end
  end.

Definition basename (p : string) : string :=
  let '(start, e) := basename_loop p (String.length p) None true in
  match e with
  | None => EmptyString
  | Some e => substring start (e - start) p
  end.

(** [img.segmentation_data ? JSON.parse(img.segmentation_data) : null];
    [None] is the exception of [JSON.parse]. *)
Definition seg_view (o : option string) : option jvalue :=
  match o with
  | None | Some EmptyString => Some JNull
  | Some s => json_parse s
  end.

(** A row as the read routes answer it: its columns, [segmentationData]
    and [path]. *)
Record image_view : Type := mk_view {
  view_row : image_row;
  view_segmentationData : jvalue;
  view_path : string
}.

(** Lines 199-203 and 224-225. *)
Definition view_of (r : image_row) : option image_view :=
  match seg_view (row_segmentation_data r) with
  | Some sd => Some (mk_view r sd ("/uploads/" ++ basename (row_path r)))
  | None => None
  end.

(** [images.map(...)]: one exception fails the whole map. *)
Fixpoint views_of (rows : list image_row) : option (list image_view) :=
  match rows with
  | [] => Some []
  | r :: rs =>
      match view_of r, views_of rs with
      | Some v, Some vs => Some (v :: vs)
      | _, _ => None
      end
  end.

Inductive list_response : Type :=
| ListOk (images : list image_view)
| ListError500.

(** [GET /] (lines 191-209), given the answer of [db.all]: [None] when
    it rejects, else the selected rows in the order SQLite returns them. *)
Definition list_route (query : option (list image_row)) : list_response :=
  match query with
  | None => ListError500
  | Some images =>
      match views_of images with
      | Some vs => ListOk vs
      | None => ListError500
      end
  end.

Inductive get_response : Type :=
| GetOk (image : image_view)
| GetNotFound404
| GetError500.

(** [GET /:id] (lines 212-230) when [db.get] resolves. *)
Definition get_route (uid id : Z) (rows : list image_row) : get_response :=
  match db_get id uid rows with
  | None => GetNotFound404
  | Some r =>
      match view_of r with
      | Some v => GetOk v
      | None => GetError500
      end
  end.

(** [GET /:id] with the outcome of [db.get]: when it rejects ([false]),
    the [catch] answers 500. *)
Definition get_route_db (get_ok : bool) (uid id : Z) (rows : list image_row) : get_response :=
  if get_ok then get_route uid id rows else GetError500.

(** A file of [req.files] as multer hands it over. *)
Record up_file : Type := mk_file {
  file_originalname : string;
  file_filename : string;
  file_path : string
}.

(** An element of [uploadedImages] (lines 59-64). *)
Record uploaded_image : Type := mk_uploaded {
  up_id : Z;
  up_filename : string;
  up_originalName : string;
  up_path : string
}.

Inductive upload_response : Type :=
| UploadOk (images : list uploaded_image)
| UploadBadRequest400
| UploadError500.

(** The loop of lines 53-68: each file comes with the outcome of its
    [INSERT] ([false] when [db.run] rejects, which ends the loop in the
    [catch]) and the environment of the worker it dispatches.  The loop
    only appends rows and advances the id counter; the writes of workers
    that land between its [await]s are [step_write] steps of the relation
    above and touch neither. *)
Fixpoint upload_files (uid : Z) (files : list (up_file * bool * worker_env)) (st : system)
  : option (list uploaded_image) * system :=
  match files with
  | [] => (Some [], st)
  | (f, inserted, env) :: rest =>
      if inserted then
        let id := sys_next_id st in
        let '(res, st') :=
          upload_files uid rest (upload uid (file_originalname f) (file_path f) env st) in
        (option_map (cons (mk_uploaded id (file_filename f) (file_originalname f)
                                       ("/uploads/" ++ file_filename f))) res, st')
      else (None, st)
  end.

(** [POST /upload] (lines 44-74). *)
Definition upload_route (uid : Z) (files : list (up_file * bool * worker_env)) (st : system)
  : upload_response * system :=
  match files with
  | [] => (UploadBadRequest400, st)
  | _ :: _ =>
      match upload_files uid files st with
      | (Some imgs, st') => (UploadOk imgs, st')
      | (None, st') => (UploadError500, st')
      end
  end.

(** Whether [c] occurs in [s]. *)
Fixpoint has_char (c : ascii) (s : string) : bool :=
  match s with
  | EmptyString => false
  | String c' s' => (c' =? c)%char || has_char c s'
  end.

(** [s.split(' ')]. *)
Fixpoint split_space (s : string) : list string :=
  match s with
  | EmptyString => [EmptyString]
  | String c s' =>
      let parts := split_space s' in
      if (c =? " ")%char then EmptyString :: parts
      else match parts with
           | w :: ws => String c w :: ws
           | [] => [String c EmptyString]
           end
  end.

Inductive auth_result : Type :=
| AuthOk (uid : Z)
| AuthNoToken401
| AuthInvalid401.

(** [verifyToken] (auth.js, lines 73-87), which guards every image route;
    [verify] is [jwt.verify] with the server's secret: [None] when it
    throws, else the [id] of the decoded user. *)
Definition verify_token (verify : string -> option Z) (authorization : option string)
  : auth_result :=
  let token := match authorization with
               | Some h => nth_error (split_space h) 1
               | None => None
               end in
  match token with
  | None | Some EmptyString => AuthNoToken401
  | Some t =>
      match verify t with
      | Some uid => AuthOk uid
      | None => AuthInvalid401
      end
  end.


(** A [box_2d] that [areaOf] throws on: an array of four elements one of
    which [Number] throws on. *)
Definition bad_box (box : option jvalue) : bool :=
  match box with
  | Some (JArr [b0; b1; b2; b3]) =>
      existsb (fun b => match to_number b with None => true | Some _ => false end)
              [b0; b1; b2; b3]
  | _ => false
  end.


(** What [JSON.parse] gives back for the text [JSON.stringify] writes: a
    non-finite number comes back as [null], a finite one as the double
    nearest to its decimal (itself, for a double). *)
Fixpoint canon (v : jvalue) : jvalue :=
  match v with
  | JNum (NumFin m e) => JNum (dec_to_num m e)
  | JNum _ => JNull
  | JArr l => JArr (map canon l)
  | JObj fs => JObj (map (fun kv => (fst kv, canon (snd kv))) fs)
  | _ => v
  end.

(** A pair of [analysis_result] and [segmentation_data] as the worker
    writes them: the text of the model and the [stringify] of its
    normalization. *)
Definition stored_pair (raw s : string) : Prop :=
  exists sd, normalize raw = Some sd /\ s = stringify sd.

Definition seg_inv (st : system) : Prop :=
  Forall (fun r => forall s, row_segmentation_data r = Some s ->
            exists raw, row_analysis_result r = Some raw /\ stored_pair raw s) (sys_rows st) /\
  Forall (fun p => Forall (fun w => forall raw s, w = WComplete raw s -> stored_pair raw s)
                          (snd p)) (sys_workers st).

(** The test [char === "/"] of the [path] functions. *)
Definition is_slash (o : option ascii) : bool :=
  match o with Some c => (c =? "/")%char | None => false end.

(** What the read routes rely on in a row: a stored [segmentation_data]
    comes with the [analysis_result] it was normalized from. *)
Definition row_stored (r : image_row) : Prop :=
  forall s, row_segmentation_data r = Some s ->
  exists raw, row_analysis_result r = Some raw /\ stored_pair raw s.

(** A view as the read routes answer it: [path] is [/uploads/] and the
    base name of the stored path, and [segmentationData] is [null] for a
    row without analysis, else the normalization of [analysis_result] with
    its non-finite numbers read back as [null]. *)
Definition served (v : image_view) : Prop :=
  view_path v = "/uploads/" ++ basename (row_path (view_row v)) /\
  ((row_segmentation_data (view_row v) = None /\ view_segmentationData v = JNull) \/
   exists raw sd, row_analysis_result (view_row v) = Some raw /\ normalize raw = Some sd /\
                  view_segmentationData v = canon sd).

(** The test [char === "."] of [path.extname]. *)
Definition is_dot (o : option ascii) : bool :=
  match o with Some c => (c =? ".")%char | None => false end.

(** Node's [path.extname] (POSIX): the loop from the end of the path,
    returning [startDot], [startPart], [end] and [preDotState]. *)
Fixpoint extname_loop (p : string) (i : nat) (startDot : option nat) (end_ : option nat)
  (matchedSlash : bool) (preDotState : Z) : option nat * nat * option nat * Z :=
  match i with
  | O => (startDot, O, end_, preDotState)
  | S j =>
      if is_slash (String.get j p) then
        if negb matchedSlash then (startDot, S j, end_, preDotState)
        else extname_loop p j startDot end_ matchedSlash preDotState
      else
        let '(end1, matchedSlash1) :=
          match end_ with
          | None => (Some (S j), false)
          | Some _ => (end_, matchedSlash)
          end in
        if is_dot (String.get j p) then
          match startDot with
          | None => extname_loop p j (Some j) end1 matchedSlash1 preDotState
          | Some _ =>
              extname_loop p j startDot end1 matchedSlash1
                           (if negb (preDotState =? 1) then 1 else preDotState)
          end
        else
          match startDot with
          | None => extname_loop p j startDot end1 matchedSlash1 preDotState
          | Some _ => extname_loop p j startDot end1 matchedSlash1 (-1)
          end
  end.

(** [path.extname]: from the last [.] of the last segment to its end, or
    the empty string when that segment has no dot other than a leading one. *)
Definition extname (p : string) : string :=
  let '(startDot, startPart, end_, preDotState) :=
    extname_loop p (String.length p) None None true 0 in
  match startDot, end_ with
  | Some sd, Some e =>
      if (preDotState =? 0) ||
         ((preDotState =? 1) && Nat.eqb sd (e - 1) && Nat.eqb sd (startPart + 1))
      then EmptyString
      else substring sd (e - sd) p
  | _, _ => EmptyString
  end.

(** [Date.now() + '-' + Math.round(Math.random() * 1e9)] (images.js line 23)
    for the integers [now] and [rnd]. *)
Definition unique_suffix (now rnd : Z) : string := print_Z now ++ "-" ++ print_Z rnd.

(** The [filename] callback of the disk storage (images.js lines 22-25). *)
Definition multer_filename (now rnd : Z) (originalname : string) : string :=
  ("image-" ++ unique_suffix now rnd) ++ extname originalname.

(** The [mimeType] the worker sends with the image (images.js lines 86-87). *)
Definition mime_type (imagePath : string) : string :=
  let ext := to_lower (extname imagePath) in
  if String.eqb ext ".png" then "image/png"
  else if String.eqb ext ".webp" then "image/webp"
  else "image/jpeg".

(** Position [k] of [p] holds neither [/] nor [.]. *)
Definition plain (p : string) (k : nat) : Prop :=
  is_slash (String.get k p) = false /\ is_dot (String.get k p) = false.

(** What holds of the state of [extname_loop] when it reaches position
    [i]. *)
Definition ext_state (p : string) (i : nat) (sd e : option nat) (m : bool) : Prop :=
  match e with
  | None => sd = None /\ m = true
  | Some e =>
      m = false /\ (i < e <= String.length p)%nat /\
      (forall k, (i <= k < e)%nat -> is_slash (String.get k p) = false) /\
      match sd with
      | None => forall k, (i <= k < e)%nat -> is_dot (String.get k p) = false
      | Some s => (i <= s < e)%nat /\ is_dot (String.get s p) = true /\
                  forall k, (s < k < e)%nat -> is_dot (String.get k p) = false
      end
  end.

(** What holds of the result of [extname_loop]: the extension runs from a
    dot to [end] with no other dot and no [/]. *)
Definition ext_result (p : string) (r : option nat * nat * option nat * Z) : Prop :=
  match r with
  | (Some s, _, Some e, _) =>
      (s < e <= String.length p)%nat /\ is_dot (String.get s p) = true /\
      forall k, (s < k < e)%nat -> is_dot (String.get k p) = false /\ is_slash (String.get k p) = false
  | _ => True
  end.

(** * Properties *)

(** ** Rounding to doubles *)

Lemma div_round_even_cases (n d : Z) : 0 < d ->
  div_round_even n d = n / d \/ div_round_even n d = n / d + 1.
Proof.
  intros Hd. unfold div_round_even.
  destruct (Z.compare _ _); [destruct (Z.even _)|..]; auto.
Qed.

Lemma div_round_even_nonneg (n d : Z) : 0 <= n -> 0 < d -> 0 <= div_round_even n d.
Proof.
  intros Hn Hd. pose proof (Z.div_pos n d Hn Hd).
  destruct (div_round_even_cases n d Hd) as [->| ->]; lia.
Qed.

Lemma div_round_even_le (n d K : Z) : 0 < d -> n <= K * d -> div_round_even n d <= K.
Proof.
  intros Hd Hn. assert (Hq : n / d <= K) by (apply Z.div_le_upper_bound; lia).
  destruct (Z.eq_dec (n / d) K) as [Hk|Hk].
  - assert (Hm : n mod d = 0).
    { pose proof (Z.div_mod n d ltac:(lia)). pose proof (Z.mod_pos_bound n d Hd). nia. }
    unfold div_round_even. rewrite Hm, Z.mul_0_r.
    destruct d; try lia. simpl. lia.
  - destruct (div_round_even_cases n d Hd) as [->| ->]; lia.
Qed.

Lemma div_round_even_exact (n d K : Z) : 0 < d -> n = K * d -> div_round_even n d = K.
Proof.
  intros Hd ->. unfold div_round_even. rewrite Z.mod_mul, Z.div_mul by lia.
  destruct d; try lia. reflexivity.
Qed.

Lemma div_round_even_scale (n d k : Z) : 0 < d -> 0 < k ->
  div_round_even (n * k) (d * k) = div_round_even n d.
Proof.
  intros Hd Hk. unfold div_round_even.
  rewrite Z.div_mul_cancel_r, Z.mul_mod_distr_r by lia.
  replace (2 * (n mod d * k)) with (2 * (n mod d) * k) by ring.
  replace (Z.compare (2 * (n mod d) * k) (d * k)) with (Z.compare (2 * (n mod d)) d);
    [reflexivity|].
  destruct (Z.compare_spec (2 * (n mod d)) d); symmetry;
    [apply Z.compare_eq_iff | apply Z.compare_lt_iff | apply Z.compare_gt_iff]; nia.
Qed.

Lemma round_pos_scale (n d k : Z) : 0 < d -> 0 < k -> round_pos (n * k) (d * k) = round_pos n d.
Proof.
  intros Hd Hk. unfold round_pos.
  replace (n * k * 2 ^ 1074) with (n * 2 ^ 1074 * k) by ring.
  rewrite Z.div_mul_cancel_r by lia.
  replace (d * k * 2 ^ Z.max (Z.log2 (n * 2 ^ 1074 / d) - 52) 0)
    with (d * 2 ^ Z.max (Z.log2 (n * 2 ^ 1074 / d) - 52) 0 * k) by ring.
  rewrite div_round_even_scale; [reflexivity| |lia].
  pose proof (Z.pow_pos_nonneg 2 (Z.max (Z.log2 (n * 2 ^ 1074 / d) - 52) 0)). lia.
Qed.

Lemma pow2_pos (k : Z) : 0 <= k -> 0 < 2 ^ k.
Proof. intros Hk. apply Z.pow_pos_nonneg; lia. Qed.

Lemma round_pos_below (n d : Z) : 0 <= n -> 0 < d ->
  let s := Z.max (Z.log2 (n * 2 ^ 1074 / d) - 52) 0 in
  n * 2 ^ 1074 <= 2 ^ 53 * (d * 2 ^ s).
Proof.
  intros Hn Hd s. set (t := n * 2 ^ 1074) in *.
  assert (Ht : 0 <= t) by (unfold t; pose proof (pow2_pos 1074 ltac:(lia)); lia).
  pose proof (Z.div_mod t d ltac:(lia)) as Hdm. pose proof (Z.mod_pos_bound t d Hd).
  assert (Hs : 0 <= s) by lia.
  pose proof (pow2_pos s ltac:(lia)).
  destruct (Z.eq_dec (t / d) 0) as [Hz|Hz].
  - assert (1 <= 2 ^ 53 * 2 ^ s) by (assert (0 < 2 ^ 53) by reflexivity; nia). nia.
  - assert (Hq : 0 < t / d) by (pose proof (Z.div_pos t d Ht Hd); lia).
    destruct (Z.log2_spec (t / d) Hq) as [_ Hup].
    assert (Hle : 2 ^ Z.succ (Z.log2 (t / d)) <= 2 ^ 53 * 2 ^ s).
    { rewrite <- Z.pow_add_r by lia. apply Z.pow_le_mono_r; lia. }
    nia.
Qed.

Lemma round_pos_mant (n d m e : Z) : 0 <= n -> 0 < d -> round_pos n d = Some (m, e) ->
  0 <= m <= 2 ^ 53 /\ -1074 <= e /\ m * 2 ^ (e + 1074) < 2 ^ 2098.
Proof.
  intros Hn Hd. pose proof (round_pos_below n d Hn Hd) as Hb. unfold round_pos.
  set (s := Z.max (Z.log2 (n * 2 ^ 1074 / d) - 52) 0) in *.
  assert (Hs : 0 <= s) by lia. pose proof (pow2_pos s ltac:(lia)).
  assert (Ht : 0 <= n * 2 ^ 1074) by (pose proof (pow2_pos 1074 ltac:(lia)); lia).
  destruct (Z.leb_spec (2 ^ 2098) (div_round_even (n * 2 ^ 1074) (d * 2 ^ s) * 2 ^ s));
    [discriminate|]. intros E. injection E as <- <-.
  replace (s - 1074 + 1074) with s by ring.
  split; [|split; [lia|assumption]]. split; [apply div_round_even_nonneg; [exact Ht|nia]|].
  apply div_round_even_le; [nia|exact Hb].
Qed.

Lemma round_pos_exact (n d M k : Z) : 0 < d -> 0 < M < 2 ^ 53 -> 0 <= k ->
  M * 2 ^ k < 2 ^ 2098 -> n * 2 ^ 1074 = d * (M * 2 ^ k) ->
  exists m e, round_pos n d = Some (m, e) /\ -1074 <= e /\ m * 2 ^ (e + 1074) = M * 2 ^ k.
Proof.
  intros Hd HM Hk Hov Hn. unfold round_pos.
  rewrite Hn. replace (d * (M * 2 ^ k) / d) with (M * 2 ^ k)
    by (rewrite (Z.mul_comm d), Z.div_mul; lia).
  assert (Hl : Z.log2 (M * 2 ^ k) = k + Z.log2 M) by (apply Z.log2_mul_pow2; lia).
  assert (HlM : Z.log2 M < 53) by (apply Z.log2_lt_pow2; lia).
  pose proof (Z.log2_nonneg M).
  rewrite Hl. set (s := Z.max (k + Z.log2 M - 52) 0).
  assert (Hs : 0 <= s <= k) by lia.
  assert (Hks : 2 ^ k = 2 ^ (k - s) * 2 ^ s) by (rewrite <- Z.pow_add_r by lia; f_equal; ring).
  pose proof (pow2_pos s ltac:(lia)). pose proof (pow2_pos (k - s) ltac:(lia)).
  rewrite (div_round_even_exact _ _ (M * 2 ^ (k - s))); [| nia | rewrite Hks; ring].
  assert (Hv : M * 2 ^ (k - s) * 2 ^ s = M * 2 ^ k) by (rewrite Hks; ring).
  rewrite Hv. destruct (Z.leb_spec (2 ^ 2098) (M * 2 ^ k)); [lia|].
  exists (M * 2 ^ (k - s)), (s - 1074). split; [reflexivity|]. split; [lia|].
  replace (s - 1074 + 1074) with s by ring. exact Hv.
Qed.

Lemma round_pos_le (n d K j : Z) : 0 <= n -> 0 < d -> 0 <= K < 2 ^ 53 -> 0 <= j ->
  K * 2 ^ j < 2 ^ 2098 -> n * 2 ^ 1074 <= d * (K * 2 ^ j) ->
  exists m e, round_pos n d = Some (m, e) /\ -1074 <= e /\ 0 <= m /\ m * 2 ^ (e + 1074) <= K * 2 ^ j.
Proof.
  intros Hn Hd HK Hj Hov Hle. unfold round_pos.
  set (t := n * 2 ^ 1074) in *.
  assert (Ht : 0 <= t) by (unfold t; pose proof (pow2_pos 1074 ltac:(lia)); lia).
  assert (Hq : t / d <= K * 2 ^ j) by (apply Z.div_le_upper_bound; lia).
  set (s := Z.max (Z.log2 (t / d) - 52) 0).
  assert (Hs : 0 <= s <= j).
  { split; [lia|]. unfold s.
    destruct (Z.eq_dec (t / d) 0) as [->|H0]; [simpl; lia|].
    assert (0 < t / d) by (pose proof (Z.div_pos t d Ht Hd); lia).
    assert (0 < K) by (destruct (Z.eq_dec K 0); [subst; lia | lia]).
    assert (Hlg : Z.log2 (t / d) <= Z.log2 (K * 2 ^ j)) by (apply Z.log2_le_mono; lia).
    rewrite Z.log2_mul_pow2 in Hlg by lia.
    assert (Z.log2 K < 53) by (apply Z.log2_lt_pow2; lia). lia. }
  assert (Hjs : 2 ^ j = 2 ^ (j - s) * 2 ^ s) by (rewrite <- Z.pow_add_r by lia; f_equal; ring).
  pose proof (pow2_pos s ltac:(lia)). pose proof (pow2_pos (j - s) ltac:(lia)).
  assert (Hm : div_round_even t (d * 2 ^ s) <= K * 2 ^ (j - s))
    by (apply div_round_even_le; [nia | rewrite Hjs in Hle; nia]).
  assert (Hm0 : 0 <= div_round_even t (d * 2 ^ s)) by (apply div_round_even_nonneg; nia).
  destruct (Z.leb_spec (2 ^ 2098) (div_round_even t (d * 2 ^ s) * 2 ^ s)); [nia|].
  eexists _, _. split; [reflexivity|]. replace (s - 1074 + 1074) with s by ring.
  split; [lia|]. split; [exact Hm0|]. rewrite Hjs. nia.
Qed.

Lemma strip_zeros_spec (f : nat) (m e : Z) : 0 <= m -> e <= 0 -> (Z.to_nat (- e) <= f)%nat ->
  let '(m', e') := strip_zeros f m e in
  0 <= m' /\ e <= e' <= 0 /\ m = m' * 10 ^ (e' - e) /\ canonical m' e'.
Proof.
  revert m e. induction f as [|f IH]; intros m e Hm He Hf; simpl.
  - assert (e = 0) by lia. subst. rewrite Z.sub_diag, Z.pow_0_r, Z.mul_1_r.
    repeat split; try lia. left. reflexivity.
  - destruct ((e <? 0) && (m mod 10 =? 0)) eqn:Ec.
    + apply andb_true_iff in Ec as [E1 E2]. apply Z.ltb_lt in E1. apply Z.eqb_eq in E2.
      assert (Hm10 : m = 10 * (m / 10)) by (pose proof (Z.div_mod m 10 ltac:(lia)); lia).
      specialize (IH (m / 10) (e + 1) ltac:(apply Z.div_pos; lia) ltac:(lia) ltac:(lia)).
      destruct (strip_zeros f (m / 10) (e + 1)) as [m' e'].
      destruct IH as (H1 & H2 & H3 & H4). repeat split; try lia; [|exact H4].
      rewrite Hm10, H3. replace (e' - e) with (Z.succ (e' - (e + 1))) by ring.
      rewrite Z.pow_succ_r by lia. ring.
    + rewrite Z.sub_diag, Z.pow_0_r, Z.mul_1_r. repeat split; try lia.
      destruct (Z.eq_dec e 0) as [->|Hne]; [left; reflexivity|right].
      apply andb_false_iff in Ec as [E|E]; [apply Z.ltb_ge in E; lia|].
      apply Z.eqb_neq in E. split; [lia|exact E].
Qed.

Lemma bin_to_dec_spec (m e : Z) : 0 <= m -> -1074 <= e ->
  let '(dm, de) := bin_to_dec m e in
  0 <= dm /\ de <= 0 /\ canonical dm de /\ dm * 2 ^ 1074 = 10 ^ (- de) * (m * 2 ^ (e + 1074)).
Proof.
  intros Hm He. unfold bin_to_dec. destruct (Z.leb_spec 0 e) as [He0|He0].
  - pose proof (pow2_pos e He0). repeat split; try nia; [left; reflexivity|].
    rewrite Z.pow_add_r by lia. simpl (10 ^ (- 0)). ring.
  - pose proof (Z.pow_pos_nonneg 5 (- e) ltac:(lia) ltac:(lia)).
    pose proof (strip_zeros_spec (Z.to_nat (- e)) (m * 5 ^ (- e)) e ltac:(nia) ltac:(lia) (le_n _))
      as Hs.
    destruct (strip_zeros _ _ _) as [dm de]. destruct Hs as (H1 & H2 & H3 & H4).
    repeat split; try lia; [exact H4|].
    assert (Hp : 0 < 10 ^ (de - e)) by (apply Z.pow_pos_nonneg; lia).
    apply (Z.mul_cancel_r _ _ (10 ^ (de - e))); [lia|].
    replace (dm * 2 ^ 1074 * 10 ^ (de - e)) with (dm * 10 ^ (de - e) * 2 ^ 1074) by ring.
    rewrite <- H3.
    replace (10 ^ (- de) * (m * 2 ^ (e + 1074)) * 10 ^ (de - e))
      with (m * (10 ^ (- de) * 10 ^ (de - e)) * 2 ^ (e + 1074)) by ring.
    rewrite <- Z.pow_add_r by lia. replace (- de + (de - e)) with (- e) by ring.
    replace (10 ^ (- e)) with (2 ^ (- e) * 5 ^ (- e))
      by (rewrite <- Z.pow_mul_l; reflexivity).
    replace (2 ^ 1074) with (2 ^ (- e) * 2 ^ (e + 1074))
      by (rewrite <- Z.pow_add_r by lia; f_equal; ring).
    ring.
Qed.

Lemma canonical_unique (dm de dm' de' : Z) : de <= 0 -> de' <= 0 ->
  canonical dm de -> canonical dm' de' -> dm * 10 ^ (- de') = dm' * 10 ^ (- de) ->
  dm = dm' /\ de = de'.
Proof.
  assert (Hgen : forall a b a' b', b < b' <= 0 -> canonical a b ->
            a * 10 ^ (- b') = a' * 10 ^ (- b) -> False).
  { intros a b a' b' Hb [Hc|[_ Hc]] E; [lia|]. apply Hc.
    assert (Hp : 0 < 10 ^ (- b')) by (apply Z.pow_pos_nonneg; lia).
    assert (Hpw : 10 ^ (- b) = 10 ^ (b' - b - 1) * 10 * 10 ^ (- b')).
    { replace (- b) with (b' - b - 1 + 1 + - b') at 1 by ring.
      rewrite !Z.pow_add_r, Z.pow_1_r by lia. reflexivity. }
    rewrite Hpw in E.
    assert (a = a' * 10 ^ (b' - b - 1) * 10) by nia.
    rewrite H, Z.mod_mul; lia. }
  intros Hd Hd' Hc Hc' E.
  destruct (Z.lt_total de de') as [Hl|[<-|Hl]].
  - exfalso. exact (Hgen dm de dm' de' ltac:(lia) Hc E).
  - split; [|reflexivity]. assert (0 < 10 ^ (- de)) by (apply Z.pow_pos_nonneg; lia).
    apply (Z.mul_cancel_r _ _ (10 ^ (- de))); [lia|exact E].
  - exfalso. exact (Hgen dm' de' dm de ltac:(lia) Hc' (eq_sym E)).
Qed.

Lemma bin_to_dec_same (m e m' e' : Z) : 0 <= m -> -1074 <= e -> 0 <= m' -> -1074 <= e' ->
  m * 2 ^ (e + 1074) = m' * 2 ^ (e' + 1074) -> bin_to_dec m e = bin_to_dec m' e'.
Proof.
  intros Hm He Hm' He' E.
  pose proof (bin_to_dec_spec m e Hm He) as H1. pose proof (bin_to_dec_spec m' e' Hm' He') as H2.
  destruct (bin_to_dec m e) as [dm de], (bin_to_dec m' e') as [dm' de'].
  destruct H1 as (A1 & B1 & C1 & D1), H2 as (A2 & B2 & C2 & D2).
  assert (Hp : 0 < 2 ^ 1074) by reflexivity.
  destruct (canonical_unique dm de dm' de' B1 B2 C1 C2) as [-> ->]; [|reflexivity].
  apply (Z.mul_cancel_r _ _ (2 ^ 1074)); [lia|].
  replace (dm * 10 ^ (- de') * 2 ^ 1074) with (10 ^ (- de') * (dm * 2 ^ 1074)) by ring.
  replace (dm' * 10 ^ (- de) * 2 ^ 1074) with (10 ^ (- de) * (dm' * 2 ^ 1074)) by ring.
  rewrite D1, D2, E. ring.
Qed.

Lemma norm_mant (m k : Z) : 0 < m <= 2 ^ 53 -> 0 <= k ->
  exists M k', 0 < M < 2 ^ 53 /\ 0 <= k' /\ M * 2 ^ k' = m * 2 ^ k.
Proof.
  intros Hm Hk. destruct (Z.eq_dec m (2 ^ 53)) as [->|Hne].
  - exists (2 ^ 52), (k + 1). split; [split; reflexivity|]. split; [lia|].
    rewrite Z.pow_add_r by lia. change (2 ^ 53) with (2 ^ 52 * 2 ^ 1). ring.
  - exists m, k. lia.
Qed.

Lemma dec_to_num_nonpos (M E : Z) : E <= 0 ->
  dec_to_num M E = match M with
                   | Z0 => NumFin 0 0
                   | Zpos p => round_frac false (Zpos p) (10 ^ (- E))
                   | Zneg p => round_frac true (Zpos p) (10 ^ (- E))
                   end.
Proof.
  intros HE. unfold dec_to_num, round_Q, dec_to_Q.
  destruct (Z.leb_spec 0 E) as [H0|H0].
  - assert (E = 0) by lia. subst. simpl. rewrite Z.mul_1_r. reflexivity.
  - simpl Qnum. simpl Qden. rewrite Z2Pos.id by (apply Z.pow_pos_nonneg; lia). reflexivity.
Qed.

Lemma round_frac_idem (neg : bool) (n d M E : Z) : 0 < n -> 0 < d ->
  round_frac neg n d = NumFin M E -> dec_to_num M E = NumFin M E.
Proof.
  intros Hn Hd. unfold round_frac.
  destruct (round_pos n d) as [[m e]|] eqn:Hr; [|discriminate].
  destruct (round_pos_mant n d m e ltac:(lia) Hd Hr) as (Hm & He & Hov).
  pose proof (bin_to_dec_spec m e ltac:(lia) He) as Hs.
  destruct (bin_to_dec m e) as [dm de] eqn:Hb. destruct Hs as (A & B & C & D).
  intros Heq. injection Heq as HM HE. subst E.
  rewrite dec_to_num_nonpos by exact B.
  destruct (Z.eq_dec dm 0) as [Hz|Hz].
  - subst dm. destruct C as [->|[_ C]]; [|exfalso; apply C; reflexivity].
    destruct neg; subst M; reflexivity.
  - assert (Hm0 : 0 < m).
    { destruct (Z.eq_dec m 0) as [->|]; [|lia]. rewrite Z.mul_0_l, Z.mul_0_r in D.
      assert (0 < 2 ^ 1074) by reflexivity. nia. }
    destruct (norm_mant m (e + 1074) ltac:(lia) ltac:(lia)) as (M0 & k & HM0 & Hk & HMk).
    assert (Hd' : 0 < 10 ^ (- de)) by (apply Z.pow_pos_nonneg; lia).
    destruct (round_pos_exact dm (10 ^ (- de)) M0 k Hd' HM0 Hk ltac:(lia) ltac:(rewrite HMk; exact D))
      as (m' & e' & Hr' & He' & Hv).
    destruct (round_pos_mant dm (10 ^ (- de)) m' e' ltac:(lia) Hd' Hr') as (Hm' & _).
    assert (Hbb : bin_to_dec m' e' = bin_to_dec m e)
      by (apply bin_to_dec_same; lia).
    destruct dm as [|p|p]; [lia| |lia].
    destruct neg; subst M; cbn -[round_frac Z.pow]; unfold round_frac;
      rewrite Hr', Hbb, Hb; reflexivity.
Qed.

Lemma round_Q_idem (q : Q) (M E : Z) : round_Q q = NumFin M E -> dec_to_num M E = NumFin M E.
Proof.
  unfold round_Q. destruct (Qnum q) as [|p|p].
  - intros E0. injection E0 as <- <-. reflexivity.
  - apply round_frac_idem; lia.
  - apply round_frac_idem; lia.
Qed.

Lemma dec_to_num_idem (m e M E : Z) : dec_to_num m e = NumFin M E -> dec_to_num M E = NumFin M E.
Proof. apply round_Q_idem. Qed.

Lemma round_Q_proper (q q' : Q) : (q == q')%Q -> round_Q q = round_Q q'.
Proof.
  destruct q as [a b], q' as [a' b']. unfold Qeq, round_Q. simpl. intros E.
  assert (Hf : forall p p', Zpos p * Zpos b' = Zpos p' * Zpos b ->
            round_pos (Zpos p) (Zpos b) = round_pos (Zpos p') (Zpos b')).
  { intros p p' Ep. rewrite <- (round_pos_scale (Zpos p) (Zpos b) (Zpos b')) by lia.
    rewrite <- (round_pos_scale (Zpos p') (Zpos b') (Zpos b)) by lia.
    rewrite Ep. f_equal. ring. }
  destruct a as [|p|p], a' as [|p'|p']; simpl in E; try lia; try reflexivity;
    unfold round_frac; rewrite (Hf p p') by lia; reflexivity.
Qed.

Lemma dec_to_Q_nonpos (dm de : Z) : de <= 0 -> (dec_to_Q dm de == dm # Z.to_pos (10 ^ (- de)))%Q.
Proof.
  intros H. unfold dec_to_Q. destruct (Z.leb_spec 0 de).
  - assert (de = 0) by lia. subst. unfold Qeq. simpl. lia.
  - reflexivity.
Qed.

Lemma dec_Q_le_int (dm de c : Z) : de <= 0 ->
  ((dec_to_Q dm de <= inject_Z c)%Q <-> dm <= c * 10 ^ (- de)) /\
  ((inject_Z c <= dec_to_Q dm de)%Q <-> c * 10 ^ (- de) <= dm).
Proof.
  intros H. rewrite (dec_to_Q_nonpos dm de H). unfold Qle. simpl.
  rewrite Z2Pos.id by (apply Z.pow_pos_nonneg; lia). lia.
Qed.

Lemma round_frac_value (neg : bool) (n d M E : Z) : 0 < n -> 0 < d ->
  round_frac neg n d = NumFin M E ->
  exists m e dm, round_pos n d = Some (m, e) /\ -1074 <= e /\ 0 <= m /\ E <= 0 /\ 0 <= dm /\
    M = (if neg then - dm else dm) /\ dm * 2 ^ 1074 = 10 ^ (- E) * (m * 2 ^ (e + 1074)).
Proof.
  intros Hn Hd. unfold round_frac.
  destruct (round_pos n d) as [[m e]|] eqn:Hr; [|discriminate].
  destruct (round_pos_mant n d m e ltac:(lia) Hd Hr) as (Hm & He & _).
  pose proof (bin_to_dec_spec m e ltac:(lia) He) as Hs.
  destruct (bin_to_dec m e) as [dm de]. destruct Hs as (A & B & C & D).
  intros Heq. injection Heq as <- <-. exists m, e, dm. repeat split; auto; lia.
Qed.

Lemma round_Q_bound (q : Q) (c : Z) : 0 <= c < 2 ^ 53 ->
  (- inject_Z c <= q <= inject_Z c)%Q ->
  exists M E, round_Q q = NumFin M E /\ (- inject_Z c <= dec_to_Q M E <= inject_Z c)%Q /\
    ((0 <= q)%Q -> (0 <= dec_to_Q M E)%Q) /\ ((q <= 0)%Q -> (dec_to_Q M E <= 0)%Q).
Proof.
  intros Hc [Hlo Hhi].
  assert (Hov : c * 2 ^ 1074 < 2 ^ 2098).
  { apply (Z.lt_le_trans _ (2 ^ 53 * 2 ^ 1074)); [apply Z.mul_lt_mono_pos_r; [reflexivity|lia]|].
    rewrite <- Z.pow_add_r by lia. apply Z.pow_le_mono_r; lia. }
  destruct q as [a b]. unfold round_Q. simpl Qnum. simpl Qden.
  unfold Qle in Hlo, Hhi. simpl in Hlo, Hhi.
  destruct a as [|p|p].
  - exists 0, 0. split; [reflexivity|]. unfold dec_to_Q, Qle. simpl. lia.
  - destruct (round_pos_le (Zpos p) (Zpos b) c 1074 ltac:(lia) ltac:(lia) Hc ltac:(lia) Hov
                ltac:(pose proof (pow2_pos 1074 ltac:(lia)); nia)) as (m & e & Hr & He & Hm & Hle).
    destruct (round_frac false (Zpos p) (Zpos b)) as [M E| |] eqn:Hf;
      [|unfold round_frac in Hf; rewrite Hr in Hf; destruct (bin_to_dec m e); discriminate..].
    destruct (round_frac_value false (Zpos p) (Zpos b) M E ltac:(lia) ltac:(lia) Hf)
      as (m' & e' & dm & Hr' & He' & Hm' & HE & Hdm & HM & D).
    rewrite Hr in Hr'. injection Hr' as <- <-. subst M.
    exists dm, E. split; [reflexivity|].
    pose proof (dec_Q_le_int dm E c HE) as [H1 H2]. pose proof (dec_Q_le_int dm E 0 HE) as [H3 H4].
    pose proof (dec_Q_le_int dm E (- c) HE) as [H5 H6].
    assert (Hp : 0 < 10 ^ (- E)) by (apply Z.pow_pos_nonneg; lia).
    assert (H2p : 0 < 2 ^ 1074) by reflexivity.
    assert (dm <= c * 10 ^ (- E)) by nia.
    rewrite <- inject_Z_opp. change 0%Q with (inject_Z 0).
    split; [split; [apply H6; nia | apply H1; lia]|].
    split; [intros _; apply H4; lia|]. intros Hq. unfold Qle in Hq. simpl in Hq. lia.
  - destruct (round_pos_le (Zpos p) (Zpos b) c 1074 ltac:(lia) ltac:(lia) Hc ltac:(lia) Hov
                ltac:(pose proof (pow2_pos 1074 ltac:(lia)); nia)) as (m & e & Hr & He & Hm & Hle).
    destruct (round_frac true (Zpos p) (Zpos b)) as [M E| |] eqn:Hf;
      [|unfold round_frac in Hf; rewrite Hr in Hf; destruct (bin_to_dec m e); discriminate..].
    destruct (round_frac_value true (Zpos p) (Zpos b) M E ltac:(lia) ltac:(lia) Hf)
      as (m' & e' & dm & Hr' & He' & Hm' & HE & Hdm & HM & D).
    rewrite Hr in Hr'. injection Hr' as <- <-. subst M.
    exists (- dm), E. split; [reflexivity|].
    pose proof (dec_Q_le_int (- dm) E c HE) as [H1 H2]. pose proof (dec_Q_le_int (- dm) E 0 HE) as [H3 H4].
    pose proof (dec_Q_le_int (- dm) E (- c) HE) as [H5 H6].
    assert (Hp : 0 < 10 ^ (- E)) by (apply Z.pow_pos_nonneg; lia).
    assert (H2p : 0 < 2 ^ 1074) by reflexivity.
    assert (dm <= c * 10 ^ (- E)) by nia.
    rewrite <- inject_Z_opp. change 0%Q with (inject_Z 0).
    split; [split; [apply H6; nia | apply H1; nia]|].
    split; [|intros _; apply H3; lia]. intros Hq. unfold Qle in Hq. simpl in Hq. lia.
Qed.

Lemma round_Q_int (z : Z) : Z.abs z < 2 ^ 53 -> round_Q (inject_Z z) = NumFin z 0.
Proof.
  intros Hz. rewrite (round_Q_proper (inject_Z z) (dec_to_Q z 0))
    by (unfold dec_to_Q; simpl; rewrite Z.mul_1_r; reflexivity).
  change (round_Q (dec_to_Q z 0)) with (dec_to_num z 0). rewrite dec_to_num_nonpos by lia.
  assert (Hgen : forall (neg : bool) p, Zpos p < 2 ^ 53 ->
            round_frac neg (Zpos p) (10 ^ (- 0)) = NumFin (if neg then Zneg p else Zpos p) 0).
  { intros neg p Hp. simpl (10 ^ (- 0)).
    destruct (round_pos_exact (Zpos p) 1 (Zpos p) 1074 ltac:(lia) ltac:(lia) ltac:(lia)
                ltac:(apply (Z.lt_le_trans _ (2 ^ 53 * 2 ^ 1074)); [apply Z.mul_lt_mono_pos_r; [reflexivity|lia]|
                        rewrite <- Z.pow_add_r by lia; apply Z.pow_le_mono_r; lia])
                ltac:(ring)) as (m & e & Hr & He & Hv).
    destruct (round_pos_mant (Zpos p) 1 m e ltac:(lia) ltac:(lia) Hr) as (Hm & _).
    unfold round_frac. rewrite Hr.
    rewrite (bin_to_dec_same m e (Zpos p) 0) by lia.
    unfold bin_to_dec. simpl. rewrite Pos.mul_1_r. destruct neg; reflexivity. }
  destruct z as [|p|p]; [reflexivity| |]; apply Hgen; lia.
Qed.

Lemma round_Q_nonneg (q : Q) : (0 <= q)%Q ->
  round_Q q = NumInf false \/ exists M E, round_Q q = NumFin M E /\ (0 <= dec_to_Q M E)%Q.
Proof.
  destruct q as [a b]. unfold Qle, round_Q. simpl. intros Hq.
  destruct a as [|p|p]; [|destruct (round_frac false (Zpos p) (Zpos b)) as [M E| [|] |] eqn:Hf|lia].
  - right. exists 0, 0. split; [reflexivity|]. unfold dec_to_Q, Qle. simpl. lia.
  - right. exists M, E. split; [reflexivity|].
    destruct (round_frac_value false (Zpos p) (Zpos b) M E ltac:(lia) ltac:(lia) Hf)
      as (m & e & dm & _ & _ & _ & HE & Hdm & HM & _). subst M.
    apply (dec_Q_le_int dm E 0 HE). lia.
  - unfold round_frac in Hf. destruct (round_pos _ _) as [[m e]|]; [destruct (bin_to_dec m e)|];
      discriminate.
  - left. reflexivity.
  - unfold round_frac in Hf. destruct (round_pos _ _) as [[m e]|]; [destruct (bin_to_dec m e)|];
      discriminate.
Qed.

Lemma round_Q_nonpos (q : Q) : (q <= 0)%Q ->
  round_Q q = NumInf true \/ exists M E, round_Q q = NumFin M E /\ (dec_to_Q M E <= 0)%Q.
Proof.
  destruct q as [a b]. unfold Qle, round_Q. simpl. intros Hq.
  destruct a as [|p|p]; [|lia|destruct (round_frac true (Zpos p) (Zpos b)) as [M E| [|] |] eqn:Hf].
  - right. exists 0, 0. split; [reflexivity|]. unfold dec_to_Q, Qle. simpl. lia.
  - right. exists M, E. split; [reflexivity|].
    destruct (round_frac_value true (Zpos p) (Zpos b) M E ltac:(lia) ltac:(lia) Hf)
      as (m & e & dm & _ & _ & _ & HE & Hdm & HM & _). subst M.
    apply (dec_Q_le_int (- dm) E 0 HE). lia.
  - left. reflexivity.
  - unfold round_frac in Hf. destruct (round_pos _ _) as [[m e]|]; [destruct (bin_to_dec m e)|];
      discriminate.
  - unfold round_frac in Hf. destruct (round_pos _ _) as [[m e]|]; [destruct (bin_to_dec m e)|];
      discriminate.
Qed.

(** ** The table and the worker *)

Lemma analyze_image_length (env : worker_env) : (length (analyze_image env) <= 1)%nat.
Proof.
  unfold analyze_image.
  destruct (env_failed_ok env), (env_read_ok env), (env_response env) as [t|];
    simpl; try lia;
    destruct (normalize _); try destruct (env_complete_ok env); simpl; lia.
Qed.

Lemma pending_app (id : Z) (a b : list (Z * list db_write)) :
  pending id (List.app a b) = (pending id a + pending id b)%nat.
Proof.
  induction a as [|[i l] a IH]; simpl; [reflexivity | rewrite IH; lia].
Qed.

Lemma pending_fresh (n : Z) (ws : list (Z * list db_write)) :
  Forall (fun p => fst p < n) ws -> pending n ws = O.
Proof.
  induction 1 as [|[i l] ws Hi _ IH]; simpl in *; [reflexivity|].
  destruct (Z.eqb_spec i n); [lia | exact IH].
Qed.

Lemma log_count_cons (id i : Z) (w : db_write) (log : list (Z * db_write)) :
  log_count id ((i, w) :: log) = Nat.add (if i =? id then 1%nat else O) (log_count id log).
Proof. unfold log_count; simpl; destruct (i =? id); reflexivity. Qed.

Lemma log_count_fresh (n : Z) (log : list (Z * db_write)) :
  Forall (fun p => fst p < n) log -> log_count n log = O.
Proof.
  induction 1 as [|[i w] log Hi _ IH]; [reflexivity|].
  rewrite log_count_cons; simpl in Hi.
  destruct (Z.eqb_spec i n); [lia | exact IH].
Qed.

Lemma init_inv : sys_inv init_system.
Proof.
  repeat split; simpl; try constructor. intros; simpl; lia.
Qed.

Lemma Forall_app_one {A} (P : A -> Prop) (l : list A) (x : A) :
  Forall P l -> P x -> Forall P (List.app l [x]).
Proof. intros H Hx. apply Forall_app; auto. Qed.

Lemma upload_inv uid fname path env st :
  sys_inv st -> sys_inv (upload uid fname path env st).
Proof.
  intros (Hrows & Hids & Hws & Hlog & Hpend).
  unfold upload; set (n := sys_next_id st).
  split; [|split; [|split; [|split]]]; simpl.
  - apply Forall_app_one.
    + eapply Forall_impl; [|exact (Forall_and Hrows Hids)].
      intros r [(H1 & H2 & H3 & H4 & H5) Hr].
      assert (Hne : (n =? row_id r) = false) by (apply Z.eqb_neq; lia).
      refine (conj H1 (conj H2 (conj H3 (conj H4 _)))).
      intros Ht; destruct (H5 Ht) as [Hc Hp]; split; [exact Hc|].
      simpl; rewrite Hne; exact Hp.
    + unfold row_ok; simpl.
      refine (conj _ (conj _ (conj (or_introl eq_refl) (conj _ _)))).
      * split; [intros H; congruence | discriminate].
      * split; [intros H; congruence | discriminate].
      * intros _; apply log_count_fresh; exact Hlog.
      * discriminate.
  - apply Forall_app_one; [|simpl; lia].
    eapply Forall_impl; [|exact Hids]; simpl; intros; lia.
  - constructor; [simpl; lia|].
    eapply Forall_impl; [|exact Hws]; simpl; intros; lia.
  - eapply Forall_impl; [|exact Hlog]; simpl; intros; lia.
  - intros id. destruct (Z.eqb_spec n id) as [<-|Hne].
    + rewrite (pending_fresh n); [|exact Hws].
      pose proof (analyze_image_length env). lia.
    + specialize (Hpend id). lia.
Qed.

Lemma write_inv st pre i w ws post :
  sys_inv st ->
  sys_workers st = List.app pre ((i, w :: ws) :: post) ->
  sys_inv (mk_sys (apply_write i w (sys_rows st)) (sys_next_id st) (sys_files st)
                  (List.app pre ((i, ws) :: post)) ((i, w) :: sys_log st)).
Proof.
  intros (Hrows & Hids & Hws & Hlog & Hpend) Hw.
  assert (Hi : i < sys_next_id st).
  { rewrite Hw in Hws. apply Forall_app in Hws as [_ Hws]. inversion Hws; subst; assumption. }
  assert (Hpi : pending i (sys_workers st) = (pending i pre + S (length ws) + pending i post)%nat).
  { rewrite Hw, pending_app; simpl; rewrite Z.eqb_refl; lia. }
  assert (Hws0 : (pending i pre + length ws + pending i post = 0)%nat).
  { specialize (Hpend i); lia. }
  split; [|split; [|split; [|split]]]; simpl.
  - unfold apply_write. apply Forall_map.
    eapply Forall_impl; [|exact Hrows]. intros r (H1 & H2 & H3 & H4 & H5).
    destruct (Z.eqb_spec (row_id r) i) as [Heq|Hne].
    + (* the row of this worker: it is still processing *)
      assert (Hproc : row_status r = Processing).
      { destruct H3 as [H3|H3]; [exact H3|].
        destruct (H5 H3) as [_ Hp]. rewrite Heq in Hp. lia. }
      assert (Hseg : row_segmentation_data r = None).
      { destruct (row_segmentation_data r); [|reflexivity].
        exfalso. assert (Hc : row_status r = Completed) by (apply H1; discriminate).
        congruence. }
      assert (Hcnt : log_count i (sys_log st) = O) by (rewrite <- Heq; auto).
      assert (Hpend' : pending i (List.app pre ((i, ws) :: post)) = O).
      { rewrite pending_app; simpl; rewrite Z.eqb_refl; lia. }
      destruct w as [raw seg|]; unfold row_ok; simpl; rewrite Heq;
        rewrite log_count_cons, Z.eqb_refl, Hcnt, Hpend'.
      * refine (conj _ (conj _ (conj (or_intror eq_refl) (conj _ _)))).
        -- split; [reflexivity | discriminate].
        -- split; [reflexivity | discriminate].
        -- discriminate.
        -- intros _; split; reflexivity.
      * refine (conj _ (conj _ (conj (or_intror eq_refl) (conj _ _)))).
        -- rewrite Hseg; split; [intros H; congruence | discriminate].
        -- assert (Hraw : row_analysis_result r = None).
           { destruct (row_analysis_result r); [|reflexivity].
             exfalso. assert (Hc : row_status r = Completed) by (apply H2; discriminate).
             congruence. }
           rewrite Hraw; split; [intros H; congruence | discriminate].
        -- discriminate.
        -- intros _; split; reflexivity.
    + (* any other row is unchanged, and so are its counters *)
      assert (Hni : (i =? row_id r) = false) by (apply Z.eqb_neq; congruence).
      unfold row_ok. rewrite log_count_cons, Hni. simpl.
      refine (conj H1 (conj H2 (conj H3 (conj H4 _)))).
      intros Ht; destruct (H5 Ht) as [Hc Hp]; split; [exact Hc|].
      rewrite Hw, pending_app in Hp; rewrite pending_app; simpl in *.
      rewrite Hni in *; lia.
  - unfold apply_write. apply Forall_map.
    eapply Forall_impl; [|exact Hids]. intros r Hr.
    destruct (row_id r =? i); [destruct w|]; simpl; exact Hr.
  - rewrite Hw in Hws. apply Forall_app in Hws as [Hpre Hpost].
    inversion Hpost; subst. apply Forall_app; split; [exact Hpre|].
    constructor; assumption.
  - constructor; [exact Hi | exact Hlog].
  - intros id. specialize (Hpend id). rewrite Hw, pending_app in Hpend.
    rewrite pending_app; simpl in *. destruct (i =? id); simpl in *; lia.
Qed.

Lemma Forall_filter_sub {A} (P : A -> Prop) (f : A -> bool) (l : list A) :
  Forall P l -> Forall P (filter f l).
Proof.
  rewrite !Forall_forall. intros H x Hx. apply filter_In in Hx as [Hx _]. auto.
Qed.

(** A [DELETE /:id] leaves the state alone, deletes as when its database
    calls resolve, or only unlinks the file. *)
Lemma delete_route_db_cases get_ok run_ok uid id unlinked st :
  snd (delete_route_db get_ok run_ok uid id unlinked st) = st \/
  snd (delete_route_db get_ok run_ok uid id unlinked st) = snd (delete_route uid id unlinked st) \/
  exists files, snd (delete_route_db get_ok run_ok uid id unlinked st) =
                mk_sys (sys_rows st) (sys_next_id st) files (sys_workers st) (sys_log st).
Proof.
  unfold delete_route_db. destruct get_ok; [|left; reflexivity]. simpl negb. cbv iota.
  destruct (db_get id uid (sys_rows st)); [|left; reflexivity].
  destruct run_ok; [right; left; reflexivity|]. right; right. eexists. reflexivity.
Qed.

Lemma delete_inv uid id unlinked st :
  sys_inv st -> sys_inv (snd (delete_route uid id unlinked st)).
Proof.
  intros Hinv. unfold delete_route.
  destruct (db_get id uid (sys_rows st)); [|exact Hinv].
  destruct Hinv as (Hrows & Hids & Hws & Hlog & Hpend).
  split; [|split; [|split; [|split]]]; simpl; try assumption;
    apply Forall_filter_sub; assumption.
Qed.

Lemma delete_db_inv get_ok run_ok uid id unlinked st :
  sys_inv st -> sys_inv (snd (delete_route_db get_ok run_ok uid id unlinked st)).
Proof.
  intros Hinv.
  destruct (delete_route_db_cases get_ok run_ok uid id unlinked st) as [->|[->|[f ->]]].
  - exact Hinv.
  - apply delete_inv; exact Hinv.
  - destruct st; exact Hinv.
Qed.

Lemma step_inv st st' : step st st' -> sys_inv st -> sys_inv st'.
Proof.
  destruct 1.
  - apply upload_inv.
  - intros Hinv. eapply write_inv; eassumption.
  - apply delete_db_inv.
Qed.

Lemma steps_inv st st' : steps st st' -> sys_inv st -> sys_inv st'.
Proof.
  induction 1 as [|st1 st2 st3 Hstep _ IH]; [auto|].
  intros Hinv. apply IH. eapply step_inv; eassumption.
Qed.

Lemma reachable_inv st : reachable st -> sys_inv st.
Proof. intros H. eapply steps_inv; [exact H | exact init_inv]. Qed.

(** C8: in every reachable state of the server, a row's analysis columns
    ([analysis_result] and [segmentation_data]) are set if and only if its
    status is [completed]; a row with a terminal status received exactly
    one worker write and no further write is pending for it; and every
    write of a worker run is a single update that sets a terminal status,
    the [completed] one together with both analysis columns. *)
Theorem analysis_iff_completed (st : system) (Hreach : reachable st) :
  Forall (fun r =>
            (row_segmentation_data r <> None <-> row_status r = Completed) /\
            (row_analysis_result r <> None <-> row_status r = Completed) /\
            (terminal (row_status r) = true ->
               log_count (row_id r) (sys_log st) = 1%nat /\
               pending (row_id r) (sys_workers st) = O))
         (sys_rows st) /\
  (forall env r,
     (length (analyze_image env) <= 1)%nat /\
     Forall (fun w =>
               terminal (row_status (write_row w r)) = true /\
               (row_status (write_row w r) = Completed ->
                  row_analysis_result (write_row w r) <> None /\
                  row_segmentation_data (write_row w r) <> None))
            (analyze_image env)).
Proof.
  split.
  - destruct (reachable_inv st Hreach) as (Hrows & _).
    eapply Forall_impl; [|exact Hrows]. intros r (H1 & H2 & _ & _ & H5). auto.
  - intros env r. split; [apply analyze_image_length|].
    apply Forall_forall. intros w _.
    destruct w; simpl; split; try reflexivity; try discriminate.
    intros _; split; discriminate.
Qed.

Lemma run_first_write_step st i w ws post :
  sys_workers st = (i, w :: ws) :: post -> step st (run_first_write st).
Proof.
  intros H. unfold run_first_write. rewrite H.
  exact (step_write st [] i w ws post H).
Qed.

Lemma demo_analysed_reachable : reachable demo_analysed.
Proof.
  unfold reachable. eapply steps_cons; [apply step_upload|].
  eapply steps_cons; [|apply steps_refl].
  eapply run_first_write_step. vm_compute. reflexivity.
Qed.

Lemma analysis_iff_completed_witness :
  reachable demo_analysed /\
  Forall (fun r =>
            (row_segmentation_data r <> None <-> row_status r = Completed) /\
            (row_analysis_result r <> None <-> row_status r = Completed) /\
            (terminal (row_status r) = true ->
               log_count (row_id r) (sys_log demo_analysed) = 1%nat /\
               pending (row_id r) (sys_workers demo_analysed) = O))
         (sys_rows demo_analysed) /\
  map row_status (sys_rows demo_analysed) = [Completed].
Proof.
  split; [exact demo_analysed_reachable|]. split.
  - exact (proj1 (analysis_iff_completed demo_analysed demo_analysed_reachable)).
  - vm_compute. reflexivity.
Defined.

(** Ids stay below the AUTOINCREMENT counter, and a deleted id never
    comes back. *)
Lemma absent_id_step id st st' :
  step st st' ->
  id < sys_next_id st -> ~ In id (map row_id (sys_rows st)) ->
  id < sys_next_id st' /\ ~ In id (map row_id (sys_rows st')).
Proof.
  destruct 1 as [uid fname path env st|st pre i w ws post _|g rk uid id' unlinked st];
    intros Hlt Hnin.
  - unfold upload; simpl. split; [lia|].
    rewrite map_app, in_app_iff. simpl. intros [H|[H|[]]]; [tauto | lia].
  - simpl. split; [exact Hlt|]. unfold apply_write. rewrite map_map.
    erewrite map_ext; [exact Hnin|].
    intros r. destruct (row_id r =? i); [destruct w|]; reflexivity.
  - destruct (delete_route_db_cases g rk uid id' unlinked st) as [->|[->|[f ->]]];
      [auto| |simpl; auto].
    unfold delete_route. destruct (db_get id' uid (sys_rows st)); simpl; [|auto].
    split; [exact Hlt|]. intros Hin. apply Hnin.
    apply in_map_iff in Hin as (r & Hr & Hin). apply filter_In in Hin as [Hin _].
    apply in_map_iff. eauto.
Qed.

Lemma absent_id_steps id st st' :
  steps st st' ->
  id < sys_next_id st -> ~ In id (map row_id (sys_rows st)) ->
  ~ In id (map row_id (sys_rows st')).
Proof.
  induction 1 as [st|st1 st2 st3 Hstep _ IH]; intros Hlt Hnin; [exact Hnin|].
  destruct (absent_id_step id st1 st2 Hstep Hlt Hnin). auto.
Qed.

Lemma list_by_owner_incl uid rows r : In r (list_by_owner uid rows) -> In r rows.
Proof.
  unfold list_by_owner. intros H. apply filter_In in H. tauto.
Qed.

(** C9: when a user deletes one of their rows, the route answers success
    whatever the outcome of removing the file (already missing, or any
    other error of [fs.unlink]), and from then on the row's id is in no
    [listByOwner] result, for every owner and every later sequence of
    uploads, worker writes and deletions. *)
Theorem delete_removes_row (st : system) (uid id : Z) (unlinked : option (list string))
  (Hreach : reachable st) (Hfound : db_get id uid (sys_rows st) <> None) :
  fst (delete_route uid id unlinked st) = Ok200 /\
  forall st'' owner,
    steps (snd (delete_route uid id unlinked st)) st'' ->
    ~ In id (map row_id (list_by_owner owner (sys_rows st''))).
Proof.
  destruct (reachable_inv st Hreach) as (_ & Hids & _).
  unfold delete_route.
  destruct (db_get id uid (sys_rows st)) as [r0|] eqn:Hget; [|contradiction].
  split; [reflexivity|]. intros st'' owner Hsteps Hin.
  assert (Hlt : id < sys_next_id st).
  { unfold db_get in Hget. apply find_some in Hget as [Hin0 Hk].
    apply andb_true_iff in Hk as [Hk _]. apply Z.eqb_eq in Hk.
    rewrite Forall_forall in Hids. specialize (Hids r0 Hin0). lia. }
  refine (absent_id_steps id _ st'' Hsteps Hlt _ _).
  - simpl. intros Hin'. apply in_map_iff in Hin' as (r & Hr & Hin').
    apply filter_In in Hin' as [_ Hk]. rewrite Hr, Z.eqb_refl in Hk. discriminate.
  - apply in_map_iff in Hin as (r & Hr & Hin). apply list_by_owner_incl in Hin.
    apply in_map_iff. eauto.
Qed.

Lemma demo_uploaded_reachable : reachable demo_uploaded.
Proof. unfold reachable. eapply steps_cons; [apply step_upload | apply steps_refl]. Qed.

Lemma delete_removes_row_witness :
  reachable demo_uploaded /\ db_get 1 7 (sys_rows demo_uploaded) <> None /\
  fst (delete_route 7 1 None demo_uploaded) = Ok200.
Proof.
  split; [exact demo_uploaded_reachable|]. split; [vm_compute; discriminate|].
  refine (proj1 (delete_removes_row demo_uploaded 7 1 None demo_uploaded_reachable _)).
  vm_compute; discriminate.
Defined.

(** C10: the [failed] update of the worker changes the status of the
    rows with the worker's id to [failed] and nothing else: every other
    column, [analysis_result] and [segmentation_data] included, keeps its
    value, and the other rows are untouched. *)
Theorem failed_write_frame (id : Z) (rows : list image_row) :
  Forall2 (fun r r' =>
             row_id r' = row_id r /\ row_user r' = row_user r /\
             row_filename r' = row_filename r /\ row_path r' = row_path r /\
             row_analysis_result r' = row_analysis_result r /\
             row_segmentation_data r' = row_segmentation_data r /\
             (row_id r = id -> row_status r' = Failed) /\
             (row_id r <> id -> r' = r))
          rows (apply_write id WFailed rows).
Proof.
  induction rows as [|r rows IH]; simpl; constructor; [|exact IH].
  destruct (Z.eqb_spec (row_id r) id); simpl; repeat split; auto; congruence.
Qed.

(** ** Objects, areas and coverage *)

Lemma lookup_cons k' k x fs :
  lookup k' ((k, x) :: fs) = if String.eqb k k' then Some x else lookup k' fs.
Proof. unfold lookup; simpl; destruct (String.eqb k k'); reflexivity. Qed.

Lemma lookup_nil k : lookup k [] = None.
Proof. reflexivity. Qed.

Lemma lookup_map_set fs k v k' :
  lookup k' (map (fun kv => if String.eqb (fst kv) k then (k, v) else kv) fs) =
  if String.eqb k k'
  then (if existsb (fun kv => String.eqb (fst kv) k) fs then Some v else None)
  else lookup k' fs.
Proof.
  induction fs as [|[k0 x] fs IH]; simpl.
  - destruct (String.eqb k k'); reflexivity.
  - destruct (String.eqb k0 k) eqn:E0; rewrite !lookup_cons.
    + apply String.eqb_eq in E0; subst k0. rewrite IH.
      destruct (String.eqb k k'); reflexivity.
    + rewrite IH. simpl.
      destruct (String.eqb k k') eqn:E1, (String.eqb k0 k') eqn:E2; try reflexivity.
      apply String.eqb_eq in E1; apply String.eqb_eq in E2; subst.
      rewrite String.eqb_refl in E0; discriminate.
Qed.

Lemma lookup_app_one fs k v k' :
  lookup k' (List.app fs [(k, v)]) =
  match lookup k' fs with
  | Some x => Some x
  | None => if String.eqb k k' then Some v else None
  end.
Proof.
  induction fs as [|[k0 x] fs IH]; simpl.
  - rewrite lookup_cons, lookup_nil. reflexivity.
  - rewrite !lookup_cons. destruct (String.eqb k0 k'); [reflexivity | exact IH].
Qed.

Lemma lookup_absent fs k :
  existsb (fun kv => String.eqb (fst kv) k) fs = false -> lookup k fs = None.
Proof.
  induction fs as [|[k0 x] fs IH]; simpl; intro H; [reflexivity|].
  rewrite lookup_cons. apply orb_false_iff in H as [H1 H2].
  rewrite H1. exact (IH H2).
Qed.

Lemma lookup_obj_set fs k v k' :
  lookup k' (obj_set fs k v) = if String.eqb k k' then Some v else lookup k' fs.
Proof.
  unfold obj_set. destruct (existsb _ fs) eqn:E.
  - rewrite lookup_map_set, E. reflexivity.
  - rewrite lookup_app_one. destruct (String.eqb k k') eqn:Ek.
    + apply String.eqb_eq in Ek; subst k'. rewrite (lookup_absent _ _ E). reflexivity.
    + destruct (lookup k' fs); reflexivity.
Qed.
Lemma qmax_spec (a b : Q) : (a <= b /\ qmax a b = b)%Q \/ (b < a /\ qmax a b = a)%Q.
Proof.
  unfold qmax. destruct (Qle_bool a b) eqn:E.
  - left. split; [apply Qle_bool_iff; exact E | reflexivity].
  - right. split; [|reflexivity].
    apply Qnot_le_lt. intro H. apply Qle_bool_iff in H. congruence.
Qed.

Lemma qmin_spec (a b : Q) : (a <= b /\ qmin a b = a)%Q \/ (b < a /\ qmin a b = b)%Q.
Proof.
  unfold qmin. destruct (Qle_bool a b) eqn:E.
  - left. split; [apply Qle_bool_iff; exact E | reflexivity].
  - right. split; [|reflexivity].
    apply Qnot_le_lt. intro H. apply Qle_bool_iff in H. congruence.
Qed.

Ltac qcases :=
  repeat match goal with
  | |- context [qmin ?a ?b] =>
      let E := fresh in destruct (qmin_spec a b) as [[? E]|[? E]]; rewrite E in *; clear E
  | |- context [qmax ?a ?b] =>
      let E := fresh in destruct (qmax_spec a b) as [[? E]|[? E]]; rewrite E in *; clear E
  end.

Lemma js_max_fin (a b : Q) : js_max (XFin a) (XFin b) = XFin (qmax a b).
Proof. unfold js_max, x_le, qmax. destruct (Qle_bool a b); reflexivity. Qed.

Lemma js_min_fin (a b : Q) : js_min (XFin a) (XFin b) = XFin (qmin a b).
Proof. unfold js_min, x_le, qmin. destruct (Qle_bool a b); reflexivity. Qed.

Lemma coord_eq (x : xnum) :
  js_max (XFin 0) (js_min (XFin 1000) (or_zero x)) = XFin (clamp_coord x).
Proof.
  unfold clamp_coord, or_zero. destruct x as [q|[|]|].
  - destruct (Qeq_bool q 0); rewrite js_min_fin, js_max_fin; reflexivity.
  - reflexivity.
  - reflexivity.
  - rewrite js_min_fin, js_max_fin; reflexivity.
Qed.

Lemma clamp_coord_bounds (x : xnum) : (0 <= clamp_coord x <= 1000)%Q.
Proof.
  unfold clamp_coord. destruct (or_zero x) as [q|[|]|]; qcases; lra.
Qed.



Lemma qmax0_bounds (t : Q) : (t <= 1000 -> 0 <= qmax 0 t <= 1000)%Q.
Proof. intro H. qcases; lra. Qed.

Lemma qmax0_nonpos (t : Q) : (t <= 0 -> qmax 0 t == 0)%Q.
Proof. intro H. qcases; lra. Qed.

Lemma dec_to_Q_0 (z : Z) : (dec_to_Q z 0 == inject_Z z)%Q.
Proof. unfold dec_to_Q. simpl. rewrite Z.mul_1_r. reflexivity. Qed.

Lemma x_round_proper (q q' : Q) : (q == q')%Q -> x_round q = x_round q'.
Proof. intros H. unfold x_round. rewrite (round_Q_proper q q' H). reflexivity. Qed.

(** An integer below 2^53 is a double. *)
Lemma x_round_int (q : Q) (z : Z) :
  (q == inject_Z z)%Q -> Z.abs z < 2 ^ 53 -> x_round q = XFin (dec_to_Q z 0).
Proof.
  intros Hq Hz. rewrite (x_round_proper q (inject_Z z) Hq). unfold x_round.
  rewrite round_Q_int by exact Hz. reflexivity.
Qed.

(** Rounding keeps a value within an integer bound below 2^53, and keeps
    its sign. *)
Lemma x_round_bound (q : Q) (c : Z) : 0 <= c < 2 ^ 53 ->
  (- inject_Z c <= q <= inject_Z c)%Q ->
  exists q', x_round q = XFin q' /\ (- inject_Z c <= q' <= inject_Z c)%Q /\
    ((0 <= q)%Q -> (0 <= q')%Q) /\ ((q <= 0)%Q -> (q' <= 0)%Q).
Proof.
  intros Hc Hq. destruct (round_Q_bound q c Hc Hq) as (M & E & HM & H1 & H2 & H3).
  exists (dec_to_Q M E). unfold x_round. rewrite HM. auto.
Qed.

Lemma x_round_nonneg (q : Q) : (0 <= q)%Q ->
  x_round q = XInf false \/ exists q', x_round q = XFin q' /\ (0 <= q')%Q.
Proof.
  intros Hq. unfold x_round.
  destruct (round_Q_nonneg q Hq) as [->|(M & E & -> & H)]; [left; reflexivity|].
  right. exists (dec_to_Q M E). auto.
Qed.


(** [areaOf] of four elements that [Number] converts. *)
Lemma areaOf_some (b0 b1 b2 b3 : jvalue) (n0 n1 n2 n3 : xnum) :
  to_number b0 = Some n0 -> to_number b1 = Some n1 ->
  to_number b2 = Some n2 -> to_number b3 = Some n3 ->
  areaOf (Some (JArr [b0; b1; b2; b3])) =
  Some (x_div (x_mul (js_max (XFin 0) (x_round (clamp_coord n3 + - clamp_coord n1)))
                     (js_max (XFin 0) (x_round (clamp_coord n2 + - clamp_coord n0))))
              (x_round (1000 * 1000))).
Proof.
  intros H0 H1 H2 H3. unfold areaOf. rewrite H0, H1, H2, H3. cbv iota zeta beta.
  rewrite !coord_eq. reflexivity.
Qed.

Lemma round_million : x_round (1000 * 1000) = XFin (dec_to_Q 1000000 0).
Proof. apply x_round_int; reflexivity. Qed.

Lemma x_div_million (p : Q) : x_div (XFin p) (XFin (dec_to_Q 1000000 0)) = x_round (p / 1000000).
Proof.
  unfold x_div. replace (Qeq_bool (dec_to_Q 1000000 0) 0) with false by reflexivity.
  apply x_round_proper. rewrite dec_to_Q_0. reflexivity.
Qed.

(** The double arithmetic of [areaOf] on clamped coordinates: the area lies
    in [0,1] and is 0 for a box with no height or no width. *)
Lemma area_core (c0 c1 c2 c3 : Q) :
  (0 <= c0 <= 1000)%Q -> (0 <= c1 <= 1000)%Q -> (0 <= c2 <= 1000)%Q -> (0 <= c3 <= 1000)%Q ->
  exists q, x_div (x_mul (js_max (XFin 0) (x_round (c3 + - c1)))
                         (js_max (XFin 0) (x_round (c2 + - c0))))
                  (x_round (1000 * 1000)) = XFin q /\ (0 <= q <= 1)%Q /\
    ((c2 <= c0)%Q -> (q == 0)%Q) /\ ((c3 <= c1)%Q -> (q == 0)%Q).
Proof.
  intros B0 B1 B2 B3.
  destruct (x_round_bound (c3 + - c1) 1000 ltac:(split; [lia|reflexivity])
              ltac:(change (inject_Z 1000) with 1000%Q; lra)) as (d1 & E1 & D1 & P1 & N1).
  destruct (x_round_bound (c2 + - c0) 1000 ltac:(split; [lia|reflexivity])
              ltac:(change (inject_Z 1000) with 1000%Q; lra)) as (d0 & E0 & D0 & P0 & N0).
  change (inject_Z 1000) with 1000%Q in D1, D0.
  rewrite E1, E0, !js_max_fin, round_million.
  assert (Hw := qmax0_bounds d1 ltac:(lra)). assert (Hh := qmax0_bounds d0 ltac:(lra)).
  set (w := qmax 0 d1) in *. set (h := qmax 0 d0) in *.
  change (x_mul (XFin w) (XFin h)) with (x_round (w * h)).
  destruct (x_round_bound (w * h) 1000000 ltac:(split; [lia|reflexivity])
              ltac:(change (inject_Z 1000000) with 1000000%Q; split; nra))
    as (p & Ep & Dp & Pp & Np).
  change (inject_Z 1000000) with 1000000%Q in Dp.
  rewrite Ep, x_div_million.
  assert (Hp : (0 <= p)%Q) by (apply Pp; nra).
  destruct (x_round_bound (p / 1000000) 1 ltac:(split; [lia|reflexivity])
              ltac:(change (inject_Z 1) with 1%Q; unfold Qdiv;
                    change (/ 1000000)%Q with (1 # 1000000)%Q; split; nra))
    as (q & Eq & Dq & Pq & Nq).
  change (inject_Z 1) with 1%Q in Dq.
  exists q. split; [exact Eq|].
  assert (Hq0 : (0 <= q)%Q)
    by (apply Pq; unfold Qdiv; change (/ 1000000)%Q with (1 # 1000000)%Q; nra).
  assert (Hz : (w * h <= 0)%Q -> (q == 0)%Q).
  { intros Hwh. specialize (Np Hwh).
    assert (Hq1 : (q <= 0)%Q)
      by (apply Nq; unfold Qdiv; change (/ 1000000)%Q with (1 # 1000000)%Q; nra).
    lra. }
  split; [lra|]. split.
  - intros Hc. apply Hz. assert (Hd : (d0 <= 0)%Q) by (apply N0; lra).
    unfold h. rewrite (qmax0_nonpos d0 Hd). lra.
  - intros Hc. apply Hz. assert (Hd : (d1 <= 0)%Q) by (apply N1; lra).
    unfold w. rewrite (qmax0_nonpos d1 Hd). lra.
Qed.


(** [areaOf] throws exactly on the boxes [bad_box] names; otherwise it is
    a number in [0,1]. *)
Lemma areaOf_cases (box : option jvalue) :
  (areaOf box = None /\ bad_box box = true) \/
  (exists q, areaOf box = Some (XFin q) /\ (0 <= q <= 1)%Q /\ bad_box box = false).
Proof.
  destruct box as [[| | | | l |]|];
    try (right; exists 0%Q; split; [reflexivity | split; [lra | reflexivity]]).
  destruct l as [|b0 [|b1 [|b2 [|b3 [|b4 l]]]]];
    try (right; exists 0%Q; split; [reflexivity | split; [lra | reflexivity]]).
  destruct (to_number b0) as [n0|] eqn:H0;
    [|left; unfold areaOf, bad_box; simpl; rewrite H0; auto].
  destruct (to_number b1) as [n1|] eqn:H1;
    [|left; unfold areaOf, bad_box; simpl; rewrite H0, H1; auto].
  destruct (to_number b2) as [n2|] eqn:H2;
    [|left; unfold areaOf, bad_box; simpl; rewrite H0, H1, H2; auto].
  destruct (to_number b3) as [n3|] eqn:H3;
    [|left; unfold areaOf, bad_box; simpl; rewrite H0, H1, H2, H3; auto].
  right. rewrite (areaOf_some b0 b1 b2 b3 n0 n1 n2 n3 H0 H1 H2 H3).
  destruct (area_core (clamp_coord n0) (clamp_coord n1) (clamp_coord n2) (clamp_coord n3)
              (clamp_coord_bounds n0) (clamp_coord_bounds n1)
              (clamp_coord_bounds n2) (clamp_coord_bounds n3)) as (q & Eq & Hq & _).
  exists q. rewrite Eq. split; [reflexivity|]. split; [exact Hq|].
  unfold bad_box. simpl. rewrite H0, H1, H2, H3. reflexivity.
Qed.

Lemma label_includes_spec (needle : string) (it : jvalue) (b : bool) :
  label_includes needle it = Some b -> b = includes (to_lower (item_label it)) needle.
Proof.
  unfold label_includes, item_label, get_prop.
  destruct it as [| | | | |fs]; try (intro H; inversion H; reflexivity); try discriminate.
  destruct (lookup "label" fs) as [v|]; [|intro H; inversion H; reflexivity].
  destruct v as [|[]|[m e|[]|]|s| |]; simpl; try (intro H; inversion H; reflexivity);
    try discriminate.
  - destruct (m =? 0); simpl; intro H; inversion H; reflexivity.
  - destruct (String.eqb s EmptyString) eqn:E; simpl; intro H; inversion H; [|reflexivity].
    apply String.eqb_eq in E. subst s. reflexivity.
Qed.

Lemma item_box (it : jvalue) : it <> JNull ->
  get_prop it "box_2d" = Some (field "box_2d" it) /\
  areaOf (field "box_2d" it) =
    (if bad_box (field "box_2d" it) then None else Some (item_area it)).
Proof.
  intro Hn. destruct it as [| | | | |fs]; try (split; reflexivity).
  - congruence.
  - split; [reflexivity|]. unfold item_area. simpl field.
    destruct (areaOf_cases (lookup "box_2d" fs)) as [[-> ->]|(q & -> & _ & ->)]; reflexivity.
Qed.

Lemma item_area_fin (it : jvalue) : bad_box (field "box_2d" it) = false ->
  exists q, item_area it = XFin q /\ (0 <= q <= 1)%Q.
Proof.
  intros Hb. destruct it as [| | | | |fs]; try (exists 0%Q; split; [reflexivity|lra]).
  unfold item_area. simpl field in Hb.
  destruct (areaOf_cases (lookup "box_2d" fs)) as [[_ Hb']|(q & -> & Hq & _)];
    [congruence|]. exists q. auto.
Qed.

Lemma filter_items_some (needle : string) (items m : list jvalue) :
  filter_items needle items = Some m ->
  m = filter (fun it => includes (to_lower (item_label it)) needle) items /\
  Forall (fun it => it <> JNull) m.
Proof.
  revert m. induction items as [|it rest IH]; intros m Hf; simpl in Hf.
  - injection Hf as <-. split; [reflexivity | constructor].
  - destruct (label_includes needle it) as [b|] eqn:E1; [|discriminate].
    destruct (filter_items needle rest) as [m'|] eqn:E2; [|discriminate].
    injection Hf as <-. destruct (IH m' eq_refl) as [-> Hm'].
    simpl. rewrite <- (label_includes_spec _ _ _ E1). destruct b; [|split; auto].
    split; [reflexivity|]. constructor; [|exact Hm'].
    intros ->. discriminate.
Qed.

(** The reduce over the matching items: it throws at a box [areaOf] throws
    on, and otherwise adds the areas from left to right. *)
Lemma sum_areas_fold (acc : xnum) (m : list jvalue) :
  Forall (fun it => it <> JNull) m ->
  sum_areas acc m =
    if existsb (fun it => bad_box (field "box_2d" it)) m then None
    else Some (fold_left (fun a it => x_add a (item_area it)) m acc).
Proof.
  revert acc. induction m as [|it rest IH]; intros acc Hm; [reflexivity|].
  inversion Hm as [|? ? Hn Hrest]; subst. destruct (item_box it Hn) as [Hg Ha].
  simpl. rewrite Hg, Ha. destruct (bad_box (field "box_2d" it)); [reflexivity|].
  simpl. apply IH. exact Hrest.
Qed.

Lemma dsum_fold (needle : string) (acc : xnum) (items : list jvalue) :
  label_area_dsum needle acc items =
  fold_left (fun a it => x_add a (item_area it))
            (filter (fun it => includes (to_lower (item_label it)) needle) items) acc.
Proof.
  revert acc. induction items as [|it rest IH]; intros acc; [reflexivity|].
  simpl. destruct (includes (to_lower (item_label it)) needle); apply IH.
Qed.

(** The area [analyzeImage] sums for a label is [label_area_dsum]. *)
Lemma matched_area_dsum (needle : string) (items : list jvalue) (x : xnum) :
  matched_area needle items = Some x -> x = label_area_dsum needle (XFin 0) items.
Proof.
  unfold matched_area. destruct (filter_items needle items) as [m|] eqn:E; [|discriminate].
  destruct (filter_items_some needle items m E) as [Hm Hn].
  rewrite (sum_areas_fold _ _ Hn). destruct (existsb _ m); [discriminate|].
  intros H. injection H as <-. rewrite dsum_fold, <- Hm. reflexivity.
Qed.

Lemma x_add_nonneg (a : xnum) (q : Q) :
  (a = XInf false \/ exists p, a = XFin p /\ (0 <= p)%Q) -> (0 <= q)%Q ->
  x_add a (XFin q) = XInf false \/ exists p, x_add a (XFin q) = XFin p /\ (0 <= p)%Q.
Proof.
  intros [->|(p & -> & Hp)] Hq; [left; reflexivity|].
  apply x_round_nonneg. lra.
Qed.

Lemma sum_areas_nonneg (acc x : xnum) (m : list jvalue) :
  (acc = XInf false \/ exists p, acc = XFin p /\ (0 <= p)%Q) ->
  sum_areas acc m = Some x ->
  x = XInf false \/ exists p, x = XFin p /\ (0 <= p)%Q.
Proof.
  revert acc. induction m as [|it rest IH]; intros acc Hacc Hs; simpl in Hs.
  - injection Hs as <-. exact Hacc.
  - destruct (get_prop it "box_2d") as [box|]; [|discriminate].
    destruct (areaOf_cases box) as [[E _]|(q & E & Hq & _)]; rewrite E in Hs; [discriminate|].
    apply (IH _ (x_add_nonneg acc q Hacc ltac:(lra)) Hs).
Qed.

Lemma matched_area_nonneg (needle : string) (items : list jvalue) (x : xnum) :
  matched_area needle items = Some x ->
  x = XInf false \/ exists p, x = XFin p /\ (0 <= p)%Q.
Proof.
  unfold matched_area. destruct (filter_items needle items) as [m|]; [|discriminate].
  apply sum_areas_nonneg. right. exists 0%Q. split; [reflexivity | lra].
Qed.

Lemma coverage_mul (x : xnum) :
  coverage x =
  match x_mul x (XFin 100) with
  | XFin q => NumFin (Qfloor (qmax 0 (qmin 100 q) + (1 # 2))) 0
  | XInf false => NumFin 100 0
  | XInf true => NumFin 0 0
  | XNaN => NumNaN
  end.
Proof.
  unfold coverage. destruct (x_mul x (XFin 100)) as [q|[|]|];
    [rewrite js_min_fin, js_max_fin | | |]; reflexivity.
Qed.

Lemma round_bounds (t : Q) : 0 <= Qfloor (qmax 0 (qmin 100 t) + (1 # 2)) <= 100.
Proof.
  assert (H : (0 <= qmax 0 (qmin 100 t) <= 100)%Q) by (qcases; lra).
  split.
  - apply (Z.le_trans _ (Qfloor (0 + (1 # 2)))); [vm_compute; discriminate|].
    apply Qfloor_resp_le. lra.
  - apply (Z.le_trans _ (Qfloor (100 + (1 # 2)))); [|vm_compute; discriminate].
    apply Qfloor_resp_le. lra.
Qed.

(** The backfilled coverage of a non-negative area is an integer in
    [0,100]. *)
Lemma coverage_range (x : xnum) :
  (x = XInf false \/ exists p, x = XFin p /\ (0 <= p)%Q) ->
  exists z, coverage x = NumFin z 0 /\ 0 <= z <= 100.
Proof.
  intros Hx. rewrite coverage_mul.
  destruct Hx as [->|(p & -> & Hp)]; [exists 100; split; [reflexivity | lia]|].
  change (x_mul (XFin p) (XFin 100)) with (x_round (p * 100)).
  destruct (x_round_nonneg (p * 100) ltac:(nra)) as [->|(q & -> & _)];
    [exists 100; split; [reflexivity | lia]|].
  eexists. split; [reflexivity | apply round_bounds].
Qed.

Lemma coverage_dbl (needle : string) (items : list jvalue) (x : xnum) :
  matched_area needle items = Some x -> coverage x = aggregate_coverage_dbl needle items.
Proof.
  intros H. rewrite coverage_mul, (matched_area_dsum _ _ _ H). reflexivity.
Qed.

Ltac eqb_lits :=
  repeat match goal with
  | |- context [String.eqb ?a ?b] =>
      let e := eval vm_compute in (String.eqb a b) in
      match e with
      | true => change (String.eqb a b) with true
      | false => change (String.eqb a b) with false
      end
  end; cbn iota beta.

(** The fields of the derived object, when [items] is an array. *)
Lemma derive_items_fields (fs : list (string * jvalue)) (items : list jvalue) (r : jvalue) :
  lookup "items" fs = Some (JArr items) -> derive (JObj fs) = Some r ->
  exists xw xc, matched_area "weed" items = Some xw /\
                matched_area "crop" items = Some xc /\
  forall k, field k r =
    if String.eqb k "totalArea" then
      (if nullish (lookup k fs) then Some (JNum (NumFin 100 0)) else lookup k fs)
    else if String.eqb k "healthyCropCoverage" then
      (if missing_or_nan (lookup k fs) then Some (JNum (coverage xc)) else lookup k fs)
    else if String.eqb k "weedCoverage" then
      (if missing_or_nan (lookup k fs) then Some (JNum (coverage xw)) else lookup k fs)
    else lookup k fs.
Proof.
  intros Hi Hd. unfold derive in Hd. rewrite Hi in Hd.
  destruct (matched_area "weed" items) as [xw|] eqn:Ew; [|discriminate].
  destruct (matched_area "crop" items) as [xc|] eqn:Ec; [|discriminate].
  cbv zeta in Hd. injection Hd as <-.
  exists xw, xc. split; [reflexivity|]. split; [reflexivity|]. intro k. unfold field.
  destruct (missing_or_nan (lookup "weedCoverage" fs)) eqn:E1;
    rewrite ?lookup_obj_set; eqb_lits;
    destruct (missing_or_nan (lookup "healthyCropCoverage" fs)) eqn:E2;
    rewrite ?lookup_obj_set; eqb_lits;
    destruct (nullish (lookup "totalArea" fs)) eqn:E3;
    rewrite ?lookup_obj_set; eqb_lits;
    (destruct (String.eqb k "totalArea") eqn:K1;
     [apply String.eqb_eq in K1; subst k; eqb_lits; rewrite ?E3; reflexivity|]);
    (destruct (String.eqb k "healthyCropCoverage") eqn:K2;
     [apply String.eqb_eq in K2; subst k; eqb_lits; rewrite ?E2; reflexivity|]);
    (destruct (String.eqb k "weedCoverage") eqn:K3;
     [apply String.eqb_eq in K3; subst k; eqb_lits; rewrite ?E1; reflexivity|]);
    rewrite ?(String.eqb_sym "totalArea" k), ?(String.eqb_sym "healthyCropCoverage" k),
            ?(String.eqb_sym "weedCoverage" k), ?K1, ?K2, ?K3; reflexivity.
Qed.

(** ** The normalizer *)

Lemma derive_no_items (fs : list (string * jvalue)) :
  (forall items, lookup "items" fs <> Some (JArr items)) -> derive (JObj fs) = Some (JObj fs).
Proof.
  intro H. unfold derive.
  destruct (lookup "items" fs) as [[| | | | l |]|] eqn:E; try reflexivity.
  exfalso. exact (H l eq_refl).
Qed.

Lemma items_cases (fs : list (string * jvalue)) :
  (exists items, lookup "items" fs = Some (JArr items)) \/
  (forall items, lookup "items" fs <> Some (JArr items)).
Proof.
  destruct (lookup "items" fs) as [[| | | | l |]|];
    try (right; intros items H; discriminate H). left. exists l. reflexivity.
Qed.

(** The analysis stored for a text with no JSON-like span. *)
Lemma fallback_normalized (text : string) :
  json_match text = None ->
  normalize text =
  Some (JObj [("items", JArr []); ("weedCoverage", JNum (NumFin 0 0));
              ("healthyCropCoverage", JNum (NumFin 100 0));
              ("recommendations", JArr [JStr "Unable to analyze image details"]);
              ("totalArea", JNum (NumFin 100 0))]).
Proof. intro H. unfold normalize, segmentation_of. rewrite H. vm_compute. reflexivity. Qed.

(** C1 (amended).  A model answer with no JSON-like span is normalized to
    the fallback object (no items, weed coverage 0, healthy-crop coverage
    100, one recommendation, [totalArea] 100); when the image is read, the
    model answers with that text and the [completed] update succeeds, the
    worker's only write marks the row [completed] with it.  A text whose
    extracted span does not parse has no normalization, and its worker's
    only write (if that update succeeds) marks the row [failed]. *)
Theorem no_json_span_completes (text : string) (Hnone : json_match text = None) :
  let r := JObj [("items", JArr []); ("weedCoverage", JNum (NumFin 0 0));
                 ("healthyCropCoverage", JNum (NumFin 100 0));
                 ("recommendations", JArr [JStr "Unable to analyze image details"]);
                 ("totalArea", JNum (NumFin 100 0))] in
  normalize text = Some r /\
  (forall env, env_read_ok env = true -> env_response env = Some (Some text) ->
     env_complete_ok env = true -> analyze_image env = [WComplete text (stringify r)]) /\
  (forall text' span env, json_match text' = Some span -> json_parse span = None ->
     normalize text' = None /\
     (env_read_ok env = true -> env_response env = Some (Some text') ->
      analyze_image env = if env_failed_ok env then [WFailed] else [])).
Proof.
  intro r. split; [exact (fallback_normalized text Hnone)|]. split.
  - intros env H1 H2 H3. unfold analyze_image. rewrite H1, H2, H3.
    simpl negb. cbv iota beta. rewrite (fallback_normalized text Hnone). reflexivity.
  - intros text' span env Hm Hp.
    assert (Hn : normalize text' = None)
      by (unfold normalize, segmentation_of; rewrite Hm, Hp; reflexivity).
    split; [exact Hn|]. intros H1 H2. unfold analyze_image. rewrite H1, H2.
    simpl negb. cbv iota beta. rewrite Hn. reflexivity.
Qed.

(** The text of [demo_env] has no span, and its run completes. *)
Lemma no_json_span_completes_witness :
  json_match "not json at all" = None /\
  analyze_image demo_env =
  [WComplete "not json at all"
     (stringify (JObj [("items", JArr []); ("weedCoverage", JNum (NumFin 0 0));
                       ("healthyCropCoverage", JNum (NumFin 100 0));
                       ("recommendations", JArr [JStr "Unable to analyze image details"]);
                       ("totalArea", JNum (NumFin 100 0))]))].
Proof.
  split; [reflexivity|].
  destruct (no_json_span_completes "not json at all" eq_refl) as [_ [H _]].
  apply H; reflexivity.
Defined.

(** Counterexample to C1: a brace-delimited span that is not JSON makes
    [JSON.parse] throw, and the worker marks the row [failed]. *)
Lemma malformed_span_fails :
  json_match braces_text = Some "{oops}" /\ json_parse "{oops}" = None /\
  normalize braces_text = None /\
  analyze_image (mk_env true (Some (Some braces_text)) true true) = [WFailed].
Proof. vm_compute. repeat split. Qed.



(** C3 (amended).  For a parsed payload whose [items] is an array, an
    absent [weedCoverage] (resp. [healthyCropCoverage]) is backfilled with
    the coverage of the items whose label contains "weed" (resp. "crop")
    case-insensitively, computed in double arithmetic: their areas added
    from left to right, times 100, clamped into [0,100] and rounded; the
    single item "Weed patch" with box [100,100,300,300] gives 4. *)
Theorem backfilled_coverage (text : string) (fs : list (string * jvalue))
  (items : list jvalue) (r : jvalue)
  (Hseg : segmentation_of text = Some (JObj fs))
  (Hitems : lookup "items" fs = Some (JArr items))
  (Hn : normalize text = Some r) :
  (lookup "weedCoverage" fs = None ->
   field "weedCoverage" r = Some (JNum (aggregate_coverage_dbl "weed" items))) /\
  (lookup "healthyCropCoverage" fs = None ->
   field "healthyCropCoverage" r = Some (JNum (aggregate_coverage_dbl "crop" items))) /\
  aggregate_coverage_dbl "weed" [weed_patch_item] = NumFin 4 0.
Proof.
  unfold normalize in Hn. rewrite Hseg in Hn.
  destruct (derive_items_fields fs items r Hitems Hn) as [xw [xc [Hw [Hc Hf]]]].
  split; [|split].
  - intro Ha. rewrite Hf. eqb_lits. rewrite Ha. simpl.
    rewrite (coverage_dbl _ _ _ Hw). reflexivity.
  - intro Ha. rewrite Hf. eqb_lits. rewrite Ha. simpl.
    rewrite (coverage_dbl _ _ _ Hc). reflexivity.
  - vm_compute. reflexivity.
Qed.

(** The "Weed patch" answer: weed coverage 4. *)
Lemma backfilled_coverage_witness :
  normalize weed_patch_text = Some weed_patch_result /\
  field "weedCoverage" weed_patch_result = Some (JNum (NumFin 4 0)).
Proof.
  assert (Hn : normalize weed_patch_text = Some weed_patch_result)
    by (vm_compute; reflexivity).
  split; [exact Hn|].
  destruct (backfilled_coverage weed_patch_text [("items", JArr [weed_patch_item])]
              [weed_patch_item] weed_patch_result ltac:(vm_compute; reflexivity)
              eq_refl Hn) as [H1 [_ H3]].
  rewrite (H1 eq_refl), H3. reflexivity.
Defined.

(** Counterexample to C3: the weed box [0,0,1000,145] covers exactly
    14.5% of the image, which the design rounds to 15; in doubles the area
    is 0.14499999999999999 and the stored coverage is 14. *)
Lemma coverage_double_rounding :
  (exists r, normalize strip_text = Some r /\
             field "weedCoverage" r = Some (JNum (NumFin 14 0))) /\
  aggregate_coverage "weed" [strip_item] = 15.
Proof. split; [eexists; split; [vm_compute; reflexivity | reflexivity] | vm_compute; reflexivity]. Qed.

(** C4 (amended).  In the normalized analysis, a coverage field that the
    derivation backfills (the parsed object has an [items] array and the
    field is missing, null or NaN) is an integer in [0,100]; any other is
    the field of the parsed payload, passed through unchanged. *)
Theorem coverage_range_or_passthrough (text : string) (r : jvalue)
  (Hn : normalize text = Some r) (k : string)
  (Hk : k = "weedCoverage" \/ k = "healthyCropCoverage") :
  exists sd, segmentation_of text = Some sd /\
    ((exists items, field "items" sd = Some (JArr items)) ->
     missing_or_nan (field k sd) = true ->
     exists z, field k r = Some (JNum (NumFin z 0)) /\ 0 <= z <= 100) /\
    ((forall items, field "items" sd <> Some (JArr items)) \/
     missing_or_nan (field k sd) = false ->
     field k r = field k sd).
Proof.
  unfold normalize in Hn. destruct (segmentation_of text) as [sd|]; [|discriminate].
  exists sd. split; [reflexivity|].
  destruct sd as [| | | | |fs];
    try (injection Hn as <-; split; [intros [items Hi]; discriminate Hi | reflexivity]).
  - discriminate.
  - simpl field. destruct (items_cases fs) as [[items Hi]|Hi].
    + destruct (derive_items_fields fs items r Hi Hn) as [xw [xc [Hw [Hc Hf]]]].
      rewrite Hf. destruct Hk as [->| ->]; eqb_lits.
      * split.
        -- intros _ Hm. rewrite Hm.
           destruct (coverage_range xw (matched_area_nonneg _ _ _ Hw)) as (z & Hz & Hb).
           exists z. rewrite Hz. auto.
        -- intros [Hno|Hm]; [exfalso; exact (Hno items Hi)|]. rewrite Hm. reflexivity.
      * split.
        -- intros _ Hm. rewrite Hm.
           destruct (coverage_range xc (matched_area_nonneg _ _ _ Hc)) as (z & Hz & Hb).
           exists z. rewrite Hz. auto.
        -- intros [Hno|Hm]; [exfalso; exact (Hno items Hi)|]. rewrite Hm. reflexivity.
    + rewrite (derive_no_items fs Hi) in Hn. injection Hn as <-.
      split; [|reflexivity]. intros [items H]. exfalso. exact (Hi items H).
Qed.

Lemma coverage_range_or_passthrough_witness :
  normalize weed_patch_text = Some weed_patch_result /\
  exists sd, segmentation_of weed_patch_text = Some sd /\
    ((exists items, field "items" sd = Some (JArr items)) ->
     missing_or_nan (field "weedCoverage" sd) = true ->
     exists z, field "weedCoverage" weed_patch_result = Some (JNum (NumFin z 0)) /\
               0 <= z <= 100) /\
    ((forall items, field "items" sd <> Some (JArr items)) \/
     missing_or_nan (field "weedCoverage" sd) = false ->
     field "weedCoverage" weed_patch_result = field "weedCoverage" sd).
Proof.
  assert (Hn : normalize weed_patch_text = Some weed_patch_result)
    by (vm_compute; reflexivity).
  split; [exact Hn|].
  exact (coverage_range_or_passthrough weed_patch_text weed_patch_result Hn
           "weedCoverage" (or_introl eq_refl)).
Defined.

(** Counterexample to C4: a parsed [weedCoverage] of 250 is stored as is. *)
Lemma coverage_kept_unclamped :
  exists r, normalize big_weed_text = Some r /\
            field "weedCoverage" r = Some (JNum (NumFin 250 0)).
Proof. eexists. split; [vm_compute; reflexivity | reflexivity]. Qed.

(** C5 (amended).  When the parsed object has an [items] array, a null or
    absent weed or crop coverage is backfilled from the geometry of the
    items (in double arithmetic), a null or absent [totalArea] becomes 100,
    and a numeric field other than NaN is kept as parsed; without an
    [items] array the object is left unchanged. *)
Theorem backfill_or_keep (fs : list (string * jvalue)) (r : jvalue)
  (Hd : derive (JObj fs) = Some r) :
  (forall items, lookup "items" fs = Some (JArr items) ->
     (nullish (lookup "weedCoverage" fs) = true ->
      field "weedCoverage" r = Some (JNum (aggregate_coverage_dbl "weed" items))) /\
     (nullish (lookup "healthyCropCoverage" fs) = true ->
      field "healthyCropCoverage" r = Some (JNum (aggregate_coverage_dbl "crop" items))) /\
     (nullish (lookup "totalArea" fs) = true ->
      field "totalArea" r = Some (JNum (NumFin 100 0))) /\
     (forall k n, k = "weedCoverage" \/ k = "healthyCropCoverage" \/ k = "totalArea" ->
        lookup k fs = Some (JNum n) -> n <> NumNaN -> field k r = Some (JNum n))) /\
  ((forall items, lookup "items" fs <> Some (JArr items)) -> r = JObj fs).
Proof.
  split.
  - intros items Hi.
    destruct (derive_items_fields fs items r Hi Hd) as [xw [xc [Hw [Hc Hf]]]].
    split; [|split; [|split]].
    + intro Ha. rewrite Hf. eqb_lits.
      destruct (lookup "weedCoverage" fs) as [[]|]; try discriminate Ha; simpl;
        rewrite (coverage_dbl _ _ _ Hw); reflexivity.
    + intro Ha. rewrite Hf. eqb_lits.
      destruct (lookup "healthyCropCoverage" fs) as [[]|]; try discriminate Ha; simpl;
        rewrite (coverage_dbl _ _ _ Hc); reflexivity.
    + intro Ha. rewrite Hf. eqb_lits. rewrite Ha. reflexivity.
    + intros k n Hk Hl Hnan. rewrite Hf.
      destruct Hk as [->|[->| ->]]; eqb_lits; rewrite Hl;
        destruct n; simpl; try reflexivity; congruence.
  - intro Hi. rewrite (derive_no_items fs Hi) in Hd. injection Hd as <-. reflexivity.
Qed.

Lemma backfill_or_keep_witness :
  derive (JObj [("items", JArr [weed_patch_item])]) = Some weed_patch_result /\
  field "weedCoverage" weed_patch_result = Some (JNum (NumFin 4 0)).
Proof.
  assert (Hd : derive (JObj [("items", JArr [weed_patch_item])]) = Some weed_patch_result)
    by (vm_compute; reflexivity).
  split; [exact Hd|].
  destruct (backfill_or_keep _ _ Hd) as [H _].
  destruct (H [weed_patch_item] eq_refl) as [H1 _].
  rewrite (H1 eq_refl). vm_compute. reflexivity.
Defined.

(** Counterexample to C5: without [items], a missing [weedCoverage] and
    [totalArea] stay missing. *)
Lemma coverage_not_backfilled_without_items :
  exists r, normalize crop_only_text = Some r /\
            field "weedCoverage" r = None /\ field "totalArea" r = None.
Proof. eexists. split; [vm_compute; reflexivity | split; reflexivity]. Qed.

(** C6 (amended).  Normalization passes [items] and [recommendations] of
    the parsed object through unchanged (no default); an unspecified
    [totalArea] becomes 100 only when [items] is an array, and is passed
    through otherwise. *)
Theorem items_recs_passthrough (fs : list (string * jvalue)) (r : jvalue)
  (Hd : derive (JObj fs) = Some r) :
  field "items" r = lookup "items" fs /\
  field "recommendations" r = lookup "recommendations" fs /\
  (forall items, lookup "items" fs = Some (JArr items) ->
     nullish (lookup "totalArea" fs) = true ->
     field "totalArea" r = Some (JNum (NumFin 100 0))) /\
  ((forall items, lookup "items" fs <> Some (JArr items)) ->
     field "totalArea" r = lookup "totalArea" fs).
Proof.
  destruct (items_cases fs) as [[items Hi]|Hi].
  - destruct (derive_items_fields fs items r Hi Hd) as [wa [ca [_ [_ Hf]]]].
    split; [|split; [|split]].
    + rewrite Hf. eqb_lits. reflexivity.
    + rewrite Hf. eqb_lits. reflexivity.
    + intros items' _ Ha. rewrite Hf. eqb_lits. rewrite Ha. reflexivity.
    + intro H. exfalso. exact (H items Hi).
  - rewrite (derive_no_items fs Hi) in Hd. injection Hd as <-.
    split; [|split; [|split]]; try reflexivity.
    intros items H. exfalso. exact (Hi items H).
Qed.

Lemma items_recs_passthrough_witness :
  derive (JObj [("items", JArr [weed_patch_item])]) = Some weed_patch_result /\
  field "totalArea" weed_patch_result = Some (JNum (NumFin 100 0)).
Proof.
  assert (Hd : derive (JObj [("items", JArr [weed_patch_item])]) = Some weed_patch_result)
    by (vm_compute; reflexivity).
  split; [exact Hd|].
  destruct (items_recs_passthrough _ _ Hd) as [_ [_ [H _]]].
  exact (H [weed_patch_item] eq_refl eq_refl).
Defined.

(** Counterexample to C6: the payload [{}] is stored as [{}], with no
    [items], [recommendations] or [totalArea]. *)
Lemma empty_object_not_defaulted :
  normalize "{}" = Some (JObj []) /\
  field "items" (JObj []) = None /\ field "recommendations" (JObj []) = None /\
  field "totalArea" (JObj []) = None.
Proof. vm_compute. repeat split. Qed.

(** ** Writing the analysis back and reading it again *)

Lemma append_assoc (a b c : string) : (a ++ b) ++ c = a ++ (b ++ c).
Proof. induction a as [|x a IH]; simpl; [reflexivity | rewrite IH; reflexivity]. Qed.

Lemma length_append (a b : string) : String.length (a ++ b) = (String.length a + String.length b)%nat.
Proof. induction a as [|x a IH]; simpl; [reflexivity | rewrite IH; reflexivity]. Qed.

Lemma stringify_arr (l : list jvalue) : stringify (JArr l) = "[" ++ elems_text true l ++ "]".
Proof. reflexivity. Qed.

Lemma stringify_obj (fs : list (string * jvalue)) :
  stringify (JObj fs) = "{" ++ mems_text true fs ++ "}".
Proof. reflexivity. Qed.

Lemma escape_char_parse (c : ascii) (t : string) :
  parse_string_body (escape_char c ++ t) = cons_res c (parse_string_body t).
Proof.
  destruct c as [[] [] [] [] [] [] [] []]; reflexivity.
Qed.

Lemma escape_parse (s rest : string) :
  parse_string_body (escape s ++ String dquote rest) = Some (s, rest).
Proof.
  induction s as [|c s IH]; [reflexivity|].
  simpl. rewrite append_assoc, escape_char_parse, IH. reflexivity.
Qed.

Lemma read_digits_uint (u : uint) (X : string) :
  no_digit_head X -> read_digits (NilEmpty.string_of_uint u ++ X) = (u, X).
Proof.
  intro HX. induction u; simpl; try (rewrite IHu; reflexivity).
  destruct X as [|c t]; [reflexivity|]. simpl in HX. simpl. rewrite HX. reflexivity.
Qed.

Lemma to_uint_nonnil (n : N) : N.to_uint n <> Nil.
Proof. destruct n as [|p]; [discriminate|]. apply DecimalPos.Unsigned.to_uint_nonnil. Qed.

Lemma to_uint_lead0 (n : N) (u : uint) : N.to_uint n = D0 u -> n = 0%N /\ u = Nil.
Proof.
  intro H.
  assert (E : N.to_uint n = unorm (N.to_uint n)).
  { rewrite <- DecimalN.Unsigned.to_of, DecimalN.Unsigned.of_to. reflexivity. }
  rewrite H, unorm_D0 in E.
  destruct u as [|u'|u'|u'|u'|u'|u'|u'|u'|u'|u'] eqn:Hu.
  { split; [|reflexivity]. rewrite <- (DecimalN.Unsigned.of_to n), H. reflexivity. }
  all: exfalso; assert (Hle := nb_digits_unorm u ltac:(subst; discriminate));
       subst u; rewrite <- E in Hle; simpl in Hle; lia.
Qed.

Lemma minus_sign_digits (n : N) (Y : string) :
  minus_sign (digits_of_N n ++ Y) = (false, digits_of_N n ++ Y).
Proof.
  unfold digits_of_N. pose proof (to_uint_nonnil n).
  destruct (N.to_uint n); [congruence | reflexivity ..].
Qed.

Lemma exp_sign_digits (n : N) (Y : string) :
  exp_sign (digits_of_N n ++ Y) = (false, digits_of_N n ++ Y).
Proof.
  unfold digits_of_N. pose proof (to_uint_nonnil n).
  destruct (N.to_uint n); [congruence | reflexivity ..].
Qed.

Lemma int_part_digits (n : N) (Y : string) :
  no_digit_head Y -> int_part (digits_of_N n ++ Y) = Some (N.to_uint n, Y).
Proof.
  intro HY. unfold digits_of_N. pose proof (to_uint_nonnil n).
  destruct (N.to_uint n) as [|u|u|u|u|u|u|u|u|u|u] eqn:Hd; [congruence| | ..].
  { destruct (to_uint_lead0 n u Hd) as [_ ->]. reflexivity. }
  all: unfold int_part; simpl; rewrite (read_digits_uint u Y HY); reflexivity.
Qed.

Lemma read_digits_N (n : N) (Y : string) :
  no_digit_head Y -> read_digits (digits_of_N n ++ Y) = (N.to_uint n, Y).
Proof. apply read_digits_uint. Qed.

Lemma uint_of_digits_N (n : N) : uint_of_digits (N.to_uint n) = Z.of_N n.
Proof. unfold uint_of_digits. rewrite DecimalN.Unsigned.of_to. reflexivity. Qed.

Lemma ends_value_facts (X : string) :
  ends_value X ->
  no_digit_head X /\ parse_fraction X = Some (Nil, X) /\ parse_exponent X = Some (0, X).
Proof.
  destruct X as [|c t]; [intros _; repeat split|].
  intros [->|[->| ->]]; repeat split.
Qed.

Lemma exponent_text (e : Z) (X : string) :
  ends_value X ->
  let Y := if e =? 0 then X else "e" ++ print_Z e ++ X in
  no_digit_head Y /\ parse_fraction Y = Some (Nil, Y) /\ parse_exponent Y = Some (e, X).
Proof.
  intros HX Y. destruct (ends_value_facts X HX) as [H1 [H2 H3]].
  unfold Y. destruct (e =? 0) eqn:He.
  - apply Z.eqb_eq in He. subst e. auto.
  - split; [reflexivity|]. split; [reflexivity|].
    simpl. unfold print_Z.
    destruct (e <? 0) eqn:Hneg.
    + rewrite append_assoc. simpl.
      rewrite (read_digits_N _ _ H1). pose proof (to_uint_nonnil (Z.abs_N e)).
      destruct (N.to_uint (Z.abs_N e)) eqn:Hd; [congruence| ..];
        rewrite <- Hd, uint_of_digits_N, Zabs2N.id_abs; f_equal; f_equal; lia.
    + rewrite exp_sign_digits. cbv beta iota.
      rewrite (read_digits_N _ _ H1). pose proof (to_uint_nonnil (Z.abs_N e)).
      destruct (N.to_uint (Z.abs_N e)) eqn:Hd; [congruence| ..];
        rewrite <- Hd, uint_of_digits_N, Zabs2N.id_abs; f_equal; f_equal; lia.
Qed.

Lemma jsize_arr (l : list jvalue) : jsize (JArr l) = S (elems_size l).
Proof. reflexivity. Qed.

Lemma jsize_obj (fs : list (string * jvalue)) : jsize (JObj fs) = S (mems_size fs).
Proof. reflexivity. Qed.

Lemma parse_value_numeric (n : nat) (c : ascii) (r : string) :
  ((c =? "-")%char || is_digit c) = true ->
  parse_value (S n) (String c r) =
  match parse_number (String c r) with Some (x, r') => Some (JNum x, r') | None => None end.
Proof. destruct c as [[] [] [] [] [] [] [] []]; try discriminate; reflexivity. Qed.

Lemma parse_value_arr_open (n : nat) (c : ascii) (t : string) :
  is_ws c = false -> (c =? "]")%char = false ->
  parse_value (S n) (String "[" (String c t)) = parse_elems n (String c t) [].
Proof. destruct c as [[] [] [] [] [] [] [] []]; try discriminate; reflexivity. Qed.

Lemma print_num_head (m e : Z) (X : string) :
  exists c t, print_num (NumFin m e) ++ X = String c t /\
              ((c =? "-")%char || is_digit c) = true /\
              is_ws c = false /\ (c =? "]")%char = false.
Proof.
  unfold print_num.
  assert (H : forall Y, exists c t, print_Z m ++ Y = String c t /\
                ((c =? "-")%char || is_digit c) = true /\
                is_ws c = false /\ (c =? "]")%char = false).
  { intro Y. unfold print_Z. destruct (m <? 0).
    - do 2 eexists. split; [reflexivity | repeat split].
    - unfold digits_of_N. pose proof (to_uint_nonnil (Z.abs_N m)).
      destruct (N.to_uint (Z.abs_N m)); [congruence | ..];
        do 2 eexists; (split; [reflexivity | repeat split]). }
  destruct (e =? 0); [apply H|]. rewrite append_assoc. apply H.
Qed.

Lemma stringify_head (v : jvalue) (X : string) :
  exists c t, stringify v ++ X = String c t /\ is_ws c = false /\ (c =? "]")%char = false.
Proof.
  destruct v as [|[]|[m e|[]|]|s|l|fs];
    try (do 2 eexists; split; [reflexivity | split; reflexivity]).
  destruct (print_num_head m e X) as [c [t [H1 [_ [H2 H3]]]]].
  exists c, t. simpl stringify. auto.
Qed.

Lemma append_nil (s : string) : s ++ EmptyString = s.
Proof. induction s as [|c s IH]; simpl; [reflexivity | rewrite IH; reflexivity]. Qed.

Lemma obj_set_fresh (acc : list (string * jvalue)) (k : string) (x : jvalue) :
  existsb (fun kv => String.eqb (fst kv) k) acc = false ->
  obj_set acc k x = List.app acc [(k, x)].
Proof. intro H. unfold obj_set. rewrite H. reflexivity. Qed.

Lemma distinct_app_fresh (acc : list (string * jvalue)) (k : string) (x : jvalue)
  (fs : list (string * jvalue)) :
  distinct_keys (map fst (List.app acc ((k, x) :: fs))) = true ->
  existsb (fun kv => String.eqb (fst kv) k) acc = false.
Proof.
  induction acc as [|[k0 x0] acc IH]; simpl; intro H; [reflexivity|].
  apply andb_prop in H as [H1 H2]. rewrite (IH H2), orb_false_r.
  destruct (String.eqb k0 k) eqn:E; [|reflexivity].
  apply String.eqb_eq in E. subst k0.
  rewrite map_app, existsb_app in H1. simpl in H1.
  rewrite String.eqb_refl, orb_true_r in H1. discriminate.
Qed.

Lemma quote_app (k t : string) : quote k ++ t = String dquote (escape k ++ String dquote t).
Proof. unfold quote. simpl. rewrite append_assoc. reflexivity. Qed.

Lemma wf_arr (l : list jvalue) : wf_json (JArr l) = forallb wf_json l.
Proof. induction l as [|x l IH]; [reflexivity|]. simpl in *. rewrite IH. reflexivity. Qed.

Lemma wf_obj (fs : list (string * jvalue)) :
  wf_json (JObj fs) =
  distinct_keys (map fst fs) && forallb (fun kv => wf_json (snd kv)) fs.
Proof.
  simpl. f_equal. induction fs as [|[k x] fs IH]; [reflexivity|]. simpl. rewrite IH. reflexivity.
Qed.

Lemma finite_arr (l : list jvalue) : finite_nums (JArr l) = forallb finite_nums l.
Proof. induction l as [|x l IH]; [reflexivity|]. simpl in *. rewrite IH. reflexivity. Qed.

Lemma finite_obj (fs : list (string * jvalue)) :
  finite_nums (JObj fs) = forallb (fun kv => finite_nums (snd kv)) fs.
Proof. induction fs as [|[k x] fs IH]; [reflexivity|]. simpl in *. rewrite IH. reflexivity. Qed.

Lemma derive_idem (sd r : jvalue) : derive sd = Some r -> derive r = Some r.
Proof.
  intro H. destruct sd as [| | | | |fs]; try (injection H as <-; reflexivity).
  - discriminate.
  - unfold derive in H.
    destruct (lookup "items" fs) as [[| | | |items|]|] eqn:Ei;
      try (injection H as <-; unfold derive; rewrite Ei; reflexivity).
    destruct (matched_area "weed" items) as [xw|] eqn:Ew; [|discriminate].
    destruct (matched_area "crop" items) as [xc|] eqn:Ec; [|discriminate].
    destruct (coverage_range xw (matched_area_nonneg _ _ _ Ew)) as (zw & Hzw & _).
    destruct (coverage_range xc (matched_area_nonneg _ _ _ Ec)) as (zc & Hzc & _).
    rewrite Hzw, Hzc in H.
    cbv zeta in H. injection H as <-. unfold derive.
    destruct (missing_or_nan (lookup "weedCoverage" fs)) eqn:E1;
      rewrite ?lookup_obj_set; eqb_lits;
      destruct (missing_or_nan (lookup "healthyCropCoverage" fs)) eqn:E2;
      rewrite ?lookup_obj_set; eqb_lits;
      destruct (nullish (lookup "totalArea" fs)) eqn:E3;
      rewrite ?lookup_obj_set; eqb_lits;
      repeat progress (rewrite ?lookup_obj_set; eqb_lits;
        rewrite ?Ei, ?Ew, ?Ec, ?E1, ?E2, ?E3, ?Hzw, ?Hzc; cbn [missing_or_nan nullish]);
      reflexivity.
Qed.

Lemma map_fst_set (fs : list (string * jvalue)) (k : string) (v : jvalue) :
  map fst (map (fun kv => if String.eqb (fst kv) k then (k, v) else kv) fs) = map fst fs.
Proof.
  induction fs as [|[k0 x] fs IH]; [reflexivity|]. simpl.
  destruct (String.eqb k0 k) eqn:E; simpl; rewrite IH; [|reflexivity].
  apply String.eqb_eq in E. subst. reflexivity.
Qed.

Lemma distinct_app_one (ks : list string) (k : string) :
  distinct_keys ks = true -> existsb (String.eqb k) ks = false ->
  distinct_keys (List.app ks [k]) = true.
Proof.
  induction ks as [|k0 ks IH]; intros Hd He; [reflexivity|].
  simpl in *. apply andb_prop in Hd as [H1 H2]. apply orb_false_iff in He as [He1 He2].
  rewrite (IH H2 He2), andb_true_r, existsb_app. simpl.
  rewrite String.eqb_sym, He1. simpl. rewrite orb_false_r. exact H1.
Qed.

Lemma existsb_keys (fs : list (string * jvalue)) (k : string) :
  existsb (fun kv => String.eqb (fst kv) k) fs = existsb (String.eqb k) (map fst fs).
Proof.
  induction fs as [|[k0 x] fs IH]; [reflexivity|]. simpl. rewrite IH, String.eqb_sym. reflexivity.
Qed.

Lemma forallb_set (fs : list (string * jvalue)) (k : string) (v : jvalue) :
  forallb (fun kv => wf_json (snd kv)) fs = true -> wf_json v = true ->
  forallb (fun kv => wf_json (snd kv)) (obj_set fs k v) = true.
Proof.
  intros H Hv. unfold obj_set. destruct (existsb _ fs).
  - induction fs as [|[k0 x] fs IH]; [reflexivity|]. simpl in *.
    apply andb_prop in H as [H1 H2]. destruct (String.eqb k0 k); simpl; rewrite IH; auto;
      rewrite ?Hv, ?H1; reflexivity.
  - rewrite forallb_app, H. simpl. rewrite Hv. reflexivity.
Qed.

Lemma wf_obj_set (fs : list (string * jvalue)) (k : string) (v : jvalue) :
  wf_json (JObj fs) = true -> wf_json v = true -> wf_json (JObj (obj_set fs k v)) = true.
Proof.
  rewrite !wf_obj. intros H Hv. apply andb_prop in H as [Hd Hw].
  rewrite (forallb_set _ _ _ Hw Hv), andb_true_r.
  unfold obj_set. destruct (existsb _ fs) eqn:E.
  - rewrite map_fst_set. exact Hd.
  - rewrite map_app. apply distinct_app_one; [exact Hd|]. rewrite <- existsb_keys. exact E.
Qed.

Lemma wf_arr_snoc (l : list jvalue) (v : jvalue) :
  wf_json (JArr l) = true -> wf_json v = true -> wf_json (JArr (List.app l [v])) = true.
Proof. rewrite !wf_arr, forallb_app. intros H1 H2. rewrite H1. simpl. rewrite H2. reflexivity. Qed.

Ltac parse_inv H :=
  repeat match type of H with
  | Some _ = Some _ => injection H as <- <-
  | None = Some _ => discriminate H
  | context [match ?x with _ => _ end] =>
      lazymatch x with
      | parse_elems _ _ _ => fail
      | parse_members _ _ _ => fail
      | parse_value _ _ => fail
      | _ => destruct x; cbn beta iota in H
      end
  end.

Lemma parse_wf (n : nat) :
  (forall s v r, parse_value n s = Some (v, r) -> wf_json v = true) /\
  (forall s acc v r, parse_elems n s acc = Some (v, r) -> wf_json (JArr acc) = true ->
     wf_json v = true) /\
  (forall s acc v r, parse_members n s acc = Some (v, r) -> wf_json (JObj acc) = true ->
     exists fs, v = JObj fs /\ wf_json v = true).
Proof.
  induction n as [|n [IHv [IHe IHm]]]; [repeat split; intros; discriminate|].
  repeat split.
  - intros s v r H. cbn [parse_value] in H.
    parse_inv H.
    all: try reflexivity.
    all: try (eapply IHe; [exact H | reflexivity]).
    all: try (destruct (IHm _ _ _ _ H eq_refl) as [? [_ ?]]; assumption).
  - intros s acc v r H Hacc. cbn [parse_elems] in H.
    destruct (parse_value n s) as [[v0 r0]|] eqn:Ev; [|discriminate].
    pose proof (IHv _ _ _ Ev) as Hv0. parse_inv H.
    all: try (apply wf_arr_snoc; assumption).
    all: eapply IHe; [exact H | apply wf_arr_snoc; assumption].
  - intros s acc v r H Hacc. cbn [parse_members] in H. parse_inv H.
    all: try (match type of H with context [parse_value ?m ?t] =>
                destruct (parse_value m t) as [[v0 r0]|] eqn:Ev; [|discriminate] end;
              pose proof (IHv _ _ _ Ev) as Hv0; parse_inv H).
    all: try (eexists; split; [reflexivity | apply wf_obj_set; assumption]).
    all: eapply IHm; [exact H | apply wf_obj_set; assumption].
Qed.

Lemma quote_length (k : string) : (2 <= String.length (quote k))%nat.
Proof. unfold quote. simpl. rewrite length_append. simpl. lia. Qed.

Lemma elems_text_length (l : list jvalue) :
  Forall (fun y => jsize y <= String.length (stringify y))%nat l ->
  forall b, (elems_size l <= String.length (elems_text b l) + (if b then 1 else 0))%nat.
Proof.
  induction l as [|x l IH]; intros H b; [simpl; lia|].
  inversion H as [|? ? Hx Hl]; subst. specialize (IH Hl false).
  simpl elems_text. simpl elems_size. rewrite !length_append.
  destruct b; simpl in *; lia.
Qed.

Lemma mems_text_length (fs : list (string * jvalue)) :
  Forall (fun kv => jsize (snd kv) <= String.length (stringify (snd kv)))%nat fs ->
  forall b, (mems_size fs <= String.length (mems_text b fs) + (if b then 1 else 0))%nat.
Proof.
  induction fs as [|[k x] fs IH]; intros H b; [simpl; lia|].
  inversion H as [|? ? Hx Hl]; subst. specialize (IH Hl false).
  pose proof (quote_length k).
  cbn [mems_text mems_size]. rewrite !length_append.
  simpl in Hx. cbn iota in IH. destruct b; cbn [String.length]; lia.
Qed.

Lemma jsize_length (v : jvalue) : (jsize v <= String.length (stringify v))%nat.
Proof.
  induction v as [| b | x | s | l IHl | fs IHfs] using jvalue_ind'.
  - simpl. lia.
  - destruct b; simpl; lia.
  - destruct x as [m e| |]; [|simpl; lia ..].
    destruct (print_num_head m e EmptyString) as [c [t [Ht _]]].
    rewrite append_nil in Ht. change (stringify (JNum (NumFin m e))) with (print_num (NumFin m e)).
    rewrite Ht. simpl. lia.
  - pose proof (quote_length s). simpl stringify. simpl jsize. lia.
  - rewrite jsize_arr, stringify_arr, !length_append.
    pose proof (elems_text_length l IHl true). simpl in *. lia.
  - rewrite jsize_obj, stringify_obj, !length_append.
    pose proof (mems_text_length fs IHfs true). simpl in *. lia.
Qed.

Lemma upto_last_close_close (s : string) :
  upto_last_close (s ++ "}") = Some (s ++ "}").
Proof. induction s as [|c s IH]; [reflexivity|]. simpl. rewrite IH. reflexivity. Qed.

Lemma json_match_obj (fs : list (string * jvalue)) :
  json_match (stringify (JObj fs)) = Some (stringify (JObj fs)).
Proof.
  rewrite stringify_obj. unfold json_match. simpl.
  rewrite upto_last_close_close. reflexivity.
Qed.

Lemma from_first_open_head (s t : string) :
  from_first_open s = Some t -> exists t', t = String "{" t'.
Proof.
  induction s as [|c s IH]; simpl; [discriminate|].
  destruct (c =? "{")%char eqn:E; [|exact IH].
  intro H. injection H as <-. apply Ascii.eqb_eq in E. subst c. eexists. reflexivity.
Qed.

Lemma upto_last_close_head (c : ascii) (s p : string) :
  upto_last_close (String c s) = Some p -> exists p', p = String c p'.
Proof.
  simpl. destruct (upto_last_close s) as [q|].
  - intro H. injection H as <-. eexists. reflexivity.
  - destruct (c =? "}")%char; [|discriminate]. intro H. injection H as <-. eexists. reflexivity.
Qed.

Lemma parse_obj_open (n : nat) (p : string) (v : jvalue) (r : string) :
  parse_value n (String "{" p) = Some (v, r) -> exists fs, v = JObj fs /\ wf_json v = true.
Proof.
  destruct n as [|n]; [discriminate|]. intro H. simpl in H.
  parse_inv H.
  all: try (eexists; split; reflexivity).
  all: exact (proj2 (proj2 (parse_wf n)) _ _ _ _ H eq_refl).
Qed.

Lemma segmentation_wf (text : string) (sd : jvalue) :
  segmentation_of text = Some sd -> exists fs, sd = JObj fs /\ wf_json sd = true.
Proof.
  unfold segmentation_of, json_match.
  destruct (from_first_open text) as [t|] eqn:Ef.
  - destruct (from_first_open_head _ _ Ef) as [t' ->].
    destruct (upto_last_close (String "{" t')) as [span|] eqn:Eu.
    + destruct (upto_last_close_head _ _ _ Eu) as [p ->].
      unfold json_parse. destruct (parse_value _ (String "{" p)) as [[v r]|] eqn:Ev;
        [|discriminate].
      destruct (skip_ws r); [|discriminate]. intro H. injection H as <-.
      exact (parse_obj_open _ _ _ _ Ev).
    + intro H. injection H as <-. eexists. split; reflexivity.
  - intro H. injection H as <-. eexists. split; reflexivity.
Qed.

Lemma derive_wf (fs : list (string * jvalue)) (r : jvalue) :
  derive (JObj fs) = Some r -> wf_json (JObj fs) = true ->
  exists fs', r = JObj fs' /\ wf_json r = true.
Proof.
  intros H Hw. unfold derive in H.
  destruct (lookup "items" fs) as [[| | | |items|]|];
    try (injection H as <-; eexists; split; [reflexivity | exact Hw]).
  destruct (matched_area "weed" items); [|discriminate].
  destruct (matched_area "crop" items); [|discriminate].
  cbv zeta in H. injection H as <-. eexists. split; [reflexivity|].
  repeat match goal with
  | |- context [if ?b then _ else _] => destruct b
  end;
  repeat (apply wf_obj_set; [|reflexivity]); exact Hw.
Qed.

Lemma parse_number_print_any (m e : Z) (X : string) :
  ends_value X ->
  parse_number (print_num (NumFin m e) ++ X) = Some (dec_to_num m e, X).
Proof.
  intros HX.
  destruct (exponent_text e X HX) as [H1 [H2 H3]].
  set (Y := if e =? 0 then X else "e" ++ print_Z e ++ X) in *.
  assert (HT : print_num (NumFin m e) ++ X = print_Z m ++ Y).
  { unfold Y, print_num. destruct (e =? 0); [reflexivity|].
    rewrite !append_assoc. reflexivity. }
  rewrite HT. unfold parse_number, print_Z.
  destruct (m <? 0) eqn:Hm.
  - rewrite append_assoc. simpl minus_sign. cbv beta iota.
    rewrite (int_part_digits _ _ H1). cbv beta iota.
    rewrite H2. cbv beta iota. rewrite H3. cbv beta iota.
    rewrite app_nil_r, uint_of_digits_N, Zabs2N.id_abs. simpl Decimal.nb_digits.
    replace (- Z.abs m) with m by lia.
    replace (e - Z.of_nat 0) with e by lia. reflexivity.
  - rewrite minus_sign_digits. cbv beta iota.
    rewrite (int_part_digits _ _ H1). cbv beta iota.
    rewrite H2. cbv beta iota. rewrite H3. cbv beta iota.
    rewrite app_nil_r, uint_of_digits_N, Zabs2N.id_abs. simpl Decimal.nb_digits.
    replace (Z.abs m) with m by lia.
    replace (e - Z.of_nat 0) with e by lia. reflexivity.
Qed.

Lemma elems_roundtrip_f (f : jvalue -> jvalue) (l : list jvalue) : forall x m acc rest,
  (forall y, In y (x :: l) -> forall n rest', (jsize y <= n)%nat -> ends_value rest' ->
     parse_value n (stringify y ++ rest') = Some (f y, rest')) ->
  (S (jsize x) + elems_size l <= m)%nat -> ends_value rest ->
  parse_elems m (stringify x ++ elems_text false l ++ String "]" rest) acc =
  Some (JArr (List.app acc (map f (x :: l))), rest).
Proof.
  induction l as [|y l IH]; intros x m acc rest HP Hm Hr;
    (destruct m as [|m]; [lia|]).
  - simpl elems_text. simpl append at 2.
    simpl parse_elems.
    rewrite (HP x (or_introl eq_refl) m (String "]" rest)) by (simpl in Hm |- *; auto; lia).
    reflexivity.
  - simpl elems_text.
    change (String "," (stringify y ++ elems_text false l) ++ String "]" rest)
      with (String "," ((stringify y ++ elems_text false l) ++ String "]" rest)).
    rewrite append_assoc.
    simpl parse_elems.
    rewrite (HP x (or_introl eq_refl) m) by (simpl in Hm |- *; auto; lia).
    simpl skip_ws. cbv iota beta.
    rewrite IH.
    + rewrite <- app_assoc. reflexivity.
    + intros z Hz. apply HP. right. exact Hz.
    + simpl in Hm. lia.
    + exact Hr.
Qed.

Lemma mems_roundtrip_f (f : jvalue -> jvalue) (fs : list (string * jvalue)) :
  forall k x m acc rest,
  (forall y, In y (x :: map snd fs) -> forall n rest', (jsize y <= n)%nat ->
     ends_value rest' -> parse_value n (stringify y ++ rest') = Some (f y, rest')) ->
  distinct_keys (map fst (List.app acc ((k, x) :: fs))) = true ->
  (S (jsize x) + mems_size fs <= m)%nat -> ends_value rest ->
  parse_members m (quote k ++ ":" ++ stringify x ++ mems_text false fs ++ String "}" rest) acc =
  Some (JObj (List.app acc (map (fun kv => (fst kv, f (snd kv))) ((k, x) :: fs))), rest).
Proof.
  induction fs as [|[k' y] fs IH]; intros k x m acc rest HP Hd Hm Hr;
    (destruct m as [|m]; [lia|]).
  - simpl mems_text. rewrite quote_app. simpl parse_members.
    rewrite escape_parse. simpl skip_ws. cbv iota beta.
    rewrite (HP x (or_introl eq_refl) m (String "}" rest)) by (simpl in Hm |- *; auto; lia).
    simpl skip_ws. cbv iota beta.
    rewrite obj_set_fresh by exact (distinct_app_fresh _ _ _ _ Hd). reflexivity.
  - simpl mems_text.
    change (String "," (quote k' ++ ":" ++ stringify y ++ mems_text false fs) ++ String "}" rest)
      with (String "," ((quote k' ++ ":" ++ stringify y ++ mems_text false fs) ++ String "}" rest)).
    rewrite !append_assoc.
    rewrite quote_app. simpl parse_members.
    rewrite escape_parse. simpl skip_ws. cbv iota beta.
    rewrite (HP x (or_introl eq_refl) m) by (simpl in Hm |- *; auto; lia).
    simpl skip_ws. cbv iota beta.
    assert (Hfresh : existsb (fun kv => String.eqb (fst kv) k) acc = false)
      by exact (distinct_app_fresh _ _ _ _ Hd).
    rewrite obj_set_fresh by exact Hfresh.
    match goal with |- parse_members m ?t _ = _ =>
      replace t with (quote k' ++ ":" ++ stringify y ++ mems_text false fs ++ String "}" rest)
        by (rewrite quote_app; repeat progress (simpl; rewrite ?append_assoc); reflexivity) end.
    rewrite IH.
    + rewrite <- app_assoc. reflexivity.
    + intros z Hz. apply HP. right. exact Hz.
    + rewrite !map_app in *. rewrite <- app_assoc. exact Hd.
    + simpl in Hm. lia.
    + exact Hr.
Qed.

Lemma parse_stringify_canon (v : jvalue) : wf_json v = true ->
  forall n rest, (jsize v <= n)%nat -> ends_value rest ->
  parse_value n (stringify v ++ rest) = Some (canon v, rest).
Proof.
  induction v as [| b | x | s | l IHl | fs IHfs] using jvalue_ind';
    intros Hw n rest Hn Hr; (destruct n as [|n]; [simpl in Hn; lia|]).
  - reflexivity.
  - destruct b; reflexivity.
  - destruct x as [m e| |]; [|reflexivity|reflexivity].
    change (stringify (JNum (NumFin m e))) with (print_num (NumFin m e)).
    destruct (print_num_head m e rest) as [c [t [Ht [Hc _]]]].
    rewrite Ht, parse_value_numeric by exact Hc. rewrite <- Ht.
    rewrite parse_number_print_any by assumption. reflexivity.
  - simpl stringify. rewrite quote_app. simpl.
    rewrite escape_parse. reflexivity.
  - rewrite wf_arr in Hw. rewrite jsize_arr in Hn.
    rewrite stringify_arr, append_assoc.
    destruct l as [|x l]; [reflexivity|].
    simpl elems_text. simpl append. rewrite !append_assoc. simpl append.
    destruct (stringify_head x (elems_text false l ++ String "]" rest)) as [c [t [Ht [H1 H2]]]].
    rewrite Ht. rewrite parse_value_arr_open by assumption. rewrite <- Ht.
    apply (elems_roundtrip_f canon l x n [] rest); [| simpl in Hn; lia | exact Hr].
    intros y Hy. rewrite Forall_forall in IHl. apply IHl; [exact Hy|].
    rewrite forallb_forall in Hw. apply Hw, Hy.
  - rewrite wf_obj in Hw. rewrite jsize_obj in Hn.
    apply andb_prop in Hw as [Hd Hw].
    rewrite stringify_obj, append_assoc.
    destruct fs as [|[k x] fs]; [reflexivity|].
    simpl mems_text. simpl append.
    rewrite !append_assoc. simpl append.
    rewrite append_assoc. simpl parse_value.
    match goal with |- parse_members n ?t [] = _ =>
      replace t with (quote k ++ ":" ++ stringify x ++ mems_text false fs ++ String "}" rest)
        by (rewrite quote_app; repeat progress (simpl; rewrite ?append_assoc); reflexivity) end.
    apply (mems_roundtrip_f canon fs k x n [] rest); [| exact Hd | simpl in Hn; lia | exact Hr].
    intros y Hy. rewrite Forall_forall in IHfs.
    change (x :: map snd fs) with (map snd ((k, x) :: fs)) in Hy.
    apply in_map_iff in Hy as [[k' y'] [Hy Hin]]. simpl in Hy. subst y'.
    apply (IHfs _ Hin).
    rewrite forallb_forall in Hw. apply (Hw _ Hin).
Qed.

Lemma json_parse_canon (v : jvalue) :
  wf_json v = true -> json_parse (stringify v) = Some (canon v).
Proof.
  intros Hw. unfold json_parse.
  pose proof (jsize_length v) as Hl.
  rewrite <- (append_nil (stringify v)) at 2.
  rewrite (parse_stringify_canon v Hw _ EmptyString) by (simpl; lia || exact I).
  reflexivity.
Qed.

Lemma dbl_arr (l : list jvalue) : dbl_nums (JArr l) = forallb dbl_nums l.
Proof. induction l as [|x l IH]; [reflexivity|]. simpl in *. rewrite IH. reflexivity. Qed.

Lemma dbl_obj (fs : list (string * jvalue)) :
  dbl_nums (JObj fs) = forallb (fun kv => dbl_nums (snd kv)) fs.
Proof. induction fs as [|[k x] fs IH]; [reflexivity|]. simpl in *. rewrite IH. reflexivity. Qed.

Lemma dbl_num (m e : Z) :
  dbl_nums (JNum (NumFin m e)) = true -> dec_to_num m e = NumFin m e.
Proof.
  simpl. destruct (dec_to_num m e) as [m' e'| |]; try discriminate.
  intros H. apply andb_prop in H as [H1 H2]. apply Z.eqb_eq in H1, H2. subst. reflexivity.
Qed.

Lemma dbl_of_num (x : jnum) :
  (forall m e, x = NumFin m e -> dec_to_num m e = NumFin m e) -> dbl_nums (JNum x) = true.
Proof.
  intros H. destruct x as [m e| |]; [|reflexivity ..].
  simpl. rewrite (H m e eq_refl), !Z.eqb_refl. reflexivity.
Qed.

(** A value with finite numbers that are all doubles is its own [canon]. *)
Lemma canon_id (v : jvalue) : finite_nums v = true -> dbl_nums v = true -> canon v = v.
Proof.
  induction v as [| b | x | s | l IHl | fs IHfs] using jvalue_ind'; intros Hf Hd;
    try reflexivity.
  - destruct x as [m e| |]; try discriminate. simpl. rewrite (dbl_num _ _ Hd). reflexivity.
  - rewrite finite_arr in Hf. rewrite dbl_arr in Hd. simpl. f_equal.
    induction l as [|y l IH]; [reflexivity|]. simpl in Hf, Hd.
    apply andb_prop in Hf as [Hf1 Hf2]. apply andb_prop in Hd as [Hd1 Hd2].
    inversion IHl as [|? ? Hy Hl]; subst. simpl. rewrite (Hy Hf1 Hd1), (IH Hl Hf2 Hd2).
    reflexivity.
  - rewrite finite_obj in Hf. rewrite dbl_obj in Hd. simpl. f_equal.
    induction fs as [|[k y] fs IH]; [reflexivity|]. simpl in Hf, Hd.
    apply andb_prop in Hf as [Hf1 Hf2]. apply andb_prop in Hd as [Hd1 Hd2].
    inversion IHfs as [|? ? Hy Hl]; subst. simpl. simpl in Hy.
    rewrite (Hy Hf1 Hd1), (IH Hl Hf2 Hd2). reflexivity.
Qed.

Lemma dbl_obj_set (fs : list (string * jvalue)) (k : string) (v : jvalue) :
  dbl_nums (JObj fs) = true -> dbl_nums v = true -> dbl_nums (JObj (obj_set fs k v)) = true.
Proof.
  rewrite !dbl_obj. intros H Hv. unfold obj_set. destruct (existsb _ fs).
  - induction fs as [|[k0 x] fs IH]; [reflexivity|]. simpl in *.
    apply andb_prop in H as [H1 H2]. destruct (String.eqb k0 k); simpl; rewrite IH; auto;
      rewrite ?Hv, ?H1; reflexivity.
  - rewrite forallb_app, H. simpl. rewrite Hv. reflexivity.
Qed.

Lemma dbl_arr_snoc (l : list jvalue) (v : jvalue) :
  dbl_nums (JArr l) = true -> dbl_nums v = true -> dbl_nums (JArr (List.app l [v])) = true.
Proof. rewrite !dbl_arr, forallb_app. intros H1 H2. rewrite H1. simpl. rewrite H2. reflexivity. Qed.

Lemma parse_number_dbl (s r : string) (x : jnum) :
  parse_number s = Some (x, r) -> dbl_nums (JNum x) = true.
Proof.
  unfold parse_number. destruct (minus_sign s) as [neg s1].
  destruct (int_part s1) as [[iu s2]|]; [|discriminate].
  destruct (parse_fraction s2) as [[fu s3]|]; [|discriminate].
  destruct (parse_exponent s3) as [[ex s4]|]; [|discriminate].
  intros H. injection H as <- _. apply dbl_of_num. intros m e E.
  exact (dec_to_num_idem _ _ _ _ E).
Qed.

(** [JSON.parse] yields doubles only. *)
Lemma parse_dbl (n : nat) :
  (forall s v r, parse_value n s = Some (v, r) -> dbl_nums v = true) /\
  (forall s acc v r, parse_elems n s acc = Some (v, r) -> dbl_nums (JArr acc) = true ->
     dbl_nums v = true) /\
  (forall s acc v r, parse_members n s acc = Some (v, r) -> dbl_nums (JObj acc) = true ->
     dbl_nums v = true).
Proof.
  induction n as [|n [IHv [IHe IHm]]]; [repeat split; intros; discriminate|].
  repeat split.
  - intros s v r H. cbn [parse_value] in H.
    repeat match type of H with
    | Some _ = Some _ => injection H as <- <-
    | None = Some _ => discriminate H
    | context [match ?x with _ => _ end] =>
        lazymatch x with
        | parse_elems _ _ _ => fail
        | parse_members _ _ _ => fail
        | parse_value _ _ => fail
        | parse_number _ => fail
        | _ => destruct x; cbn beta iota in H
        end
    end.
    all: try reflexivity.
    all: try (match type of H with context [parse_number ?t] =>
                destruct (parse_number t) as [[x r0]|] eqn:Ep; [|discriminate] end;
              injection H as <- <-; eapply parse_number_dbl; eassumption).
    all: try (eapply IHe; [exact H | reflexivity]).
    all: try (eapply IHm; [exact H | reflexivity]).
  - intros s acc v r H Hacc. cbn [parse_elems] in H.
    destruct (parse_value n s) as [[v0 r0]|] eqn:Ev; [|discriminate].
    pose proof (IHv _ _ _ Ev) as Hv0. parse_inv H.
    all: try (apply dbl_arr_snoc; assumption).
    all: eapply IHe; [exact H | apply dbl_arr_snoc; assumption].
  - intros s acc v r H Hacc. cbn [parse_members] in H. parse_inv H.
    all: try (match type of H with context [parse_value ?m ?t] =>
                destruct (parse_value m t) as [[v0 r0]|] eqn:Ev; [|discriminate] end;
              pose proof (IHv _ _ _ Ev) as Hv0; parse_inv H).
    all: try (apply dbl_obj_set; assumption).
    all: eapply IHm; [exact H | apply dbl_obj_set; assumption].
Qed.

Lemma segmentation_dbl (text : string) (sd : jvalue) :
  segmentation_of text = Some sd -> dbl_nums sd = true.
Proof.
  unfold segmentation_of. destruct (json_match text) as [span|].
  - unfold json_parse. destruct (parse_value _ span) as [[v r]|] eqn:Ev; [|discriminate].
    destruct (skip_ws r); [|discriminate]. intro H. injection H as <-.
    exact (proj1 (parse_dbl _) _ _ _ Ev).
  - intro H. injection H as <-. vm_compute. reflexivity.
Qed.

Lemma coverage_dbl_num (needle : string) (items : list jvalue) (x : xnum) :
  matched_area needle items = Some x -> dbl_nums (JNum (coverage x)) = true.
Proof.
  intros H. destruct (coverage_range x (matched_area_nonneg _ _ _ H)) as (z & Hz & Hb).
  rewrite Hz. apply dbl_of_num. intros m e E. injection E as <- <-.
  unfold dec_to_num. rewrite (round_Q_proper _ _ (dec_to_Q_0 z)).
  apply round_Q_int. rewrite Z.abs_eq by lia. apply (Z.le_lt_trans _ 100); [lia|].
  vm_compute. reflexivity.
Qed.

Lemma derive_dbl (sd r : jvalue) : derive sd = Some r -> dbl_nums sd = true -> dbl_nums r = true.
Proof.
  intros H Hd. unfold derive in H.
  destruct sd as [| | | | |fs]; try (injection H as <-; exact Hd); [discriminate|].
  destruct (lookup "items" fs) as [[| | | |items|]|];
    try (injection H as <-; exact Hd).
  destruct (matched_area "weed" items) as [xw|] eqn:Ew; [|discriminate].
  destruct (matched_area "crop" items) as [xc|] eqn:Ec; [|discriminate].
  cbv zeta in H. injection H as <-.
  pose proof (coverage_dbl_num _ _ _ Ew). pose proof (coverage_dbl_num _ _ _ Ec).
  repeat match goal with
  | |- context [if ?b then _ else _] => destruct b
  end;
  repeat (apply dbl_obj_set; [|try assumption; try reflexivity]); exact Hd.
Qed.

(** C7 (amended).  When the normalized analysis holds finite numbers
    only, normalizing its [JSON.stringify] text gives it back: the text is
    one object that [JSON.parse] reads back exactly, and the derivation
    leaves an already derived object unchanged. *)
Theorem normalize_stringify_finite (text : string) (r : jvalue)
  (Hn : normalize text = Some r) (Hf : finite_nums r = true) :
  normalize (stringify r) = Some r.
Proof.
  unfold normalize in Hn. destruct (segmentation_of text) as [sd|] eqn:Es; [|discriminate].
  destruct (segmentation_wf _ _ Es) as [fs [-> Hw]].
  destruct (derive_wf _ _ Hn Hw) as [fs' [-> Hw']].
  unfold normalize, segmentation_of. rewrite json_match_obj.
  rewrite (json_parse_canon _ Hw').
  rewrite (canon_id _ Hf (derive_dbl _ _ Hn (segmentation_dbl _ _ Es))).
  exact (derive_idem _ _ Hn).
Qed.

(** The "Weed patch" answer normalizes to finite numbers, and normalizing
    its text again gives the same analysis. *)
Lemma normalize_stringify_finite_witness :
  normalize weed_patch_text = Some weed_patch_result /\
  finite_nums weed_patch_result = true /\
  normalize (stringify weed_patch_result) = Some weed_patch_result.
Proof.
  assert (Hn : normalize weed_patch_text = Some weed_patch_result)
    by (vm_compute; reflexivity).
  assert (Hf : finite_nums weed_patch_result = true) by (vm_compute; reflexivity).
  split; [exact Hn | split; [exact Hf|]].
  exact (normalize_stringify_finite weed_patch_text weed_patch_result Hn Hf).
Defined.

(** C7 (counterexample).  A stated weed coverage of [1e400] is read as
    [Infinity] and kept; [JSON.stringify] writes it [null], and normalizing
    that text backfills the weed coverage with 0, so the second
    normalization differs from the first. *)
Lemma overflow_not_idempotent :
  normalize huge_weed_text = Some huge_weed_result /\
  field "weedCoverage" huge_weed_result = Some (JNum (NumInf false)) /\
  normalize (stringify huge_weed_result) <> Some huge_weed_result /\
  option_map (field "weedCoverage") (normalize (stringify huge_weed_result)) =
    Some (Some (JNum (NumFin 0 0))).
Proof.
  split; [vm_compute; reflexivity|].
  split; [vm_compute; reflexivity|].
  split; [vm_compute; discriminate | vm_compute; reflexivity].
Qed.

(** ** The routes, [verifyToken] and the JSON round trip *)

Lemma basename_loop_S (p : string) (j : nat) (e : option nat) (m : bool) :
  basename_loop p (S j) e m =
  if is_slash (String.get j p) then (if negb m then (S j, e) else basename_loop p j e m)
  else match e with
       | None => basename_loop p j (Some (S j)) false
       | Some _ => basename_loop p j e m
       end.
Proof.
  simpl. destruct (String.get j p) as [[[] [] [] [] [] [] [] []]|]; reflexivity.
Qed.

Lemma is_slash_false (o : option ascii) : is_slash o = false -> o <> Some "/"%char.
Proof. intros H E. subst o. discriminate H. Qed.

Lemma basename_loop_inv (p : string) (i : nat) : forall e0 m0,
  (i <= String.length p)%nat ->
  match e0 with
  | None => m0 = true
  | Some e => m0 = false /\ (i < e <= String.length p)%nat /\
              forall k, (i <= k < e)%nat -> String.get k p <> Some "/"%char
  end ->
  match basename_loop p i e0 m0 with
  | (_, None) => True
  | (start, Some e) => (start <= e <= String.length p)%nat /\
      forall k, (start <= k < e)%nat -> String.get k p <> Some "/"%char
  end.
Proof.
  induction i as [|j IH]; intros e0 m0 Hi H.
  - simpl. destruct e0 as [e|]; [|exact I].
    destruct H as [_ [He Hk]]. split; [lia|]. intros k Hk'. apply Hk. lia.
  - rewrite basename_loop_S.
    destruct (is_slash (String.get j p)) eqn:Es.
    + destruct e0 as [e|].
      * destruct H as [-> [He Hk]]. simpl. split; [lia|]. exact Hk.
      * subst m0. simpl. apply IH; [lia | reflexivity].
    + destruct e0 as [e|].
      * destruct H as [-> [He Hk]]. apply IH; [lia|].
        split; [reflexivity|]. split; [lia|]. intros k Hk'.
        destruct (Nat.eq_dec k j) as [->|]; [exact (is_slash_false _ Es)|]. apply Hk. lia.
      * apply IH; [lia|]. split; [reflexivity|]. split; [lia|]. intros k Hk'.
        assert (k = j) by lia. subst k. exact (is_slash_false _ Es).
Qed.

Lemma basename_no_slash (p : string) (k : nat) : String.get k (basename p) <> Some "/"%char.
Proof.
  unfold basename.
  pose proof (basename_loop_inv p (String.length p) None true (le_n _) eq_refl) as H.
  destruct (basename_loop p (String.length p) None true) as [start [e|]].
  - destruct H as [Hse Hk].
    destruct (Nat.lt_ge_cases k (e - start)) as [Hl|Hl].
    + rewrite substring_correct1 by exact Hl. apply Hk. lia.
    + rewrite substring_correct2 by exact Hl. discriminate.
  - simpl. destruct k; discriminate.
Qed.

Lemma substring_app (a b : string) :
  substring (String.length a) (String.length b) (a ++ b) = b.
Proof.
  induction a as [|c a IH]; simpl.
  - induction b as [|c b IH]; simpl; [reflexivity | rewrite IH; reflexivity].
  - exact IH.
Qed.

Lemma get_cons_S (c : ascii) (s : string) (k : nat) : String.get (S k) (String c s) = String.get k s.
Proof. reflexivity. Qed.

Lemma split_space_word (w : string) :
  (forall k, String.get k w <> Some " "%char) -> split_space w = [w].
Proof.
  induction w as [|c w IH]; intro H; [reflexivity|].
  simpl. rewrite IH by (intro k; rewrite <- get_cons_S with (c := c); apply H).
  destruct (c =? " ")%char eqn:E; [|reflexivity].
  apply Ascii.eqb_eq in E. subst c. exfalso. exact (H O eq_refl).
Qed.

Lemma split_space_word_sp (w r : string) :
  (forall k, String.get k w <> Some " "%char) ->
  split_space (w ++ String " " r) = w :: split_space r.
Proof.
  induction w as [|c w IH]; intro H; [reflexivity|].
  simpl. rewrite IH by (intro k; rewrite <- get_cons_S with (c := c); apply H).
  destruct (c =? " ")%char eqn:E; [|reflexivity].
  apply Ascii.eqb_eq in E. subst c. exfalso. exact (H O eq_refl).
Qed.

Lemma has_char_get (c : ascii) (s : string) :
  has_char c s = false <-> forall k, String.get k s <> Some c.
Proof.
  induction s as [|c' s IH]; simpl.
  - split; [intros _ k; destruct k; discriminate | reflexivity].
  - rewrite orb_false_iff. split.
    + intros [H1 H2] [|k]; simpl.
      * intro E. injection E as ->. rewrite Ascii.eqb_refl in H1. discriminate.
      * apply IH. exact H2.
    + intro H. split.
      * destruct (c' =? c)%char eqn:E; [|reflexivity].
        apply Ascii.eqb_eq in E. subst. exfalso. exact (H O eq_refl).
      * apply IH. intro k. exact (H (S k)).
Qed.

(** [verifyToken] (auth.js): the token is the second word of the
    [authorization] header split at spaces, whatever the first word is; the
    request goes on as the user [jwt.verify] returns for it, and is refused
    with 401 when verification fails. *)
Theorem verify_token_second_word (verify : string -> option Z) (w t r : string)
  (Hw : has_char " " w = false) (Ht : has_char " " t = false) (Hne : t <> EmptyString)
  (Hr : r = EmptyString \/ exists r', r = String " " r') :
  verify_token verify (Some (w ++ String " " (t ++ r))) =
  match verify t with Some uid => AuthOk uid | None => AuthInvalid401 end.
Proof.
  rewrite has_char_get in Hw. rewrite has_char_get in Ht.
  unfold verify_token. rewrite split_space_word_sp by exact Hw.
  destruct Hr as [->|[r' ->]].
  - rewrite append_nil, split_space_word by exact Ht. simpl.
    destruct t; [congruence | reflexivity].
  - rewrite split_space_word_sp by exact Ht. simpl.
    destruct t; [congruence | reflexivity].
Qed.

Lemma verify_token_second_word_witness :
  verify_token (fun t => if String.eqb t "abc" then Some 7 else None)
    (Some ("Basic" ++ String " " ("abc" ++ EmptyString))) = AuthOk 7.
Proof.
  exact (verify_token_second_word (fun t => if String.eqb t "abc" then Some 7 else None)
           "Basic" "abc" EmptyString eq_refl eq_refl ltac:(discriminate) (or_introl eq_refl)).
Defined.

(** [verifyToken] refuses with 401 ("No token provided"), without calling
    [jwt.verify], a request with no [authorization] header, a header with no
    space, or a header whose second word is empty. *)
Theorem verify_token_no_token (verify : string -> option Z) (h : option string)
  (Hh : h = None \/ (exists h', h = Some h' /\ has_char " " h' = false) \/
        exists w r, h = Some (w ++ String " " r) /\ has_char " " w = false /\
                    (r = EmptyString \/ exists r', r = String " " r')) :
  verify_token verify h = AuthNoToken401.
Proof.
  destruct Hh as [->|[[h' [-> H]]|[w [r [-> [Hw Hr]]]]]]; [reflexivity| |].
  - rewrite has_char_get in H. unfold verify_token. rewrite split_space_word by exact H.
    reflexivity.
  - rewrite has_char_get in Hw. unfold verify_token. rewrite split_space_word_sp by exact Hw.
    destruct Hr as [->|[r' ->]]; reflexivity.
Qed.

Lemma verify_token_no_token_witness :
  verify_token (fun _ => Some 1) (Some ("Bearer" ++ String " " (String " " "abc"))) =
  AuthNoToken401.
Proof.
  apply verify_token_no_token. right. right.
  exists "Bearer", (String " " "abc"). split; [reflexivity|]. split; [reflexivity|].
  right. eexists. reflexivity.
Defined.

Lemma analyze_image_stored (env : worker_env) :
  Forall (fun w => forall raw s, w = WComplete raw s -> stored_pair raw s) (analyze_image env).
Proof.
  unfold analyze_image.
  assert (Hf : Forall (fun w => forall raw s, w = WComplete raw s -> stored_pair raw s)
                 (if env_failed_ok env then [WFailed] else [])).
  { destruct (env_failed_ok env); repeat constructor; discriminate. }
  destruct (negb (env_read_ok env)); [exact Hf|].
  destruct (env_response env) as [t|]; [|exact Hf].
  destruct (normalize _) as [sd|] eqn:En; [|exact Hf].
  destruct (env_complete_ok env); [|exact Hf].
  constructor; [|constructor]. intros raw s Hw. injection Hw as <- <-.
  exists sd. split; [exact En | reflexivity].
Qed.

Lemma init_seg_inv : seg_inv init_system.
Proof. split; constructor. Qed.

Lemma step_seg_inv st st' : step st st' -> seg_inv st -> seg_inv st'.
Proof.
  destruct 1 as [uid fname path env st|st pre i w ws post Hw|g rk uid id unlinked st];
    intros [Hr Hk].
  - unfold upload; split; simpl.
    + apply Forall_app. split; [exact Hr|]. constructor; [|constructor].
      simpl. discriminate.
    + constructor; [apply analyze_image_stored | exact Hk].
  - rewrite Hw in Hk. apply Forall_app in Hk as [Hpre Hk]. inversion Hk as [|? ? Hi Hpost]; subst.
    simpl in Hi. inversion Hi as [|? ? Hw0 Hws]; subst.
    split; simpl.
    + unfold apply_write. apply Forall_map. eapply Forall_impl; [|exact Hr].
      intros r Hrow. destruct (row_id r =? i); [|exact Hrow].
      destruct w as [raw s0|]; simpl; [|exact Hrow].
      intros s Hs. injection Hs as <-. exists raw. split; [reflexivity|]. eapply Hw0; reflexivity.
    + apply Forall_app. split; [exact Hpre|]. constructor; [exact Hws | exact Hpost].
  - destruct (delete_route_db_cases g rk uid id unlinked st) as [->|[->|[f ->]]];
      [split; assumption| |split; assumption].
    unfold delete_route. destruct (db_get id uid (sys_rows st)); [|split; assumption].
    split; simpl; [|exact Hk].
    apply Forall_forall. intros r Hin. apply filter_In in Hin as [Hin _].
    rewrite Forall_forall in Hr. auto.
Qed.

Lemma reachable_seg_inv st : reachable st -> seg_inv st.
Proof.
  unfold reachable. generalize init_seg_inv. generalize init_system.
  intros s0 H0 Hs. induction Hs as [|st1 st2 st3 Hstep _ IH]; [exact H0|].
  apply IH. eapply step_seg_inv; eassumption.
Qed.

Lemma stringify_nonempty (v : jvalue) : stringify v <> EmptyString.
Proof.
  intros H. pose proof (jsize_length v) as Hl. rewrite H in Hl.
  destruct v; simpl in Hl; lia.
Qed.

Lemma normalize_obj (raw : string) (sd : jvalue) :
  normalize raw = Some sd -> exists fs, sd = JObj fs /\ wf_json sd = true.
Proof.
  unfold normalize. destruct (segmentation_of raw) as [sd0|] eqn:Es; [|discriminate].
  destruct (segmentation_wf _ _ Es) as (fs0 & -> & Hw). intros Hd.
  exact (derive_wf _ _ Hd Hw).
Qed.

Lemma seg_view_stored (raw s : string) :
  stored_pair raw s -> exists sd, normalize raw = Some sd /\ seg_view (Some s) = Some (canon sd).
Proof.
  intros (sd & En & ->). exists sd. split; [exact En|].
  destruct (normalize_obj _ _ En) as (fs & _ & Hw).
  unfold seg_view. destruct (stringify sd) eqn:Es.
  - exfalso. exact (stringify_nonempty _ Es).
  - rewrite <- Es. apply json_parse_canon. exact Hw.
Qed.

Lemma view_of_stored (r : image_row) : row_stored r ->
  exists v, view_of r = Some v /\ view_row v = r /\ served v.
Proof.
  intros Hr. unfold view_of, served.
  destruct (row_segmentation_data r) as [s|] eqn:Es.
  - destruct (Hr s Es) as (raw & Ea & Hp).
    destruct (seg_view_stored _ _ Hp) as (sd & En & ->).
    eexists. split; [reflexivity|]. simpl. split; [reflexivity|]. split; [reflexivity|].
    right. eauto.
  - eexists. split; [reflexivity|]. simpl. split; [reflexivity|]. split; [reflexivity|].
    left. auto.
Qed.

Lemma views_of_stored (rows : list image_row) : Forall row_stored rows ->
  exists vs, views_of rows = Some vs /\ map view_row vs = rows /\ Forall served vs.
Proof.
  induction 1 as [|r rs Hr _ IH]; [exists []; auto|].
  destruct IH as (vs & Evs & Hm & Hsv). destruct (view_of_stored r Hr) as (v & Ev & Hv & Hs).
  exists (v :: vs). simpl. rewrite Ev, Evs. split; [reflexivity|]. simpl.
  split; [congruence | constructor; assumption].
Qed.

Lemma reachable_rows_stored st : reachable st -> Forall row_stored (sys_rows st).
Proof. intros H. exact (proj1 (reachable_seg_inv st H)). Qed.

(** [GET /] in a reachable state answers 500 only when [db.all] rejects.
    Otherwise it lists the caller's rows, in whatever order [db.all]
    returns them. Each row is served with its [/uploads/] path. Its
    [segmentationData] is [null] or the normalization of the row's
    [analysis_result]. *)
Theorem list_route_reachable (st : system) (uid : Z) (rows : list image_row)
  (Hreach : reachable st) (Hperm : Permutation rows (list_by_owner uid (sys_rows st))) :
  list_route None = ListError500 /\
  exists vs, list_route (Some rows) = ListOk vs /\ map view_row vs = rows /\ Forall served vs.
Proof.
  split; [reflexivity|].
  pose proof (reachable_rows_stored st Hreach) as Hs.
  assert (Hl : Forall row_stored rows).
  { apply Forall_forall. intros r Hin. apply (Permutation_in _ Hperm), list_by_owner_incl in Hin.
    rewrite Forall_forall in Hs. auto. }
  destruct (views_of_stored _ Hl) as (vs & Evs & Hm & Hsv).
  exists vs. unfold list_route. rewrite Evs. auto.
Qed.

(** [GET /:id] in a reachable state answers 500 only when [db.get]
    rejects. Otherwise it answers the caller's row with that id, served as
    in [GET /], or 404 when no row with that id belongs to the caller. *)
Theorem get_route_reachable (st : system) (get_ok : bool) (uid id : Z) (Hreach : reachable st) :
  match get_route_db get_ok uid id (sys_rows st) with
  | GetOk v => In (view_row v) (sys_rows st) /\ row_id (view_row v) = id /\
               row_user (view_row v) = uid /\ served v
  | GetNotFound404 => ~ exists r, In r (sys_rows st) /\ row_id r = id /\ row_user r = uid
  | GetError500 => get_ok = false
  end.
Proof.
  destruct get_ok; [|reflexivity].
  pose proof (reachable_rows_stored st Hreach) as Hs.
  unfold get_route_db, get_route, db_get.
  destruct (find _ (sys_rows st)) as [r|] eqn:Ef.
  - apply find_some in Ef as [Hin Hk]. apply andb_true_iff in Hk as [Hi Hu].
    apply Z.eqb_eq in Hi, Hu. rewrite Forall_forall in Hs.
    destruct (view_of_stored r (Hs r Hin)) as (v & -> & <- & Hsv). auto.
  - intros (r & Hin & Hi & Hu). apply (find_none _ _ Ef) in Hin.
    rewrite Hi, Hu, !Z.eqb_refl in Hin. discriminate.
Qed.

Lemma get_route_reachable_witness :
  reachable demo_analysed /\
  match get_route_db true 7 1 (sys_rows demo_analysed) with
  | GetOk v => In (view_row v) (sys_rows demo_analysed) /\ row_id (view_row v) = 1 /\
               row_user (view_row v) = 7 /\ served v
  | GetNotFound404 => ~ exists r, In r (sys_rows demo_analysed) /\ row_id r = 1 /\ row_user r = 7
  | GetError500 => true = false
  end.
Proof.
  split; [exact demo_analysed_reachable|].
  exact (get_route_reachable _ true 7 1 demo_analysed_reachable).
Defined.

Lemma list_route_reachable_witness :
  reachable demo_analysed /\
  Permutation (list_by_owner 7 (sys_rows demo_analysed)) (list_by_owner 7 (sys_rows demo_analysed)) /\
  (list_route None = ListError500 /\
   exists vs, list_route (Some (list_by_owner 7 (sys_rows demo_analysed))) = ListOk vs /\
     map view_row vs = list_by_owner 7 (sys_rows demo_analysed) /\ Forall served vs).
Proof.
  split; [exact demo_analysed_reachable|]. split; [apply Permutation_refl|].
  exact (list_route_reachable _ 7 _ demo_analysed_reachable (Permutation_refl _)).
Defined.

Lemma NoDup_snoc {A} (l : list A) (x : A) : NoDup l -> ~ In x l -> NoDup (l ++ [x]).
Proof.
  intros Hl Hx. rewrite <- (rev_involutive (l ++ [x])). apply NoDup_rev.
  rewrite rev_app_distr. simpl.
  constructor; [rewrite <- in_rev; exact Hx | apply NoDup_rev; exact Hl].
Qed.

Lemma NoDup_map_filter {A B} (f : A -> B) (g : A -> bool) (l : list A) :
  NoDup (map f l) -> NoDup (map f (filter g l)).
Proof.
  induction l as [|x l IH]; simpl; intros H; [constructor|].
  inversion H as [|? ? Hx Hl]; subst.
  destruct (g x); simpl; [|auto]. constructor; [|auto].
  intros Hin. apply Hx. apply in_map_iff in Hin as (y & Hy & Hin).
  apply filter_In in Hin as [Hin _]. apply in_map_iff. eauto.
Qed.

Lemma map_row_id_apply_write (i : Z) (w : db_write) (rows : list image_row) :
  map row_id (apply_write i w rows) = map row_id rows.
Proof.
  unfold apply_write. rewrite map_map. apply map_ext.
  intros r. destruct (row_id r =? i); [destruct w|]; reflexivity.
Qed.

Lemma step_nodup st st' : step st st' -> sys_inv st ->
  NoDup (map row_id (sys_rows st)) -> NoDup (map row_id (sys_rows st')).
Proof.
  destruct 1 as [uid fname path env st|st pre i w ws post _|g rk uid id unlinked st];
    intros (_ & Hids & _) Hnd.
  - unfold upload; simpl. rewrite map_app. simpl. apply NoDup_snoc; [exact Hnd|].
    intros Hin. apply in_map_iff in Hin as (r & Hr & Hin).
    rewrite Forall_forall in Hids. specialize (Hids r Hin). lia.
  - simpl. rewrite map_row_id_apply_write. exact Hnd.
  - destruct (delete_route_db_cases g rk uid id unlinked st) as [->|[->|[f ->]]];
      [exact Hnd| |exact Hnd].
    unfold delete_route. destruct (db_get id uid (sys_rows st)); simpl; [|exact Hnd].
    apply NoDup_map_filter. exact Hnd.
Qed.

Lemma steps_nodup st st' : steps st st' -> sys_inv st ->
  NoDup (map row_id (sys_rows st)) -> NoDup (map row_id (sys_rows st')).
Proof.
  induction 1 as [st|st1 st2 st3 Hstep _ IH]; intros Hinv Hnd; [exact Hnd|].
  apply IH; [eapply step_inv; eassumption | eapply step_nodup; eassumption].
Qed.

Lemma reachable_nodup (st : system) : reachable st -> NoDup (map row_id (sys_rows st)).
Proof. intros Hreach. refine (steps_nodup _ _ Hreach init_inv _). constructor. Qed.

(** No two rows of the table share an id, in any reachable state. *)
Theorem reachable_ids_unique (st : system) (Hreach : reachable st) :
  NoDup (map row_id (sys_rows st)).
Proof. exact (reachable_nodup st Hreach). Qed.

Lemma reachable_ids_unique_witness :
  reachable demo_analysed /\ NoDup (map row_id (sys_rows demo_analysed)).
Proof. split; [exact demo_analysed_reachable | exact (reachable_ids_unique _ demo_analysed_reachable)]. Defined.

(** No reachable row has the status [pending] (the column default): the
    upload inserts [processing] and the worker writes only terminal
    statuses. *)
Theorem reachable_never_pending (st : system) (Hreach : reachable st) :
  Forall (fun r => row_status r <> Pending) (sys_rows st).
Proof.
  destruct (reachable_inv st Hreach) as (Hrows & _).
  eapply Forall_impl; [|exact Hrows].
  intros r (_ & _ & [H|H] & _); rewrite ?H; [discriminate|].
  destruct (row_status r); discriminate.
Qed.

Lemma reachable_never_pending_witness :
  reachable demo_uploaded /\ Forall (fun r => row_status r <> Pending) (sys_rows demo_uploaded).
Proof. split; [exact demo_uploaded_reachable | exact (reachable_never_pending _ demo_uploaded_reachable)]. Defined.

Lemma filter_unique_id (id : Z) (rows : list image_row) (r : image_row) :
  NoDup (map row_id rows) -> In r rows -> row_id r = id ->
  exists pre post, rows = (pre ++ r :: post)%list /\
    filter (fun r => negb (row_id r =? id)) rows = (pre ++ post)%list.
Proof.
  induction rows as [|x rows IH]; [intros _ []|]. intros Hnd Hin Hid.
  inversion Hnd as [|? ? Hx Hnd']; subst.
  destruct Hin as [<-|Hin].
  - exists [], rows. split; [reflexivity|]. simpl. rewrite Z.eqb_refl. simpl.
    rewrite forallb_filter_id; [reflexivity|].
    apply forallb_forall. intros y Hy. apply negb_true_iff, Z.eqb_neq.
    intros E. apply Hx. rewrite <- E. apply in_map. exact Hy.
  - destruct (IH Hnd' Hin eq_refl) as (pre & post & -> & Hf).
    exists (x :: pre), post. split; [reflexivity|]. simpl. rewrite Hf.
    replace (row_id x =? row_id r) with false; [reflexivity|].
    symmetry. apply Z.eqb_neq. intros E. apply Hx. rewrite E, map_app. apply in_or_app.
    right. left. reflexivity.
Qed.

(** [DELETE /:id] in a reachable state answers 404 and changes nothing
    when the caller owns no row with that id. When both database calls
    resolve, it answers 200 and removes exactly that one row, keeping the
    order of the others, the id counter and the running workers. It answers
    500 only when a database call rejects: when [db.get] rejects nothing
    changes, and when the [DELETE] rejects the rows stay as they were. *)
Theorem delete_route_reachable (st : system) (get_ok run_ok : bool) (uid id : Z)
  (unlinked : option (list string)) (Hreach : reachable st) :
  match delete_route_db get_ok run_ok uid id unlinked st with
  | (NotFound404, st') =>
      get_ok = true /\ st' = st /\
      ~ exists r, In r (sys_rows st) /\ row_id r = id /\ row_user r = uid
  | (Ok200, st') =>
      get_ok = true /\ run_ok = true /\
      exists pre r post, sys_rows st = (pre ++ r :: post)%list /\ row_id r = id /\ row_user r = uid /\
        sys_rows st' = (pre ++ post)%list /\ sys_next_id st' = sys_next_id st /\
        sys_workers st' = sys_workers st
  | (Error500, st') =>
      (get_ok = false /\ st' = st) \/
      (get_ok = true /\ run_ok = false /\ sys_rows st' = sys_rows st /\
       sys_next_id st' = sys_next_id st /\ sys_workers st' = sys_workers st)
  end.
Proof.
  pose proof (reachable_nodup st Hreach) as Hnd.
  destruct get_ok; [|left; split; reflexivity].
  unfold delete_route_db, delete_route, db_get. cbn [negb].
  destruct (find _ (sys_rows st)) as [r|] eqn:Ef.
  - apply find_some in Ef as [Hin Hk]. apply andb_true_iff in Hk as [Hi Hu].
    apply Z.eqb_eq in Hi, Hu.
    destruct run_ok; [|right; repeat split; reflexivity].
    destruct (filter_unique_id id _ r Hnd Hin Hi) as (pre & post & Hr & Hf).
    split; [reflexivity|]. split; [reflexivity|].
    exists pre, r, post. cbn [sys_rows sys_next_id sys_workers snd fst].
    repeat split; assumption || reflexivity.
  - split; [reflexivity|]. split; [reflexivity|].
    intros (r & Hin & Hi & Hu). apply (find_none _ _ Ef) in Hin.
    rewrite Hi, Hu, !Z.eqb_refl in Hin. discriminate.
Qed.

Lemma delete_route_reachable_witness :
  reachable demo_uploaded /\
  match delete_route_db true true 7 1 None demo_uploaded with
  | (NotFound404, st') =>
      true = true /\ st' = demo_uploaded /\
      ~ exists r, In r (sys_rows demo_uploaded) /\ row_id r = 1 /\ row_user r = 7
  | (Ok200, st') =>
      true = true /\ true = true /\
      exists pre r post, sys_rows demo_uploaded = (pre ++ r :: post)%list /\ row_id r = 1 /\
        row_user r = 7 /\ sys_rows st' = (pre ++ post)%list /\
        sys_next_id st' = sys_next_id demo_uploaded /\
        sys_workers st' = sys_workers demo_uploaded
  | (Error500, st') =>
      (true = false /\ st' = demo_uploaded) \/
      (true = true /\ true = false /\ sys_rows st' = sys_rows demo_uploaded /\
       sys_next_id st' = sys_next_id demo_uploaded /\
       sys_workers st' = sys_workers demo_uploaded)
  end.
Proof.
  split; [exact demo_uploaded_reachable|].
  exact (delete_route_reachable _ true true 7 1 None demo_uploaded_reachable).
Defined.

Lemma has_char_app (c : ascii) (a b : string) :
  has_char c (a ++ b) = has_char c a || has_char c b.
Proof. induction a as [|c' a IH]; simpl; [reflexivity|]. rewrite IH. apply orb_assoc. Qed.

Lemma from_first_open_some (s t : string) :
  from_first_open s = Some t ->
  exists pre t', s = pre ++ String "{" t' /\ t = String "{" t' /\ has_char "{" pre = false.
Proof.
  revert t. induction s as [|c s IH]; simpl; intros t H; [discriminate|].
  destruct (Ascii.eqb_spec c "{") as [->|Hc].
  - injection H as <-. exists EmptyString, s. auto.
  - destruct (IH t H) as (pre & t' & -> & -> & Hp). exists (String c pre), t'.
    split; [reflexivity|]. split; [reflexivity|]. simpl. rewrite Hp.
    destruct (Ascii.eqb_spec c "{"); [contradiction | reflexivity].
Qed.

Lemma from_first_open_none (s : string) :
  from_first_open s = None -> has_char "{" s = false.
Proof.
  induction s as [|c s IH]; simpl; [reflexivity|].
  destruct (Ascii.eqb_spec c "{"); [discriminate|]. exact IH.
Qed.

Lemma upto_last_close_some (t m : string) :
  upto_last_close t = Some m ->
  exists m' post, t = m ++ post /\ m = m' ++ String "}" EmptyString /\ has_char "}" post = false.
Proof.
  revert m. induction t as [|c t IH]; simpl; intros m H; [discriminate|].
  destruct (upto_last_close t) as [p|] eqn:Eu.
  - injection H as <-. destruct (IH p eq_refl) as (m' & post & -> & -> & Hp).
    exists (String c m'), post. auto.
  - destruct (Ascii.eqb_spec c "}") as [->|]; [|discriminate]. injection H as <-.
    exists EmptyString, t. split; [reflexivity|]. split; [reflexivity|].
    clear IH. induction t as [|c' t IHt]; simpl in *; [reflexivity|].
    destruct (upto_last_close t); [discriminate|].
    destruct (Ascii.eqb_spec c' "}"); [discriminate|]. apply IHt; reflexivity.
Qed.

Lemma upto_last_close_none (t : string) :
  upto_last_close t = None <-> has_char "}" t = false.
Proof.
  induction t as [|c t IH]; simpl; [tauto|].
  destruct (upto_last_close t) as [p|] eqn:Eu.
  - split; intros H; [discriminate|]. apply orb_false_iff in H as [_ H].
    apply IH in H. discriminate.
  - assert (Ht : has_char "}" t = false) by (apply IH; reflexivity). rewrite Ht, orb_false_r.
    destruct (c =? "}")%char; split; intros H; congruence.
Qed.

(** The span that [analysisText.match(/\{[\s\S]*\}/)] finds starts at the
    first [{] of the text, ends at the last [}] after it, and starts with [{]
    and ends with [}]. *)
Theorem json_match_some (s m : string) (Hm : json_match s = Some m) :
  exists pre body post,
    s = pre ++ m ++ post /\ m = String "{" (body ++ String "}" EmptyString) /\
    has_char "{" pre = false /\ has_char "}" post = false.
Proof.
  unfold json_match in Hm. destruct (from_first_open s) as [t|] eqn:Ef; [|discriminate].
  destruct (from_first_open_some _ _ Ef) as (pre & t' & -> & -> & Hp).
  destruct (upto_last_close_some _ _ Hm) as (m' & post & Ht & Hm' & Hq).
  destruct m' as [|c body].
  - simpl in Hm'. subst m. simpl in Ht. discriminate.
  - simpl in Hm'. subst m. injection Ht as <- Ht.
    exists pre, body, post. rewrite Ht. auto.
Qed.

Lemma json_match_some_witness :
  json_match "a{b}c}d" = Some "{b}c}" /\
  exists pre body post,
    "a{b}c}d" = pre ++ "{b}c}" ++ post /\ "{b}c}" = String "{" (body ++ String "}" EmptyString) /\
    has_char "{" pre = false /\ has_char "}" post = false.
Proof.
  split; [reflexivity|]. apply (json_match_some "a{b}c}d" "{b}c}"). reflexivity.
Defined.

Lemma first_open_suffix (p0 t pre post : string) :
  has_char "{" p0 = false -> p0 ++ t = pre ++ String "{" post ->
  exists mid, t = mid ++ String "{" post.
Proof.
  revert pre. induction p0 as [|c p0 IH]; simpl; intros pre Hp E; [eauto|].
  apply orb_false_iff in Hp as [Hc Hp].
  destruct pre as [|c' pre]; simpl in E; injection E as -> E.
  - rewrite Ascii.eqb_refl in Hc. discriminate.
  - exact (IH pre Hp E).
Qed.

(** The pattern finds no span exactly when no [}] follows any [{] in the
    text. *)
Theorem json_match_none (s : string) :
  json_match s = None <->
  forall pre post, s = pre ++ String "{" post -> has_char "}" post = false.
Proof.
  unfold json_match. destruct (from_first_open s) as [t|] eqn:Ef.
  - destruct (from_first_open_some _ _ Ef) as (p0 & t' & Es & -> & Hp).
    rewrite upto_last_close_none. simpl. split.
    + intros H pre post E. rewrite Es in E.
      destruct (first_open_suffix _ _ _ _ Hp E) as (mid & Em).
      destruct mid as [|c mid]; simpl in Em.
      { injection Em as Em. rewrite <- Em. exact H. }
      injection Em as _ Em.
      rewrite Em, has_char_app in H. apply orb_false_iff in H as [_ H].
      simpl in H. exact H.
    + intros H. apply (H p0 t' Es).
  - apply from_first_open_none in Ef. split; [|reflexivity]. intros _ pre post E.
    rewrite E, has_char_app in Ef. simpl in Ef. rewrite ?Ascii.eqb_refl, orb_true_r in Ef.
    discriminate.
Qed.








(** [POST /upload] answers 500 at the first file whose [INSERT] fails;
    the rows and workers of the files before it stay, although the response
    lists none of them. *)
Theorem upload_route_error (uid : Z) (files : list (up_file * bool * worker_env))
  (st st' : system) (Hup : upload_route uid files st = (UploadError500, st')) :
  exists pre f env post,
    files = (pre ++ (f, false, env) :: post)%list /\
    Forall (fun '(_, inserted, _) => inserted = true) pre /\
    (exists imgs, upload_files uid pre st = (Some imgs, st')) /\
    length (sys_rows st') = (length (sys_rows st) + length pre)%nat.
Proof.
  unfold upload_route in Hup. destruct files as [|file files']; [discriminate|].
  destruct (upload_files uid (file :: files') st) as [[imgs0|] st0] eqn:E; [discriminate|].
  injection Hup as <-. generalize (file :: files') E. clear file files' E.
  intros files. revert st. induction files as [|[[f b] env] files IH]; simpl; intros st E.
  - discriminate.
  - destruct b.
    + destruct (upload_files uid files (upload uid (file_originalname f) (file_path f) env st))
        as [res st1] eqn:E1. injection E as Hres <-.
      destruct res; [discriminate|].
      destruct (IH _ E1) as (pre & f' & env' & post & -> & Hpre & (imgs & Ei) & Hl).
      exists ((f, true, env) :: pre), f', env', post. split; [reflexivity|].
      split; [constructor; [reflexivity | exact Hpre]|]. split.
      * simpl. rewrite Ei. eexists. reflexivity.
      * rewrite Hl. unfold upload. simpl. rewrite length_app. simpl. lia.
    + injection E as <-. exists [], f, env, files. split; [reflexivity|].
      split; [constructor|]. split; [exists []; reflexivity | simpl; lia].
Qed.

Lemma upload_route_error_witness :
  upload_route 7 [(mk_file "field.jpg" "image-1.jpg" "uploads/image-1.jpg", true, demo_env);
                  (mk_file "b.jpg" "image-2.jpg" "uploads/image-2.jpg", false, demo_env)]
               init_system = (UploadError500, demo_uploaded) /\
  exists pre f env post,
    [(mk_file "field.jpg" "image-1.jpg" "uploads/image-1.jpg", true, demo_env);
     (mk_file "b.jpg" "image-2.jpg" "uploads/image-2.jpg", false, demo_env)] =
      (pre ++ (f, false, env) :: post)%list /\
    Forall (fun '(_, inserted, _) => inserted = true) pre /\
    (exists imgs, upload_files 7 pre init_system = (Some imgs, demo_uploaded)) /\
    length (sys_rows demo_uploaded) = (length (sys_rows init_system) + length pre)%nat.
Proof.
  split; [vm_compute; reflexivity|].
  apply upload_route_error. vm_compute. reflexivity.
Defined.

Lemma find_all_false {A} (f : A -> bool) (l : list A) :
  (forall x, In x l -> f x = false) -> find f l = None.
Proof.
  induction l as [|x l IH]; simpl; intros H; [reflexivity|].
  rewrite (H x (or_introl eq_refl)). apply IH. auto.
Qed.

Lemma db_get_absent (id uid : Z) (rows : list image_row) :
  ~ In id (map row_id rows) -> db_get id uid rows = None.
Proof.
  intros H. unfold db_get. apply find_all_false. intros r Hin.
  destruct (Z.eqb_spec (row_id r) id) as [E|]; [|reflexivity].
  exfalso. apply H. rewrite <- E. apply in_map. exact Hin.
Qed.

(** After a successful [DELETE /:id], [GET /:id] answers 404 and a second
    [DELETE /:id] answers 404 and changes nothing, for every user and after
    any later uploads, worker writes and deletions. *)
Theorem delete_then_not_found (st : system) (uid id : Z) (unlinked : option (list string))
  (Hreach : reachable st) (Hfound : db_get id uid (sys_rows st) <> None) :
  forall st'' owner unlinked',
    steps (snd (delete_route uid id unlinked st)) st'' ->
    get_route owner id (sys_rows st'') = GetNotFound404 /\
    delete_route owner id unlinked' st'' = (NotFound404, st'').
Proof.
  intros st'' owner unlinked' Hs.
  destruct (reachable_inv st Hreach) as (_ & Hids & _).
  unfold delete_route in Hs.
  destruct (db_get id uid (sys_rows st)) as [r0|] eqn:Hget; [|contradiction].
  assert (Hlt : id < sys_next_id st).
  { unfold db_get in Hget. apply find_some in Hget as [Hin0 Hk].
    apply andb_true_iff in Hk as [Hk _]. apply Z.eqb_eq in Hk.
    rewrite Forall_forall in Hids. specialize (Hids r0 Hin0). lia. }
  assert (Hn : ~ In id (map row_id (sys_rows st''))).
  { refine (absent_id_steps id _ st'' Hs Hlt _).
    simpl. intros Hin'. apply in_map_iff in Hin' as (r & Hr & Hin').
    apply filter_In in Hin' as [_ Hk]. rewrite Hr, Z.eqb_refl in Hk. discriminate. }
  unfold get_route, delete_route. rewrite (db_get_absent id owner _ Hn). auto.
Qed.

Lemma delete_then_not_found_witness :
  reachable demo_uploaded /\ db_get 1 7 (sys_rows demo_uploaded) <> None /\
  get_route 7 1 (sys_rows (snd (delete_route 7 1 None demo_uploaded))) = GetNotFound404 /\
  delete_route 7 1 None (snd (delete_route 7 1 None demo_uploaded)) =
    (NotFound404, snd (delete_route 7 1 None demo_uploaded)).
Proof.
  assert (Hf : db_get 1 7 (sys_rows demo_uploaded) <> None) by (vm_compute; discriminate).
  split; [exact demo_uploaded_reachable|]. split; [exact Hf|].
  exact (delete_then_not_found demo_uploaded 7 1 None demo_uploaded_reachable Hf
           _ 7 None (steps_refl _)).
Defined.

(** The [path] a read route serves is [/uploads/] followed by a name with
    no [/], whatever path the row stores. *)
Theorem served_path_one_segment (r : image_row) (v : image_view) (Hv : view_of r = Some v) :
  exists name, view_path v = "/uploads/" ++ name /\ has_char "/" name = false.
Proof.
  unfold view_of in Hv. destruct (seg_view (row_segmentation_data r)); [|discriminate].
  injection Hv as <-. exists (basename (row_path r)). split; [reflexivity|].
  apply has_char_get. apply basename_no_slash.
Qed.

Lemma served_path_one_segment_witness :
  view_of (mk_row 1 7 "f.jpg" "a/b/../c/" None None Processing) =
    Some (mk_view (mk_row 1 7 "f.jpg" "a/b/../c/" None None Processing) JNull "/uploads/c") /\
  exists name, "/uploads/c" = "/uploads/" ++ name /\ has_char "/" name = false.
Proof.
  split; [vm_compute; reflexivity|].
  exact (served_path_one_segment (mk_row 1 7 "f.jpg" "a/b/../c/" None None Processing) _
           ltac:(vm_compute; reflexivity)).
Defined.

(** [JSON.parse(JSON.stringify(v))] gives [v] back with every non-finite
    number as [null], for a value without repeated keys. *)
Theorem stringify_parse_canon (v : jvalue) (Hwf : wf_json v = true) :
  json_parse (stringify v) = Some (canon v).
Proof. exact (json_parse_canon v Hwf). Qed.

Lemma stringify_parse_canon_witness :
  wf_json (JObj [("a", JNum (NumFin 15 (-1))); ("b", JArr [JNum (NumInf false); JNull])]) = true /\
  json_parse (stringify (JObj [("a", JNum (NumFin 15 (-1))); ("b", JArr [JNum (NumInf false); JNull])])) =
    Some (JObj [("a", JNum (NumFin 15 (-1))); ("b", JArr [JNull; JNull])]).
Proof.
  assert (Hw : wf_json (JObj [("a", JNum (NumFin 15 (-1))); ("b", JArr [JNum (NumInf false); JNull])]) = true)
    by reflexivity.
  split; [exact Hw|]. rewrite (stringify_parse_canon _ Hw). vm_compute. reflexivity.
Defined.

(** ** The stored file name and the mime type *)

Lemma ext_loop_boundary (p : string) (lo : nat) sd e pds :
  (lo = O \/ is_slash (String.get (lo - 1) p) = true) ->
  extname_loop p lo sd e false pds = (sd, lo, e, pds).
Proof.
  intros [->|H]; [reflexivity|]. destruct lo as [|j]; [reflexivity|].
  simpl in H. rewrite Nat.sub_0_r in H. simpl. rewrite H. reflexivity.
Qed.

Lemma ext_loop_some (p : string) (lo n sd e : nat) (pds : Z) :
  (forall k, (lo <= k < lo + S n)%nat -> plain p k) ->
  (lo = O \/ is_slash (String.get (lo - 1) p) = true) ->
  extname_loop p (lo + S n) (Some sd) (Some e) false pds = (Some sd, lo, Some e, -1).
Proof.
  intros Hk Hb. revert pds. induction n as [|n IH]; intros pds.
  - rewrite Nat.add_1_r. simpl. destruct (Hk lo ltac:(lia)) as [H1 H2].
    rewrite H1, H2. apply ext_loop_boundary. exact Hb.
  - rewrite Nat.add_succ_r. simpl. destruct (Hk (lo + S n)%nat ltac:(lia)) as [H1 H2].
    rewrite H1, H2. apply IH. intros k Hk'. apply Hk. lia.
Qed.

Lemma ext_loop_none (p : string) (lo n : nat) e m (pds : Z) :
  (forall k, (lo <= k < lo + S n)%nat -> plain p k) ->
  extname_loop p (lo + S n) None e m pds =
  extname_loop p lo None (Some (match e with None => lo + S n | Some x => x end)%nat)
               (match e with None => false | Some _ => m end) pds.
Proof.
  intros Hk. revert e m. induction n as [|n IH]; intros e m.
  - rewrite Nat.add_1_r. simpl. destruct (Hk lo ltac:(lia)) as [H1 H2].
    rewrite H1, H2. destruct e; reflexivity.
  - rewrite Nat.add_succ_r. simpl. destruct (Hk (lo + S n)%nat ltac:(lia)) as [H1 H2].
    rewrite H1, H2.
    destruct e; rewrite IH by (intros k Hk'; apply Hk; lia); rewrite ?Nat.add_succ_r; reflexivity.
Qed.

Lemma ext_loop_dot (p : string) (j : nat) e m (pds : Z) :
  String.get j p = Some "."%char ->
  extname_loop p (S j) None e m pds =
  extname_loop p j (Some j) (Some (match e with None => S j | Some x => x end))
               (match e with None => false | Some _ => m end) pds.
Proof. intros H. simpl. rewrite H. destruct e; reflexivity. Qed.

Lemma is_slash_not (o : option ascii) : o <> Some "/"%char -> is_slash o = false.
Proof.
  destruct o as [c|]; [|reflexivity]. simpl. intros H.
  destruct (Ascii.eqb_spec c "/"); [subst; contradiction | reflexivity].
Qed.

Lemma is_dot_not (o : option ascii) : o <> Some "."%char -> is_dot o = false.
Proof.
  destruct o as [c|]; [|reflexivity]. simpl. intros H.
  destruct (Ascii.eqb_spec c "."); [subst; contradiction | reflexivity].
Qed.

Lemma get_app_r (a b : string) (k : nat) : String.get (String.length a + k) (a ++ b) = String.get k b.
Proof. rewrite Nat.add_comm. symmetry. apply append_correct2. Qed.

Lemma get_app_l (a b : string) (k : nat) :
  (k < String.length a)%nat -> String.get k (a ++ b) = String.get k a.
Proof. intros H. symmetry. apply append_correct1. exact H. Qed.

Lemma extname_after_plain (pre A ext : string) :
  (pre = EmptyString \/ exists d, pre = d ++ "/") ->
  A <> EmptyString -> has_char "/" A = false -> has_char "." A = false ->
  (ext = EmptyString \/
   exists r, ext = String "." r /\ has_char "." r = false /\ has_char "/" r = false) ->
  extname (pre ++ (A ++ ext)) = ext.
Proof.
  intros Hpre HA Hs Hd Hext.
  rewrite has_char_get in Hs. rewrite has_char_get in Hd.
  set (lo := String.length pre).
  destruct A as [|a0 A'] eqn:EA; [congruence|]. rewrite <- EA in *. clear HA.
  set (n := String.length A').
  assert (HlA : String.length A = S n) by (rewrite EA; reflexivity).
  set (P := pre ++ (A ++ ext)).
  assert (Hplain : forall k, (lo <= k < lo + S n)%nat -> plain P k).
  { intros k Hk. replace k with (lo + (k - lo))%nat by lia. unfold plain, P, lo.
    rewrite get_app_r, get_app_l by lia. split; [apply is_slash_not, Hs | apply is_dot_not, Hd]. }
  assert (Hb : lo = O \/ is_slash (String.get (lo - 1) P) = true).
  { destruct Hpre as [->|[d ->]]; [left; reflexivity|]. right. unfold lo, P.
    rewrite length_append. simpl. replace (String.length d + 1 - 1)%nat with (String.length d + 0)%nat by lia.
    rewrite append_assoc, get_app_r. reflexivity. }
  assert (HP : P = (pre ++ A) ++ ext) by (unfold P; rewrite append_assoc; reflexivity).
  assert (HL : String.length (pre ++ A) = (lo + S n)%nat) by (rewrite length_append, HlA; reflexivity).
  unfold extname.
  destruct Hext as [->|(r & -> & Hr1 & Hr2)].
  - fold P. replace (String.length P) with (lo + S n)%nat
      by (rewrite HP, append_nil, HL; reflexivity).
    rewrite (ext_loop_none _ _ _ _ _ _ Hplain), ext_loop_boundary by exact Hb. reflexivity.
  - fold P.
    assert (Hdot : String.get (lo + S n) P = Some "."%char).
    { rewrite HP, <- HL, <- (Nat.add_0_r (String.length (pre ++ A))), get_app_r. reflexivity. }
    assert (Hsub : substring (lo + S n) (String.length (String "." r)) P = String "." r).
    { rewrite HP, <- HL. apply substring_app. }
    destruct r as [|c r'].
    + replace (String.length P) with (S (lo + S n))
        by (rewrite HP, length_append, HL; simpl; lia).
      rewrite (ext_loop_dot _ _ _ _ _ Hdot), ext_loop_some by assumption.
      replace (S (lo + S n) - (lo + S n))%nat with 1%nat by lia. exact Hsub.
    + set (m := String.length r'). fold P.
      replace (String.length P) with (S (lo + S n) + S m)%nat
        by (rewrite HP, length_append, HL; simpl; unfold m; lia).
      rewrite ext_loop_none.
      2:{ intros k Hk. unfold plain. rewrite HP.
          replace k with (String.length (pre ++ A) + S (k - S (lo + S n)))%nat
            by (rewrite HL; lia).
          rewrite get_app_r. simpl.
          rewrite has_char_get in Hr1. rewrite has_char_get in Hr2.
          split; [apply is_slash_not, Hr2 | apply is_dot_not, Hr1]. }
      rewrite (ext_loop_dot _ _ _ _ _ Hdot), ext_loop_some by assumption.
      replace (S (lo + S n) + S m - (lo + S n))%nat with (String.length (String "." (String c r')))
        by (cbn [String.length]; unfold m; lia).
      exact Hsub.
Qed.

Lemma is_slash_true (o : option ascii) : is_slash o = true -> o = Some "/"%char.
Proof. destruct o as [c|]; simpl; [intros H; apply Ascii.eqb_eq in H; congruence | discriminate]. Qed.

Lemma is_dot_true (o : option ascii) : is_dot o = true -> o = Some "."%char.
Proof. destruct o as [c|]; simpl; [intros H; apply Ascii.eqb_eq in H; congruence | discriminate]. Qed.

Lemma ext_loop_inv (p : string) (i : nat) : forall sd e m pds,
  (i <= String.length p)%nat -> ext_state p i sd e m ->
  ext_result p (extname_loop p i sd e m pds).
Proof.
  induction i as [|j IH]; intros sd e m pds Hi H.
  - simpl. destruct e as [e|]; [|destruct H as [-> _]; exact I].
    destruct sd as [s|]; [|exact I]. destruct H as (_ & Hie & Hs & Hlt & Hd & Hk).
    split; [lia|]. split; [exact Hd|]. intros k Hk'. split; [apply Hk; lia | apply Hs; lia].
  - simpl. destruct (is_slash (String.get j p)) eqn:Es.
    + destruct m.
      * apply IH; [lia|]. destruct e as [e|]; [destruct H as [H _]; discriminate|].
        destruct H as [-> _]. split; reflexivity.
      * simpl. destruct e as [e|]; [|destruct H as [_ H]; discriminate].
        destruct sd as [s|]; [|exact I]. destruct H as (_ & Hie & Hs & Hlt & Hd & Hk).
        split; [lia|]. split; [exact Hd|]. intros k Hk'. split; [apply Hk; lia | apply Hs; lia].
    + destruct (is_dot (String.get j p)) eqn:Ed.
      * destruct e as [e|].
        -- destruct H as (-> & Hlt & Hs & Hsd).
           destruct sd as [s|]; apply IH; try lia.
           ++ destruct Hsd as (Hls & Hds & Hks).
              split; [reflexivity|]. split; [lia|]. split.
              ** intros k Hk. destruct (Nat.eq_dec k j) as [->|]; [exact Es | apply Hs; lia].
              ** split; [lia|]. split; [exact Hds | exact Hks].
           ++ split; [reflexivity|]. split; [lia|]. split.
              ** intros k Hk. destruct (Nat.eq_dec k j) as [->|]; [exact Es | apply Hs; lia].
              ** split; [lia|]. split; [exact Ed|]. intros k Hk. apply Hsd. lia.
        -- destruct H as [-> _]. apply IH; [lia|].
           split; [reflexivity|]. split; [lia|]. split.
           ++ intros k Hk. assert (k = j) by lia. subst. exact Es.
           ++ split; [lia|]. split; [exact Ed|]. intros k Hk. lia.
      * destruct e as [e|].
        -- destruct H as (-> & Hlt & Hs & Hsd).
           destruct sd as [s|]; apply IH; try lia.
           ++ destruct Hsd as (Hls & Hds & Hks).
              split; [reflexivity|]. split; [lia|]. split.
              ** intros k Hk. destruct (Nat.eq_dec k j) as [->|]; [exact Es | apply Hs; lia].
              ** split; [lia|]. split; [exact Hds | exact Hks].
           ++ split; [reflexivity|]. split; [lia|]. split.
              ** intros k Hk. destruct (Nat.eq_dec k j) as [->|]; [exact Es | apply Hs; lia].
              ** intros k Hk. destruct (Nat.eq_dec k j) as [->|]; [exact Ed | apply Hsd; lia].
        -- destruct H as [-> _]. apply IH; [lia|].
           split; [reflexivity|]. split; [lia|]. split.
           ++ intros k Hk. assert (k = j) by lia. subst. exact Es.
           ++ intros k Hk. assert (k = j) by lia. subst. exact Ed.
Qed.

Lemma extname_shape (p : string) :
  extname p = EmptyString \/
  exists r, extname p = String "." r /\ has_char "." r = false /\ has_char "/" r = false.
Proof.
  unfold extname.
  pose proof (ext_loop_inv p (String.length p) None None true 0 (le_n _) (conj eq_refl eq_refl)) as H.
  destruct (extname_loop p (String.length p) None None true 0) as [[[sd sp] e] pds].
  destruct sd as [s|]; [|left; reflexivity]. destruct e as [e|]; [|left; reflexivity].
  destruct (_ || _); [left; reflexivity|]. right.
  destruct H as (Hlt & Hd & Hk).
  assert (Hg : forall k, (k < e - s)%nat -> String.get k (substring s (e - s) p) = String.get (k + s) p)
    by (intros k Hk'; apply substring_correct1; exact Hk').
  assert (Hn : forall k, (e - s <= k)%nat -> String.get k (substring s (e - s) p) = None)
    by (intros k Hk'; apply substring_correct2; exact Hk').
  destruct (substring s (e - s) p) as [|c r] eqn:Es.
  - exfalso. specialize (Hg O ltac:(lia)). simpl in Hg. apply is_dot_true in Hd. congruence.
  - exists r. pose proof (Hg O ltac:(lia)) as H0. simpl in H0. apply is_dot_true in Hd.
    rewrite Hd in H0. injection H0 as ->. split; [reflexivity|].
    split; apply has_char_get; intros k E.
    + destruct (Nat.lt_ge_cases (S k) (e - s)) as [Hl|Hl].
      * specialize (Hg (S k) Hl). change (String.get (S k) (String "." r)) with (String.get k r) in Hg.
        rewrite E in Hg.
        destruct (Hk (S k + s)%nat ltac:(lia)) as [Hd' _]. rewrite <- Hg in Hd'. discriminate.
      * specialize (Hn (S k) Hl). simpl in Hn. congruence.
    + destruct (Nat.lt_ge_cases (S k) (e - s)) as [Hl|Hl].
      * specialize (Hg (S k) Hl). change (String.get (S k) (String "." r)) with (String.get k r) in Hg.
        rewrite E in Hg.
        destruct (Hk (S k + s)%nat ltac:(lia)) as [_ Hs']. rewrite <- Hg in Hs'. discriminate.
      * specialize (Hn (S k) Hl). simpl in Hn. congruence.
Qed.

Lemma string_of_uint_plain (u : uint) :
  has_char "/" (NilEmpty.string_of_uint u) = false /\ has_char "." (NilEmpty.string_of_uint u) = false.
Proof. induction u; simpl; auto. Qed.

Lemma print_Z_plain (z : Z) : has_char "/" (print_Z z) = false /\ has_char "." (print_Z z) = false.
Proof.
  unfold print_Z, digits_of_N. destruct (z <? 0); simpl; apply string_of_uint_plain.
Qed.

Lemma multer_prefix_plain (now rnd : Z) :
  has_char "/" ("image-" ++ unique_suffix now rnd) = false /\
  has_char "." ("image-" ++ unique_suffix now rnd) = false.
Proof.
  unfold unique_suffix.
  destruct (print_Z_plain now) as [A1 A2]. destruct (print_Z_plain rnd) as [B1 B2].
  rewrite !has_char_app. simpl. rewrite A1, A2, B1, B2. split; reflexivity.
Qed.

(** The name the disk storage gives an upload, ['image-' + suffix +
    path.extname(originalname)], is never empty and never contains [/]. *)
Theorem multer_filename_plain (now rnd : Z) (originalname : string) :
  multer_filename now rnd originalname <> EmptyString /\
  has_char "/" (multer_filename now rnd originalname) = false.
Proof.
  split; [discriminate|]. unfold multer_filename.
  rewrite has_char_app, (proj1 (multer_prefix_plain now rnd)).
  destruct (extname_shape originalname) as [->|(r & -> & _ & Hr)]; [reflexivity|].
  simpl. exact Hr.
Qed.

Lemma extname_stored (dir : string) (now rnd : Z) (originalname : string) :
  extname (dir ++ String "/" (multer_filename now rnd originalname)) = extname originalname.
Proof.
  unfold multer_filename.
  replace (dir ++ String "/" (("image-" ++ unique_suffix now rnd) ++ extname originalname))
    with ((dir ++ "/") ++ (("image-" ++ unique_suffix now rnd) ++ extname originalname))
    by (rewrite append_assoc; reflexivity).
  destruct (multer_prefix_plain now rnd) as [H1 H2].
  apply extname_after_plain; [right; eauto | discriminate | exact H1 | exact H2 |].
  destruct (extname_shape originalname) as [->|(r & -> & Hr)]; [left; reflexivity | right; eauto].
Qed.

(** For a file stored under the name the disk storage gives it, the worker
    sends the mime type of the original file name's extension: [.png] and
    [.webp] in any case, and [image/jpeg] for everything else. *)
Theorem worker_mime_type (dir : string) (now rnd : Z) (originalname : string) :
  mime_type (dir ++ String "/" (multer_filename now rnd originalname)) = mime_type originalname.
Proof. unfold mime_type. rewrite extname_stored. reflexivity. Qed.
